(** * HubSpot list/campaign pipeline (routes/hubspotRoute.js)

    A shallow embedding of the list-creation pipeline of
    [src/routes/hubspotRoute.js]: the paginated list reader
    ([getContactsFromList]), the list manager ([createHubSpotList],
    [verifyListIsManual]), the membership writer ([addContactsToList] with
    [progressiveChunks]), the property updater ([updateContactProperties]),
    the campaign processor ([processSingleCampaign]) and the run sequencer
    ([processCampaignsWithDelay]).

    Asynchronous JavaScript is embedded in a state-and-exception monad over
    a [World]: the remote API and the database are an oracle that gives the
    outcome of the n-th awaited call, the clock is a field of the world, and
    every request and every timer is appended to an event log.  The [Set] of
    used contacts that [processCampaignsWithDelay] creates and hands to every
    [processSingleCampaign] is a field of the world as well, so that what a
    campaign adds to it stays added when the campaign throws.  Contact ids
    are integers, list ids are strings; [console] output is left out. *)

From Equations Require Import Equations.
From stdpp Require Import gmap strings list pretty.
From Stdlib Require PrimFloat FloatOps SpecFloat Uint63.

Local Open Scope Z_scope.

(** ** JavaScript values and array helpers *)

(** A JS number used as an upper bound: an integer or [Infinity]
    (the default of [maxCount]). *)
Inductive Limit :=
| Finite (n : Z)
| Infinity.

(** [n < l] *)
Definition ltLimit (n : Z) (l : Limit) : bool :=
  match l with
  | Finite m => n <? m
  | Infinity => true
  end.

(** ECMAScript's relative index of [Array.prototype.slice]: a negative
    index counts from the end, and the result is clamped to [0, len]. *)
Definition relativeIndex (len i : Z) : Z :=
  if i <? 0 then Z.max (len + i) 0 else Z.min i len.

(** [arr.slice(start, finish)] *)
Definition slice {A} (arr : list A) (start finish : Z) : list A :=
  let len := Z.of_nat (length arr) in
  let k := relativeIndex len start in
  let final := relativeIndex len finish in
  take (Z.to_nat (final - k)) (drop (Z.to_nat k) arr).

(** [[...new Set(arr)]]: a [Set] keeps the first occurrence of each value,
    in insertion order. *)
Fixpoint uniqueFrom (seen : gset Z) (arr : list Z) : list Z :=
  match arr with
  | [] => []
  | x :: rest =>
      if decide (x ∈ seen) then uniqueFrom seen rest
      else x :: uniqueFrom ({[x]} ∪ seen) rest
  end.

Definition unique (arr : list Z) : list Z := uniqueFrom ∅ arr.

(** The binary64 value of a non-negative integer (exact below 2^53); it is
    applied to array lengths, to a positive [count] and to 100. *)
Definition toNumber (z : Z) : PrimFloat.float :=
  PrimFloat.of_uint63 (Uint63.of_Z z).

(** [Math.round]: the integer nearest to a finite binary64 value, ties
    towards +Infinity. *)
Definition Math_round (x : PrimFloat.float) : Z :=
  match FloatOps.Prim2SF x with
  | SpecFloat.S754_finite false m e =>
      if 0 <=? e then Z.shiftl (Z.pos m) e
      else Z.shiftr (Z.pos m + Z.shiftl 1 (- e - 1)) (- e)
  | SpecFloat.S754_finite true m e =>
      if 0 <=? e then - Z.shiftl (Z.pos m) e
      else - Z.shiftr (Z.pos m + Z.shiftl 1 (- e - 1) - 1) (- e)
  | _ => 0
  end.

(** A value together with the equation that names it, for the equations
    below that branch on a computed chunk. *)
Definition inspect {A} (a : A) : {b | a = b} := exist _ a eq_refl.

(** [chunkArray(arr, size)]: the [for (i = 0; i < arr.length; i += size)]
    loop from index [i] on.  The size is positive at the only call site
    (100); the source loop does not end for a size of 0. *)
Equations? chunkArrayFrom {A} (arr : list A) (size : positive) (i : nat)
    (chunks : list (list A)) : list (list A) by wf (length arr - i)%nat lt :=
chunkArrayFrom arr size i chunks with decide (i < length arr)%nat := {
  | right _ := chunks
  | left _ :=
      chunkArrayFrom arr size (i + Pos.to_nat size)%nat
        (chunks ++ [slice arr (Z.of_nat i) (Z.of_nat (i + Pos.to_nat size))]) }.
Proof. lia. Qed.

Definition chunkArray {A} (arr : list A) (size : positive) : list (list A) :=
  chunkArrayFrom arr size 0%nat [].

(** The inner [while (index < arr.length)] loop of [progressiveChunks] for
    one [size]; it returns the updated [result] and [index]. *)
Equations? chunkWhile {A} (arr : list A) (size index : nat)
    (result : list (list A)) : list (list A) * nat
    by wf (length arr - index)%nat lt :=
chunkWhile arr size index result with decide (index < length arr)%nat := {
  | right _ := (result, index)
  | left _
      with inspect (slice arr (Z.of_nat index) (Z.of_nat (index + size))) := {
      | exist _ nil _ := (result, index)   (* if (!chunk.length) break *)
      | exist _ (cons x chunk) Hc :=
          chunkWhile arr size (index + size)%nat (result ++ [x :: chunk]) } }.
Proof.
  destruct size; [|lia].
  unfold slice in Hc. rewrite Nat.add_0_r, Z.sub_diag in Hc. discriminate.
Qed.

(** [progressiveChunks(arr, sizes = [300, 100, 50, 1])] *)
Definition progressiveChunksOf {A} (arr : list A) (sizes : list nat)
  : list (list A) :=
  fst (foldl (fun '(result, index) size => chunkWhile arr size index result)
             ([], 0%nat) sizes).

Definition defaultSizes : list nat := [300; 100; 50; 1]%nat.

Definition progressiveChunks {A} (arr : list A) : list (list A) :=
  progressiveChunksOf arr defaultSizes.

(** ** The world outside the program *)

(** The part of a response body that the program reads.  [results] holds
    [parseInt(record.recordId)] of every record, [nextAfter] is
    [paging?.next?.after] when truthy; the list fields are read from
    [data.list || data], and [classicListId] is
    [lists[0].additionalProperties?.hs_classic_list_id] of a search. *)
Record Body := {
  results : list Z;
  nextAfter : option string;
  bodyListId : option string;
  bodyDeleted : option bool;
  processingType : option string;
  classicListId : option string
}.

(** How an awaited external call settles: the promise resolves with a body,
    or rejects with an error whose [response?.status] and [message] are
    given. *)
Inductive Reply :=
| Resolved (body : Body)
| Rejected (status : option Z) (message : string).

(** Values thrown by the program or by a rejected call. *)
Inductive JsError :=
| RemoteError (status : option Z) (message : string)
| PlainError (message : string).

Definition errorMessage (e : JsError) : string :=
  match e with
  | RemoteError _ m => m
  | PlainError m => m
  end.

(** [error.response?.status] *)
Definition responseStatus (e : JsError) : option Z :=
  match e with
  | RemoteError s _ => s
  | PlainError _ => None
  end.

Module CreatedListFields.
(** The object that [processSingleCampaign] passes to
    [CreatedList.create]. *)
Record t := {
  name : string;
  listId : string;
  legacyListId : option string;
  createdDate : Z;
  deleted : option bool;
  filterCriteria : string * string;
  campaignDetails : string * string * Z;
  contactCount : Z;
  requestedCount : Z;
  availableCount : Z;
  filteredCount : Z;
  fulfillmentPercentage : Z
}.
End CreatedListFields.

Module CreatedList.
(** A document of the [CreatedList] model, as [CreatedList.create] saves and
    returns it.  The schema of the model declares [name], [listId],
    [legacyListId], [createdDate] and [deleted]; a field that the schema does
    not declare is not kept.  The cast of [listId] and [legacyListId] to
    numbers is not modelled: a value that cannot be cast makes [create]
    reject, which is one of the rejections of the environment. *)
Record t := {
  name : string;
  listId : string;
  legacyListId : option string;
  createdDate : Z;
  deleted : option bool
}.
End CreatedList.

(** What the schema keeps of the object passed to [CreatedList.create]. *)
Definition keptBySchema (doc : CreatedListFields.t) : CreatedList.t :=
  {| CreatedList.name := CreatedListFields.name doc;
     CreatedList.listId := CreatedListFields.listId doc;
     CreatedList.legacyListId := CreatedListFields.legacyListId doc;
     CreatedList.createdDate := CreatedListFields.createdDate doc;
     CreatedList.deleted := CreatedListFields.deleted doc |}.

Module CampaignResult.
(** The object returned by [processSingleCampaign]. *)
Record t := {
  success : bool;
  listName : string;
  listId : string;
  legacyListId : option string;
  contactCount : Z;
  requestedCount : Z;
  availableCount : Z;
  filteredCount : Z;
  fulfillmentPercentage : Z;
  createdList : CreatedList.t
}.
End CampaignResult.

Module RemoteList.
(** The object returned by [createHubSpotList], as far as it is read. *)
Record t := {
  listId : string;
  legacyListId : option string;
  deleted : option bool
}.
End RemoteList.

(** A campaign configuration (a [Segmentation] document); [date] is the
    instant [new Date(date)] in milliseconds, and an absent or empty list id
    is [None]. *)
Record CampaignConfig := {
  brand : string;
  campaign : string;
  primaryListId : string;
  secondaryListId : option string;
  count : Z;
  domain : string;
  date : Z;
  sendContactListId : option string;
  lastMarketingEmailSentBrand : string
}.

(** An entry of the array returned by [processCampaignsWithDelay]. *)
Inductive Settled :=
| fulfilled (value : CampaignResult.t)
| rejected (reason : JsError).

(** What the program does to the outside, in order. *)
Inductive Event :=
| GetMemberships (listId : string) (limit : Z) (after : option string)
| PostListSearch (listId : string)
| PostList (name : string)
| GetList (listId : string)
| PutMembershipsAdd (listId : string) (recordIds : list string)
| PostContactsBatchUpdate (ids : list string) (epochTime : string)
    (brand : string)
| CreatedListCreate (doc : CreatedListFields.t)
| SetTimeout (ms : Z).

(** Configuration read from the process environment, and the behaviour of
    everything the program awaits or asks the runtime. *)
Record Env := {
  RETRIEVAL_BATCH_SIZE : Z;        (* default 1000 *)
  MAX_RETRIES : Z;                 (* default 3 *)
  INTER_LIST_DELAY_MS : Z;         (* default 3 * 60 * 1000 *)
  reply : nat -> Reply;            (* outcome of the n-th external call *)
  latency : nat -> N;              (* milliseconds the n-th call takes *)
  overshoot : nat -> N;            (* lateness of the n-th timer *)
  getDate : Z -> Z;                (* local calendar fields of an instant *)
  getMonth : Z -> nat;
  getFullYear : Z -> Z
}.

Record World := {
  calls : nat;                     (* external calls awaited so far *)
  timers : nat;                    (* timers awaited so far *)
  clock : Z;                       (* Date.now() *)
  events : list Event;
  usedContacts : gset Z;           (* the Set shared by a run's campaigns *)
  selections : list (list Z);      (* ghost: each campaign's selectedContacts *)
  store : list CreatedList.t       (* documents saved by create so far *)
}.

Definition afterCall (env : Env) (ev : Event) (w : World) : World :=
  {| calls := S (calls w); timers := timers w;
     clock := clock w + Z.of_N (latency env (calls w));
     events := events w ++ [ev];
     usedContacts := usedContacts w; selections := selections w;
     store := store w |}.

Definition afterTimer (env : Env) (ms : Z) (w : World) : World :=
  {| calls := calls w; timers := S (timers w);
     clock := clock w + Z.max 0 ms + Z.of_N (overshoot env (timers w));
     events := events w ++ [SetTimeout ms];
     usedContacts := usedContacts w; selections := selections w;
     store := store w |}.

Definition withUsed (s : gset Z) (w : World) : World :=
  {| calls := calls w; timers := timers w; clock := clock w; events := events w;
     usedContacts := s; selections := selections w; store := store w |}.

Definition withSelection (sel : list Z) (w : World) : World :=
  {| calls := calls w; timers := timers w; clock := clock w; events := events w;
     usedContacts := usedContacts w; selections := selections w ++ [sel];
     store := store w |}.

Definition withDocument (doc : CreatedList.t) (w : World) : World :=
  {| calls := calls w; timers := timers w; clock := clock w; events := events w;
     usedContacts := usedContacts w; selections := selections w;
     store := store w ++ [doc] |}.

(** ** The monad of asynchronous code *)

Inductive Outcome (A : Type) :=
| Return (a : A)
| Throw (e : JsError).
Arguments Return {A} a.
Arguments Throw {A} e.

(** An async function: from a world it returns or throws in a later world;
    [None] when it uses more loop iterations than the fuel it was given. *)
Definition Async (A : Type) : Type := World -> option (Outcome A * World).

Definition ret {A} (a : A) : Async A := fun w => Some (Return a, w).

Definition throw {A} (e : JsError) : Async A := fun w => Some (Throw e, w).

Definition outOfFuel {A} : Async A := fun _ => None.

Definition bind {A B} (m : Async A) (k : A -> Async B) : Async B :=
  fun w =>
    match m w with
    | Some (Return a, w') => k a w'
    | Some (Throw e, w') => Some (Throw e, w')
    | None => None
    end.

(** [try { body } catch (error) { handler }] *)
Definition tryCatch {A} (body : Async A) (handler : JsError -> Async A)
  : Async A :=
  fun w =>
    match body w with
    | Some (Throw e, w') => handler e w'
    | r => r
    end.

Notation "'let*' x ':=' m 'in' k" := (bind m (fun x => k))
  (at level 10, x pattern, m at level 100, k at level 200).
Notation "m ';;' k" := (bind m (fun _ => k))
  (at level 100, k at level 200, right associativity).

Section Pipeline.

Variable env : Env.

(** [await axios.get/post/put(...)] and [await CreatedList.create(...)] *)
Definition await (ev : Event) : Async Body :=
  fun w =>
    match reply env (calls w) with
    | Resolved body => Some (Return body, afterCall env ev w)
    | Rejected status message =>
        Some (Throw (RemoteError status message), afterCall env ev w)
    end.

(** [await new Promise(r => setTimeout(r, ms))] *)
Definition sleep (ms : Z) : Async unit :=
  fun w => Some (Return tt, afterTimer env ms w).

(** [Date.now()] *)
Definition dateNow : Async Z := fun w => Some (Return (clock w), w).

(** ** Paginated list reader *)

(** The double-quote character (code 34). *)
Definition quote : string :=
  String (Ascii.Ascii false true false false false true false false)
         EmptyString.

(** The message of the error thrown by [getContactsFromLegacyList]. *)
Definition legacyListMessage (listId : string) : string :=
  "List " +:+ listId +:+ " is a legacy list. "
  +:+ "HubSpot v3 API only supports ILS (Integrated List Segmentation) lists. "
  +:+ "Please migrate this list to ILS format. Migration options: "
  +:+ "1) HubSpot UI: Contacts → Lists → Find list " +:+ listId
  +:+ " → Actions → Clone as ILS list, OR "
  +:+ "2) Use API: POST /api/migrate-legacy-list with body {" +:+ quote
  +:+ "legacyListId" +:+ quote +:+ ": " +:+ quote +:+ listId +:+ quote
  +:+ ", " +:+ quote +:+ "newListName" +:+ quote +:+ ": " +:+ quote
  +:+ "Your List Name" +:+ quote +:+ "}".

Definition getContactsFromLegacyList (listId : string) (maxCount : Limit)
  : Async (list Z) :=
  throw (PlainError (legacyListMessage listId)).

(** The local variables of [getContactsFromList]. *)
Record Reader := {
  allContacts : list Z;
  hasMore : bool;
  after : option string;
  consecutiveErrors : Z;
  totalAttempts : Z;
  isLegacyList : bool;
  v3Success : bool
}.

Definition initialReader : Reader :=
  {| allContacts := []; hasMore := true; after := None;
     consecutiveErrors := 0; totalAttempts := 0;
     isLegacyList := false; v3Success := false |}.

(** How an iteration of a loop ends. *)
Inductive Flow := Continue | Break.

Definition len {A} (l : list A) : Z := Z.of_nat (length l).

(** [Math.min(RETRIEVAL_BATCH_SIZE, maxCount - allContacts.length)] *)
Definition countToFetch (maxCount : Limit) (st : Reader) : Z :=
  match maxCount with
  | Finite m => Z.min (RETRIEVAL_BATCH_SIZE env) (m - len (allContacts st))
  | Infinity => RETRIEVAL_BATCH_SIZE env
  end.

Definition membershipsRequest (listId : string) (maxCount : Limit)
    (st : Reader) : Event :=
  GetMemberships listId (countToFetch maxCount st) (after st).

(** The [try] block of the loop, entered with [totalAttempts] already
    incremented. *)
Definition fetchPage (listId : string) (maxCount : Limit) (st : Reader)
  : Async (Flow * Reader) :=
  let* res := await (membershipsRequest listId maxCount st) in
  let newContacts := results res in
  let all := allContacts st ++ newContacts in
  let more :=
    bool_decide (is_Some (nextAfter res)) && ltLimit (len all) maxCount in
  let st' := {| allContacts := all; hasMore := more; after := nextAfter res;
                consecutiveErrors := 0; totalAttempts := totalAttempts st;
                isLegacyList := isLegacyList st; v3Success := true |} in
  match maxCount with
  | Finite m =>
      if negb (len all <? m) then
        ret (Break,
             {| allContacts := slice all 0 m; hasMore := more;
                after := nextAfter res; consecutiveErrors := 0;
                totalAttempts := totalAttempts st;
                isLegacyList := isLegacyList st; v3Success := true |})
      else (if more then sleep 200 else ret tt) ;; ret (Continue, st')
  | Infinity => (if more then sleep 200 else ret tt) ;; ret (Continue, st')
  end.

(** The delay before the retry that follows the [n]-th consecutive error. *)
Definition backoff (n : Z) : Z := Z.min (1000 * 2 ^ (n - 1)) 10000.

Definition retrievalFailedMessage (listId : string) (cause : string)
  : string :=
  "Unable to fetch contacts from list " +:+ listId +:+ ": " +:+ cause.

(** The [catch] block of the loop. *)
Definition onPageError (listId : string) (st : Reader) (error : JsError)
  : Async (Flow * Reader) :=
  if bool_decide (responseStatus error = Some 404)
     && (totalAttempts st =? 1) then
    ret (Break,
         {| allContacts := allContacts st; hasMore := hasMore st;
            after := after st; consecutiveErrors := consecutiveErrors st;
            totalAttempts := totalAttempts st;
            isLegacyList := true; v3Success := v3Success st |})
  else
    let errors := consecutiveErrors st + 1 in
    let st' := {| allContacts := allContacts st; hasMore := hasMore st;
                  after := after st; consecutiveErrors := errors;
                  totalAttempts := totalAttempts st;
                  isLegacyList := isLegacyList st;
                  v3Success := v3Success st |} in
    if (0 <? len (allContacts st)) && (MAX_RETRIES env <=? errors) then
      ret (Break, st')
    else if (len (allContacts st) =? 0) && (MAX_RETRIES env <=? errors) then
      throw (PlainError (retrievalFailedMessage listId (errorMessage error)))
    else
      sleep (backoff errors) ;; ret (Continue, st').

Definition attempted (st : Reader) : Reader :=
  {| allContacts := allContacts st; hasMore := hasMore st; after := after st;
     consecutiveErrors := consecutiveErrors st;
     totalAttempts := totalAttempts st + 1;
     isLegacyList := isLegacyList st; v3Success := v3Success st |}.

(** [while (hasMore && allContacts.length < maxCount) { try ... catch ... }]
    for at most [fuel] iterations. *)
Fixpoint pageLoop (fuel : nat) (listId : string) (maxCount : Limit)
    (st : Reader) : Async Reader :=
  if hasMore st && ltLimit (len (allContacts st)) maxCount then
    match fuel with
    | O => outOfFuel
    | S fuel' =>
        let* (flow, st') :=
          tryCatch (fetchPage listId maxCount (attempted st))
                   (onPageError listId (attempted st)) in
        match flow with
        | Break => ret st'
        | Continue => pageLoop fuel' listId maxCount st'
        end
    end
  else ret st.

(** What follows the loop: the legacy fallbacks and the final [Set]. *)
Definition finishRead (listId : string) (maxCount : Limit) (st : Reader)
  : Async (list Z) :=
  let* all :=
    if v3Success st && (len (allContacts st) =? 0) && negb (isLegacyList st)
    then
      tryCatch
        (let* legacyContacts := getContactsFromLegacyList listId maxCount in
         ret (if 0 <? len legacyContacts then legacyContacts
              else allContacts st))
        (fun _ => ret (allContacts st))
    else if isLegacyList st then getContactsFromLegacyList listId maxCount
    else ret (allContacts st) in
  ret (unique all).

(** The reader resumed in the loop state [st]. *)
Definition readFrom (fuel : nat) (listId : string) (maxCount : Limit)
    (st : Reader) : Async (list Z) :=
  let* st' := pageLoop fuel listId maxCount st in
  finishRead listId maxCount st'.

Definition getContactsFromList (fuel : nat) (listId : string)
    (maxCount : Limit) : Async (list Z) :=
  readFrom fuel listId maxCount initialReader.

(** ** Remote list manager *)

Definition getLegacySegmentId (ilsListId : string) : Async (option string) :=
  tryCatch
    (let* searchResponse := await (PostListSearch ilsListId) in
     ret (classicListId searchResponse))
    (fun _ => ret None).

Definition createHubSpotList (name : string) : Async RemoteList.t :=
  tryCatch
    (let* res := await (PostList name) in
     match bodyListId res with
     | None =>
         throw (PlainError
                  "List created but listId not returned from HubSpot API")
     | Some listId =>
         let* legacyListId := getLegacySegmentId listId in
         ret {| RemoteList.listId := listId;
                RemoteList.legacyListId := legacyListId;
                RemoteList.deleted := bodyDeleted res |}
     end)
    (fun error => throw error).

Definition verifyListIsManual (listId : string) : Async bool :=
  tryCatch
    (let* res := await (GetList listId) in
     ret (bool_decide (processingType res = Some "MANUAL")))
    (fun _ => ret false).

(** ** Membership writer *)

(** [chunk.map(id => String(id))] *)
Definition stringIds (chunk : list Z) : list string := pretty <$> chunk.

(** The delay before the retry that follows the [n]-th failed attempt of a
    chunk. *)
Definition chunkBackoff (n : Z) : Z := Z.min (1000 * 2 ^ (n - 1)) 5000.

(** [while (retries < MAX_RETRIES && !success)] for one chunk, entered with
    [attemptsLeft = MAX_RETRIES - retries] iterations to go; it returns what
    the chunk adds to [successCount]. *)
Fixpoint sendChunk (attemptsLeft : nat) (retries : Z) (listId : string)
    (chunk : list Z) : Async Z :=
  match attemptsLeft with
  | O => ret 0
  | S attemptsLeft' =>
      tryCatch
        (await (PutMembershipsAdd listId (stringIds chunk)) ;;
         sleep 500 ;;
         ret (len chunk))
        (fun _ =>
           let retries := retries + 1 in
           (if retries <? MAX_RETRIES env then sleep (chunkBackoff retries)
            else ret tt) ;;
           sendChunk attemptsLeft' retries listId chunk)
  end.

(** [for (const [index, chunk] of chunks.entries())] *)
Fixpoint sendChunks (listId : string) (chunks : list (list Z))
    (successCount : Z) : Async Z :=
  match chunks with
  | [] => ret successCount
  | chunk :: rest =>
      let* added := sendChunk (Z.to_nat (MAX_RETRIES env)) 0 listId chunk in
      sendChunks listId rest (successCount + added)
  end.

(** [contacts] is [None] for a missing ([undefined] or [null]) argument. *)
Definition addContactsToList (listId : string) (contacts : option (list Z))
    (skipVerification : bool) : Async Z :=
  match contacts with
  | None => ret 0
  | Some contacts =>
      if len contacts =? 0 then ret 0
      else
        let* notManual :=
          if negb skipVerification then
            let* isManual := verifyListIsManual listId in
            ret (negb isManual)
          else ret false in
        if notManual then ret 0
        else sendChunks listId (progressiveChunks contacts) 0
  end.

(** ** Contact property updater *)

Fixpoint updateChunks (chunks : list (list Z)) (epochTime brandValue : string)
  : Async unit :=
  match chunks with
  | [] => ret tt
  | chunk :: rest =>
      tryCatch
        (await (PostContactsBatchUpdate (stringIds chunk) epochTime
                  brandValue) ;;
         ret tt)
        (fun _ => ret tt) ;;
      sleep 300 ;;
      updateChunks rest epochTime brandValue
  end.

Definition updateContactProperties (contactIds : list Z) (dateValue : Z)
    (brandValue : string) : Async unit :=
  let epochMidnight := dateValue - dateValue `mod` 86400000 in
  let epochTime := pretty epochMidnight in
  updateChunks (chunkArray contactIds 100) epochTime brandValue.

(** ** Campaign processor *)

Definition monthNames : list string :=
  ["Jan"; "Feb"; "Mar"; "Apr"; "May"; "Jun";
   "Jul"; "Aug"; "Sep"; "Oct"; "Nov"; "Dec"].

Definition getFormattedDate (dateInput : Z) : string :=
  pretty (getDate env dateInput) +:+ " "
  +:+ default "undefined" (monthNames !! getMonth env dateInput) +:+ " "
  +:+ pretty (getFullYear env dateInput).

(** The local variables of the sourcing [try] block. *)
Record Sourcing := {
  primaryContacts : list Z;
  secondaryContacts : list Z;
  primaryBeforeFilter : Z;
  primaryAfterFilter : Z;
  secondaryBeforeFilter : Z;
  secondaryAfterFilter : Z
}.

Definition noContacts : Sourcing :=
  {| primaryContacts := []; secondaryContacts := [];
     primaryBeforeFilter := 0; primaryAfterFilter := 0;
     secondaryBeforeFilter := 0; secondaryAfterFilter := 0 |}.

(** [contacts.filter(vid => !usedContactsSet.has(vid))] *)
Definition filterUnused (contacts : list Z) : Async (list Z) :=
  fun w => Some (Return (filter (λ vid, vid ∉ usedContacts w) contacts), w).

(** [selectedContacts.forEach(vid => usedContactsSet.add(vid))], and the
    ghost record of the selection. *)
Definition markUsed (selectedContacts : list Z) : Async unit :=
  fun w =>
    Some (Return tt,
          withSelection selectedContacts
            (withUsed (foldl (λ used vid, {[vid]} ∪ used) (usedContacts w)
                         selectedContacts) w)).

(** [await CreatedList.create(doc)]: the document saved and returned holds
    what the schema keeps of [doc]. *)
Definition createDocument (doc : CreatedListFields.t) : Async CreatedList.t :=
  await (CreatedListCreate doc) ;;
  (fun w =>
     Some (Return (keptBySchema doc), withDocument (keptBySchema doc) w)).

(** [count > 0 ? Math.round((selectedLength / count) * 100) : 0] *)
Definition fulfillment (selectedLength count : Z) : Z :=
  if count >? 0 then
    Math_round
      (PrimFloat.mul (PrimFloat.div (toNumber selectedLength) (toNumber count))
                     (toNumber 100))
  else 0.

(** The sourcing [try] block of [processSingleCampaign]; a throw leaves the
    variables as they were assigned up to it. *)
Definition sourceContacts (fuel : nat) (config : CampaignConfig)
  : Async Sourcing :=
  tryCatch
    (let primaryFetchCount := Z.max (count config * 3) 500 in
     let* fetched :=
       getContactsFromList fuel (primaryListId config)
         (Finite primaryFetchCount) in
     let* primary := filterUnused fetched in
     let src :=
       {| primaryContacts := primary; secondaryContacts := [];
          primaryBeforeFilter := len fetched;
          primaryAfterFilter := len primary;
          secondaryBeforeFilter := 0; secondaryAfterFilter := 0 |} in
     match secondaryListId config with
     | Some secondaryId =>
         if len primary <? count config then
           tryCatch
             (let secondaryNeeded := count config - len primary in
              let secondaryFetchCount := Z.max (secondaryNeeded * 3) 500 in
              let* fetched2 :=
                getContactsFromList fuel secondaryId
                  (Finite secondaryFetchCount) in
              let* secondary := filterUnused fetched2 in
              ret {| primaryContacts := primary;
                     secondaryContacts := secondary;
                     primaryBeforeFilter := len fetched;
                     primaryAfterFilter := len primary;
                     secondaryBeforeFilter := len fetched2;
                     secondaryAfterFilter := len secondary |})
             (fun _ => ret src)
         else ret src
     | None => ret src
     end)
    (fun _ => ret noContacts).

(** The membership and property writes for a non-empty selection; it
    returns [actualContactsAdded]. *)
Definition populate (config : CampaignConfig) (newListId : string)
    (selectedContacts : list Z) : Async Z :=
  (match sendContactListId config with
   | Some sendId =>
       addContactsToList sendId (Some selectedContacts) true ;; ret tt
   | None => ret tt
   end) ;;
  let* actualContactsAdded :=
    addContactsToList newListId (Some selectedContacts) true in
  tryCatch
    (updateContactProperties selectedContacts (date config)
       (lastMarketingEmailSentBrand config) ;;
     ret actualContactsAdded)
    (fun _ => ret actualContactsAdded).

Definition processSingleCampaign (fuel : nat) (config : CampaignConfig)
    (daysFilter modeFilter : string) : Async CampaignResult.t :=
  let* src := sourceContacts fuel config in
  let allContacts := primaryContacts src ++ secondaryContacts src in
  let selectedContacts := slice allContacts 0 (count config) in
  markUsed selectedContacts ;;
  let fulfillmentPercentage :=
    fulfillment (len selectedContacts) (count config) in
  let listName :=
    brand config +:+ " - " +:+ campaign config +:+ " - " +:+ domain config
    +:+ " - " +:+ getFormattedDate (date config) in
  let* newList := createHubSpotList listName in
  let* actualContactsAdded :=
    if 0 <? len selectedContacts then
      tryCatch (populate config (RemoteList.listId newList) selectedContacts)
               (fun _ => ret 0)
    else ret 0 in
  let* createdDate := dateNow in
  let availableCount :=
    primaryBeforeFilter src + secondaryBeforeFilter src in
  let filteredCount :=
    (primaryBeforeFilter src - primaryAfterFilter src)
    + (secondaryBeforeFilter src - secondaryAfterFilter src) in
  let* createdList :=
    createDocument
      {| CreatedListFields.name := listName;
         CreatedListFields.listId := RemoteList.listId newList;
         CreatedListFields.legacyListId := RemoteList.legacyListId newList;
         CreatedListFields.createdDate := createdDate;
         CreatedListFields.deleted := RemoteList.deleted newList;
         CreatedListFields.filterCriteria := (daysFilter, modeFilter);
         CreatedListFields.campaignDetails :=
           (brand config, campaign config, date config);
         CreatedListFields.contactCount := actualContactsAdded;
         CreatedListFields.requestedCount := count config;
         CreatedListFields.availableCount := availableCount;
         CreatedListFields.filteredCount := filteredCount;
         CreatedListFields.fulfillmentPercentage :=
           fulfillmentPercentage |} in
  ret {| CampaignResult.success := true;
         CampaignResult.listName := listName;
         CampaignResult.listId := RemoteList.listId newList;
         CampaignResult.legacyListId := RemoteList.legacyListId newList;
         CampaignResult.contactCount := actualContactsAdded;
         CampaignResult.requestedCount := count config;
         CampaignResult.availableCount := availableCount;
         CampaignResult.filteredCount := filteredCount;
         CampaignResult.fulfillmentPercentage := fulfillmentPercentage;
         CampaignResult.createdList := createdList |}.

(** ** Run sequencer *)

(** [Math.max(0, INTER_LIST_DELAY_MS - elapsed)] *)
Definition interDelay (elapsed : Z) : Z :=
  Z.max 0 (INTER_LIST_DELAY_MS env - elapsed).

(** One iteration of the [for] loop of [processCampaignsWithDelay]; it
    returns the entry pushed onto [results]. *)
Definition runCampaign (fuel : nat) (daysFilter modeFilter : string)
    (total index : Z) (config : CampaignConfig) : Async Settled :=
  let* startTime := dateNow in
  tryCatch
    (let* result :=
       processSingleCampaign fuel config daysFilter modeFilter in
     (if index <? total - 1 then
        let* finished := dateNow in
        let elapsed := finished - startTime in
        sleep (interDelay elapsed)
      else ret tt) ;;
     ret (fulfilled result))
    (fun error =>
       let* finished := dateNow in
       let elapsed := finished - startTime in
       let delay := interDelay elapsed in
       (if index <? total - 1 then sleep delay else ret tt) ;;
       ret (rejected error)).

Fixpoint campaignLoop (fuel : nat) (daysFilter modeFilter : string)
    (total index : Z) (configs : list CampaignConfig)
    (results : list Settled) : Async (list Settled) :=
  match configs with
  | [] => ret results
  | config :: rest =>
      let* entry := runCampaign fuel daysFilter modeFilter total index config in
      campaignLoop fuel daysFilter modeFilter total (index + 1) rest
        (results ++ [entry])
  end.

(** [const usedContacts = new Set()] *)
Definition newUsedContacts : Async unit :=
  fun w => Some (Return tt, withUsed ∅ w).

Definition processCampaignsWithDelay (fuel : nat)
    (listConfigs : list CampaignConfig) (daysFilter modeFilter : string)
  : Async (list Settled) :=
  newUsedContacts ;;
  campaignLoop fuel daysFilter modeFilter (len listConfigs) 0 listConfigs [].

End Pipeline.

(** [results.filter(r => r.status === 'fulfilled')] and
    [results.filter(r => r.status === 'rejected')] *)
Definition isFulfilled (r : Settled) : bool :=
  match r with fulfilled _ => true | rejected _ => false end.

Definition successful (results : list Settled) : list Settled :=
  filter (λ r, isFulfilled r = true) results.

Definition failed (results : list Settled) : list Settled :=
  filter (λ r, isFulfilled r = false) results.

(** ** Specification vocabulary *)

(** A function [Frames R] when every terminating call relates the world
    before to the world after by [R]. *)
Definition Frames (R : relation World) {A} (m : Async A) : Prop :=
  forall w o w', m w = Some (o, w') -> R w w'.

(** A function [Yields Q] when every value it returns satisfies [Q]. *)
Definition Yields {A} (Q : A -> Prop) (m : Async A) : Prop :=
  forall w a w', m w = Some (Return a, w') -> Q a.

(** A function that never throws. *)
Definition NoThrow {A} (m : Async A) : Prop :=
  forall w e w', m w <> Some (Throw e, w').

(** The relations framed below. *)
Definition later (w w' : World) : Prop := clock w <= clock w'.

Definition keepsUsed (w w' : World) : Prop :=
  usedContacts w' = usedContacts w /\ selections w' = selections w.

Definition quiet (w w' : World) : Prop :=
  usedContacts w' = usedContacts w /\ selections w' = selections w
  /\ store w' = store w /\ clock w <= clock w'.

(** The contacts of [contacts] that the run has not used yet. *)
Definition unused (w : World) (contacts : list Z) : list Z :=
  filter (λ vid, vid ∉ usedContacts w) contacts.

(** [primaryFetchCount] and [secondaryFetchCount] *)
Definition fetchCount (needed : Z) : Limit := Finite (Z.max (needed * 3) 500).

(** [Fetched env fuel config w P S w'] : started in world [w], the sourcing
    block of [processSingleCampaign] ends in world [w'] having read [P] from
    the primary list and [S] from the secondary list; a list that is not
    read, or whose read throws, contributes no contact. *)
Inductive Fetched (env : Env) (fuel : nat) (config : CampaignConfig)
    (w : World) : list Z -> list Z -> World -> Prop :=
| fetched_none e w1 :
    getContactsFromList env fuel (primaryListId config)
      (fetchCount (count config)) w = Some (Throw e, w1) ->
    Fetched env fuel config w [] [] w1
| fetched_primary P w1 :
    getContactsFromList env fuel (primaryListId config)
      (fetchCount (count config)) w = Some (Return P, w1) ->
    secondaryListId config = None \/ count config <= len (unused w P) ->
    Fetched env fuel config w P [] w1
| fetched_secondary_failed P w1 secondaryId e w2 :
    getContactsFromList env fuel (primaryListId config)
      (fetchCount (count config)) w = Some (Return P, w1) ->
    secondaryListId config = Some secondaryId ->
    len (unused w P) < count config ->
    getContactsFromList env fuel secondaryId
      (fetchCount (count config - len (unused w P))) w1 = Some (Throw e, w2) ->
    Fetched env fuel config w P [] w2
| fetched_both P w1 secondaryId S w2 :
    getContactsFromList env fuel (primaryListId config)
      (fetchCount (count config)) w = Some (Return P, w1) ->
    secondaryListId config = Some secondaryId ->
    len (unused w P) < count config ->
    getContactsFromList env fuel secondaryId
      (fetchCount (count config - len (unused w P))) w1 = Some (Return S, w2) ->
    Fetched env fuel config w P S w2.

(** The number of membership-add calls in an event log. *)
Definition isAdd (ev : Event) : bool :=
  match ev with PutMembershipsAdd _ _ => true | _ => false end.

Definition addCalls (evs : list Event) : nat :=
  length (filter (λ ev, isAdd ev = true) evs).

(** The batch sizes of the membership-add calls in an event log. *)
Definition batchSizes (evs : list Event) : list nat :=
  omap (λ ev, match ev with
              | PutMembershipsAdd _ ids => Some (length ids)
              | _ => None
              end) evs.


(** What [Promise.allSettled]-style entry an outcome becomes. *)
Definition settle (o : Outcome CampaignResult.t) : Settled :=
  match o with
  | Return result => fulfilled result
  | Throw error => rejected error
  end.

(** [Campaigns env fuel daysFilter modeFilter total index configs w
    outcomes w']: the campaigns of [configs], which have the numbers [index],
    [index + 1], ... in a run of [total] campaigns, are processed one after
    the other from world [w]; they end with [outcomes], whether they return
    or throw, and leave world [w'].  After every campaign but the last of
    the run comes the inter-campaign delay. *)
Inductive Campaigns (env : Env) (fuel : nat) (daysFilter modeFilter : string)
    (total : Z)
  : Z -> list CampaignConfig -> World -> list (Outcome CampaignResult.t)
    -> World -> Prop :=
| campaigns_done index w :
    Campaigns env fuel daysFilter modeFilter total index [] w [] w
| campaigns_next index config rest w o w1 outcomes w' :
    processSingleCampaign env fuel config daysFilter modeFilter w
    = Some (o, w1) ->
    Campaigns env fuel daysFilter modeFilter total (index + 1) rest
      (if index <? total - 1
       then afterTimer env
              (Z.max 0 (INTER_LIST_DELAY_MS env - (clock w1 - clock w))) w1
       else w1)
      outcomes w' ->
    Campaigns env fuel daysFilter modeFilter total index (config :: rest) w
      (o :: outcomes) w'.

(** ** Scripted environments

    Environments in which the n-th external call is answered by the n-th
    entry of a script, and by a network error once the script is over. *)

Definition emptyBody : Body :=
  {| results := []; nextAfter := None; bodyListId := None;
     bodyDeleted := None; processingType := None; classicListId := None |}.

Definition pageOf (ids : list Z) (next : option string) : Reply :=
  Resolved {| results := ids; nextAfter := next; bodyListId := None;
              bodyDeleted := None; processingType := None;
              classicListId := None |}.

Definition listCreated (id : string) : Reply :=
  Resolved {| results := []; nextAfter := None; bodyListId := Some id;
              bodyDeleted := None; processingType := Some "MANUAL";
              classicListId := None |}.

Definition dynamicList (id : string) : Reply :=
  Resolved {| results := []; nextAfter := None; bodyListId := Some id;
              bodyDeleted := None; processingType := Some "DYNAMIC";
              classicListId := None |}.

Definition accepted : Reply := Resolved emptyBody.

Definition serverError : Reply :=
  Rejected (Some 500) "Request failed with status code 500".

Definition notFound : Reply :=
  Rejected (Some 404) "Request failed with status code 404".

Definition scripted (script : list Reply) (n : nat) : Reply :=
  default (Rejected None "Network Error") (script !! n).

Definition scriptedEnv (script : list Reply) (delay : Z) : Env :=
  {| RETRIEVAL_BATCH_SIZE := 1000; MAX_RETRIES := 3;
     INTER_LIST_DELAY_MS := delay;
     reply := scripted script;
     latency := λ _, 10%N; overshoot := λ _, 0%N;
     getDate := λ _, 3; getMonth := λ _, 10%nat; getFullYear := λ _, 2026 |}.

Definition freshWorld : World :=
  {| calls := 0; timers := 0; clock := 0; events := [];
     usedContacts := ∅; selections := []; store := [] |}.

Definition campaignOf (requested : Z) (secondary : option string)
  : CampaignConfig :=
  {| brand := "Acme"; campaign := "Autumn"; primaryListId := "11";
     secondaryListId := secondary; count := requested;
     domain := "acme.example"; date := 1762128000123;
     sendContactListId := None; lastMarketingEmailSentBrand := "Acme" |}.

(** A function of the fuel is [FuelMonotone] when a call that ends with
    some fuel ends the same way with any larger fuel. *)
Definition FuelMonotone {A} (f : nat -> Async A) : Prop :=
  forall fuel fuel' w r,
    (fuel <= fuel')%nat -> f fuel w = Some r -> f fuel' w = Some r.

(** ** More specification vocabulary *)

(** Every event that [w'] has more than [w] satisfies [P]. *)
Definition emits (P : Event -> Prop) (w w' : World) : Prop :=
  exists evs, events w' = events w ++ evs /\ Forall P evs.

(** A page request for list [listId], or a timer. *)
Definition readsOnly (listId : string) (ev : Event) : Prop :=
  match ev with
  | GetMemberships l _ _ => l = listId
  | SetTimeout _ => True
  | _ => False
  end.

(** [countToFetch] when [collected] contacts have been collected. *)
Definition limitAt (env : Env) (maxCount : Limit) (collected : Z) : Z :=
  match maxCount with
  | Finite m => Z.min (RETRIEVAL_BATCH_SIZE env) (m - collected)
  | Infinity => RETRIEVAL_BATCH_SIZE env
  end.

(** The events of a read in which every page of [pages] resolves with its
    record ids and a cursor to the next page, and a last page resolves
    without a cursor: each request carries the cursor of the page before it,
    and a 200 ms timer follows every page but the last. *)
Fixpoint pageTrace (env : Env) (listId : string) (maxCount : Limit)
    (collected : list Z) (cursor : option string)
    (pages : list (list Z * string)) : list Event :=
  match pages with
  | [] => [GetMemberships listId (limitAt env maxCount (len collected)) cursor]
  | (ids, next) :: rest =>
      GetMemberships listId (limitAt env maxCount (len collected)) cursor
      :: SetTimeout 200
      :: pageTrace env listId maxCount (collected ++ ids) (Some next) rest
  end.

(** The events of [j] rejected attempts to send a chunk, the first one
    being attempt number [retries + 1]: attempt number [n] is followed by a
    delay of [min(1000 * 2^(n - 1), 5000)] ms. *)
Fixpoint putRetryTrace (request : Event) (retries : Z) (j : nat)
  : list Event :=
  match j with
  | O => []
  | S j' =>
      request :: SetTimeout (Z.min (1000 * 2 ^ (retries + 1 - 1)) 5000)
      :: putRetryTrace request (retries + 1) j'
  end.

(** The events of sending [chunks] when every call is accepted. *)
Definition acceptedTrace (listId : string) (chunks : list (list Z))
  : list Event :=
  flat_map (λ chunk,
              [PutMembershipsAdd listId (stringIds chunk); SetTimeout 500])
           chunks.

(** The start of the UTC day of an instant, in milliseconds:
    [setUTCHours(0, 0, 0, 0)]. *)
Definition startOfUtcDay (t : Z) : Z := t - t `mod` 86400000.

(** The events of [updateContactProperties] on [chunks]. *)
Definition updateTrace (chunks : list (list Z)) (epochTime brand : string)
  : list Event :=
  flat_map (λ chunk,
              [PostContactsBatchUpdate (stringIds chunk) epochTime brand;
               SetTimeout 300])
           chunks.

(** ** Vocabulary for a campaign *)

(** [listName] in [processSingleCampaign]. *)
Definition listNameOf (env : Env) (config : CampaignConfig) : string :=
  brand config +:+ " - " +:+ campaign config +:+ " - " +:+ domain config
  +:+ " - " +:+ getFormattedDate env (date config).

(** The document that [processSingleCampaign] passes to
    [CreatedList.create]. *)
Definition documentOf (env : Env) (config : CampaignConfig)
    (daysFilter modeFilter : string) (src : Sourcing)
    (newList : RemoteList.t) (actualContactsAdded createdDate : Z)
  : CreatedListFields.t :=
  let selectedContacts :=
    slice (primaryContacts src ++ secondaryContacts src) 0 (count config) in
  {| CreatedListFields.name := listNameOf env config;
     CreatedListFields.listId := RemoteList.listId newList;
     CreatedListFields.legacyListId := RemoteList.legacyListId newList;
     CreatedListFields.createdDate := createdDate;
     CreatedListFields.deleted := RemoteList.deleted newList;
     CreatedListFields.filterCriteria := (daysFilter, modeFilter);
     CreatedListFields.campaignDetails :=
       (brand config, campaign config, date config);
     CreatedListFields.contactCount := actualContactsAdded;
     CreatedListFields.requestedCount := count config;
     CreatedListFields.availableCount :=
       primaryBeforeFilter src + secondaryBeforeFilter src;
     CreatedListFields.filteredCount :=
       (primaryBeforeFilter src - primaryAfterFilter src)
       + (secondaryBeforeFilter src - secondaryAfterFilter src);
     CreatedListFields.fulfillmentPercentage :=
       fulfillment (len selectedContacts) (count config) |}.

(** The object that [processSingleCampaign] returns. *)
Definition resultOf (env : Env) (config : CampaignConfig) (src : Sourcing)
    (newList : RemoteList.t) (actualContactsAdded : Z)
    (createdList : CreatedList.t) : CampaignResult.t :=
  let selectedContacts :=
    slice (primaryContacts src ++ secondaryContacts src) 0 (count config) in
  {| CampaignResult.success := true;
     CampaignResult.listName := listNameOf env config;
     CampaignResult.listId := RemoteList.listId newList;
     CampaignResult.legacyListId := RemoteList.legacyListId newList;
     CampaignResult.contactCount := actualContactsAdded;
     CampaignResult.requestedCount := count config;
     CampaignResult.availableCount :=
       primaryBeforeFilter src + secondaryBeforeFilter src;
     CampaignResult.filteredCount :=
       (primaryBeforeFilter src - primaryAfterFilter src)
       + (secondaryBeforeFilter src - secondaryAfterFilter src);
     CampaignResult.fulfillmentPercentage :=
       fulfillment (len selectedContacts) (count config);
     CampaignResult.createdList := createdList |}.

(** A page request for one of the two source lists of [config], or a
    timer. *)
Definition sourcing (config : CampaignConfig) (ev : Event) : Prop :=
  match ev with
  | GetMemberships l _ _ =>
      l = primaryListId config \/ secondaryListId config = Some l
  | SetTimeout _ => True
  | _ => False
  end.

(** A write of a campaign that selected [sel] and created list [newId]: a
    membership call that adds some of [sel] to the new list or to the send
    list of [config], a property update of some of [sel] that carries the
    campaign's brand and the start of the UTC day of its date, or a
    timer. *)
Definition populating (config : CampaignConfig) (newId : string)
    (sel : list Z) (ev : Event) : Prop :=
  match ev with
  | PutMembershipsAdd l ids =>
      (l = newId \/ sendContactListId config = Some l)
      /\ ids <> [] /\ ids ⊆ stringIds sel
  | PostContactsBatchUpdate ids epochTime brandValue =>
      ids <> [] /\ ids ⊆ stringIds sel
      /\ epochTime = pretty (startOfUtcDay (date config))
      /\ brandValue = lastMarketingEmailSentBrand config
  | SetTimeout _ => True
  | _ => False
  end.

(** ** The report of a run *)

(** [r.value] for the fulfilled entries of [results], in their order. *)
Definition values (results : list Settled) : list CampaignResult.t :=
  omap (λ r, match r with
             | fulfilled value => Some value
             | rejected _ => None
             end) results.

(** [listConfigs.reduce((sum, c) => sum + c.count, 0)] *)
Definition totalRequested (listConfigs : list CampaignConfig) : Z :=
  foldl (λ sum c, sum + count c) 0 listConfigs.

(** [successful.reduce((sum, r) => sum + r.value.contactCount, 0)] *)
Definition totalFulfilled (results : list Settled) : Z :=
  foldl (λ sum value, sum + CampaignResult.contactCount value) 0
    (values results).

(** What the entry of [results] for [config] says when it is fulfilled. *)
Definition entryFor (env : Env) (config : CampaignConfig) (entry : Settled)
  : Prop :=
  match entry with
  | fulfilled r =>
      CampaignResult.requestedCount r = count config
      /\ CampaignResult.listName r = listNameOf env config
      /\ 0 <= CampaignResult.contactCount r
      /\ (0 <= count config -> CampaignResult.contactCount r <= count config)
  | rejected _ => True
  end.

(** ** Date display *)

(** What the getters of [new Date(date)] return in [formatDateForDisplay]:
    [getDate()], [toLocaleString('en-US', { month: 'short' })],
    [getFullYear()], [getHours()] and [getMinutes()]. *)
Record LocalFields := {
  fieldDay : Z;
  fieldMonthShort : string;
  fieldYear : Z;
  fieldHours : Z;
  fieldMinutes : Z
}.

(** [s.padStart(2, '0')] *)
Definition padStart2 (s : string) : string :=
  String.concat "" (replicate (2 - String.length s) "0") +:+ s.

(** [hours >= 12 ? 'PM' : 'AM'] *)
Definition meridiem (hours : Z) : string :=
  if 12 <=? hours then "PM" else "AM".

(** [hours % 12 || 12] *)
Definition displayHours (hours : Z) : Z :=
  if Z.rem hours 12 =? 0 then 12 else Z.rem hours 12.

(** [d.getMinutes().toString().padStart(2, '0')] *)
Definition displayMinutes (minutes : Z) : string :=
  padStart2 (pretty minutes).

Definition formatDateForDisplay (d : LocalFields) : string :=
  let day := fieldDay d in
  let month := fieldMonthShort d in
  let year := fieldYear d in
  let hours := fieldHours d in
  let minutes := displayMinutes (fieldMinutes d) in
  let ampm := meridiem hours in
  let hours := displayHours hours in
  pretty day +:+ " " +:+ month +:+ " " +:+ pretty year +:+ " "
  +:+ pretty hours +:+ ":" +:+ minutes +:+ ampm.

(** The hour of the day that a 12-hour reading stands for. *)
Definition hourOfDay (shown : Z) (ampm : string) : Z :=
  shown `mod` 12 + (if String.eqb ampm "PM" then 12 else 0).

(** ** Reasoning about asynchronous code *)

Lemma bind_inv {A B} (m : Async A) (k : A -> Async B) w o w' :
  bind m k w = Some (o, w') ->
  (exists a w1, m w = Some (Return a, w1) /\ k a w1 = Some (o, w'))
  \/ (exists e, m w = Some (Throw e, w') /\ o = Throw e).
Proof.
  unfold bind. destruct (m w) as [[[a|e] w1]|]; intros H.
  - left. eauto.
  - right. inversion H; subst. eauto.
  - discriminate.
Qed.

Lemma tryCatch_inv {A} (body : Async A) handler w o w' :
  tryCatch body handler w = Some (o, w') ->
  (exists a, body w = Some (Return a, w') /\ o = Return a)
  \/ (exists e w1, body w = Some (Throw e, w1) /\ handler e w1 = Some (o, w')).
Proof.
  unfold tryCatch. destruct (body w) as [[[a|e] w1]|]; intros H.
  - left. inversion H; subst. eauto.
  - right. eauto.
  - discriminate.
Qed.

Lemma bind_return {A B} (m : Async A) (k : A -> Async B) w a w1 :
  m w = Some (Return a, w1) -> bind m k w = k a w1.
Proof. unfold bind. by intros ->. Qed.

Lemma bind_throw {A B} (m : Async A) (k : A -> Async B) w e w1 :
  m w = Some (Throw e, w1) -> bind m k w = Some (Throw e, w1).
Proof. unfold bind. by intros ->. Qed.

Lemma tryCatch_return {A} (body : Async A) handler w a w1 :
  body w = Some (Return a, w1) -> tryCatch body handler w = Some (Return a, w1).
Proof. unfold tryCatch. by intros ->. Qed.

Lemma tryCatch_throw {A} (body : Async A) handler w e w1 :
  body w = Some (Throw e, w1) -> tryCatch body handler w = handler e w1.
Proof. unfold tryCatch. by intros ->. Qed.

Section FrameRules.

Context (R : relation World) `{!PreOrder R}.

Lemma frames_ret {A} (a : A) : Frames R (ret a).
Proof. intros w o w' H. inversion H; subst. reflexivity. Qed.

Lemma frames_throw {A} e : Frames R (@throw A e).
Proof. intros w o w' H. inversion H; subst. reflexivity. Qed.

Lemma frames_outOfFuel {A} : Frames R (@outOfFuel A).
Proof. intros w o w' H. discriminate. Qed.

Lemma frames_bind {A B} (m : Async A) (k : A -> Async B) :
  Frames R m -> (forall a, Frames R (k a)) -> Frames R (bind m k).
Proof.
  intros Hm Hk w o w' H.
  destruct (bind_inv _ _ _ _ _ H) as [(a & w1 & H1 & H2)|(e & H1 & _)].
  - etrans; [eapply Hm, H1 | eapply Hk, H2].
  - eapply Hm, H1.
Qed.

Lemma frames_tryCatch {A} (body : Async A) handler :
  Frames R body -> (forall e, Frames R (handler e)) ->
  Frames R (tryCatch body handler).
Proof.
  intros Hb Hh w o w' H.
  destruct (tryCatch_inv _ _ _ _ _ H) as [(a & H1 & _)|(e & w1 & H1 & H2)].
  - eapply Hb, H1.
  - etrans; [eapply Hb, H1 | eapply Hh, H2].
Qed.

End FrameRules.

#[local] Instance later_preorder : PreOrder later.
Proof. split; unfold later; [intros w | intros a b c]; lia. Qed.

#[local] Instance keepsUsed_preorder : PreOrder keepsUsed.
Proof.
  split; unfold keepsUsed; [intros w | intros a b c]; [done|].
  intros [-> ->] [-> ->]. done.
Qed.

#[local] Instance quiet_preorder : PreOrder quiet.
Proof.
  split; unfold quiet; [intros w | intros a b c]; [repeat split; lia|].
  intros (-> & -> & -> & ?) (-> & -> & -> & ?). repeat split; lia.
Qed.

Lemma quiet_later w w' : quiet w w' -> later w w'.
Proof. unfold quiet, later. tauto. Qed.

Lemma quiet_keepsUsed w w' : quiet w w' -> keepsUsed w w'.
Proof. unfold quiet, keepsUsed. tauto. Qed.

Lemma frames_weaken (R R' : relation World) {A} (m : Async A) :
  (forall w w', R w w' -> R' w w') -> Frames R m -> Frames R' m.
Proof. intros HR Hm w o w' H. eapply HR, Hm, H. Qed.

Lemma quiet_await env ev : Frames quiet (await env ev).
Proof.
  intros w o w'. unfold await.
  destruct (reply env (calls w)); intros H; inversion H; subst;
    unfold quiet; simpl; repeat split; lia.
Qed.

Lemma quiet_sleep env ms : Frames quiet (sleep env ms).
Proof.
  intros w o w' H. inversion H; subst. unfold quiet; simpl.
  repeat split; lia.
Qed.

Lemma quiet_dateNow : Frames quiet dateNow.
Proof. intros w o w' H. inversion H; subst. reflexivity. Qed.

Create HintDb frames.

#[local] Hint Resolve frames_ret frames_throw frames_outOfFuel quiet_await
  quiet_sleep quiet_dateNow : frames.

(** Decompose a frame goal along the structure of the code. *)
Ltac frames_step :=
  match goal with
  | |- Frames _ (bind _ _) => apply frames_bind; [typeclasses eauto | | intros ?]
  | |- Frames _ (tryCatch _ _) =>
      apply frames_tryCatch; [typeclasses eauto | | intros ?]
  | |- Frames _ (match ?x with _ => _ end) => destruct x
  | |- Frames _ (let _ := _ in _) => cbv zeta
  | |- Frames _ _ => solve [eauto with frames typeclass_instances]
  end.

Ltac frames := repeat frames_step.

Lemma quiet_getContactsFromLegacyList listId maxCount :
  Frames quiet (getContactsFromLegacyList listId maxCount).
Proof. unfold getContactsFromLegacyList. frames. Qed.

Lemma quiet_fetchPage env listId maxCount st :
  Frames quiet (fetchPage env listId maxCount st).
Proof. unfold fetchPage. frames. Qed.

Lemma quiet_onPageError env listId st error :
  Frames quiet (onPageError env listId st error).
Proof. unfold onPageError. frames. Qed.

#[local] Hint Resolve quiet_getContactsFromLegacyList quiet_fetchPage
  quiet_onPageError : frames.

Lemma quiet_pageLoop env fuel listId maxCount st :
  Frames quiet (pageLoop env fuel listId maxCount st).
Proof.
  revert st. induction fuel as [|fuel IH]; intros st; simpl; frames.
Qed.

#[local] Hint Resolve quiet_pageLoop : frames.

Lemma quiet_getContactsFromList env fuel listId maxCount :
  Frames quiet (getContactsFromList env fuel listId maxCount).
Proof. unfold getContactsFromList, readFrom, finishRead. frames. Qed.

(** ** The chunking functions *)

Lemma slice_nat {A} (arr : list A) (i n : nat) :
  slice arr (Z.of_nat i) (Z.of_nat (i + n)) = take n (drop i arr).
Proof.
  unfold slice, relativeIndex.
  destruct (Z.ltb_spec (Z.of_nat i) 0); [lia|].
  destruct (Z.ltb_spec (Z.of_nat (i + n)) 0); [lia|].
  destruct (decide (i ≤ length arr)%nat).
  - rewrite (Z.min_l (Z.of_nat i)) by lia. rewrite Nat2Z.id.
    destruct (decide (i + n ≤ length arr)%nat).
    + rewrite Z.min_l by lia. f_equal. lia.
    + rewrite Z.min_r by lia.
      rewrite (take_ge _ n) by (rewrite length_drop; lia).
      apply take_ge. rewrite length_drop. lia.
  - rewrite !Z.min_r by lia. rewrite Z.sub_diag. simpl.
    rewrite !drop_ge by lia. by rewrite !take_nil.
Qed.

Lemma chunkWhile_spec {A} (arr : list A) (size index : nat) result :
  concat result = take index arr ->
  concat (chunkWhile arr size index result).1
    = take (chunkWhile arr size index result).2 arr
  /\ (index <= (chunkWhile arr size index result).2)%nat
  /\ (0 < size -> length arr <= (chunkWhile arr size index result).2)%nat.
Proof.
  funelim (chunkWhile arr size index result); intros Hres.
  - simpl. split; [done|]. split; lia.
  - simpl. split; [done|]. split; [lia|]. intros Hs.
    clear Heqcall H. rewrite slice_nat in e. destruct size; [lia|].
    destruct (drop index arr) eqn:Hd; [|discriminate].
    apply (f_equal length) in Hd. rewrite length_drop in Hd. simpl in Hd. lia.
  - clear Heqcall H0. destruct H as (H1 & H2 & H3).
    { rewrite concat_app, Hres. simpl. rewrite app_nil_r, <- Hc, slice_nat.
      apply take_take_drop. }
    split; [done|]. split; [lia|done].
Qed.

Lemma progressiveChunksOf_spec {A} (arr : list A) (sizes : list nat) :
  exists n, concat (progressiveChunksOf arr sizes) = take n arr.
Proof.
  unfold progressiveChunksOf.
  assert (forall st, concat st.1 = take st.2 arr ->
    exists n, concat (foldl (fun '(result, index) size =>
       chunkWhile arr size index result) st sizes).1 = take n arr) as Hgen.
  { induction sizes as [|size sizes IH]; intros [result index] Hst; simpl.
    - eauto.
    - apply IH. apply chunkWhile_spec, Hst. }
  apply (Hgen ([], 0%nat)). done.
Qed.

Lemma progressiveChunks_concat {A} (arr : list A) :
  concat (progressiveChunks arr) = arr.
Proof.
  unfold progressiveChunks, progressiveChunksOf, defaultSizes. simpl.
  pose proof (chunkWhile_spec arr 300 0 [] eq_refl) as (H1 & _ & H3).
  destruct (chunkWhile arr 300 0 []) as [r1 i1] eqn:E1. simpl in *.
  pose proof (chunkWhile_spec arr 100 i1 r1 H1) as (H4 & H5 & _).
  destruct (chunkWhile arr 100 i1 r1) as [r2 i2] eqn:E2. simpl in *.
  pose proof (chunkWhile_spec arr 50 i2 r2 H4) as (H6 & H7 & _).
  destruct (chunkWhile arr 50 i2 r2) as [r3 i3] eqn:E3. simpl in *.
  pose proof (chunkWhile_spec arr 1 i3 r3 H6) as (H8 & H9 & _).
  destruct (chunkWhile arr 1 i3 r3) as [r4 i4] eqn:E4. simpl in *.
  rewrite H8. apply take_ge. specialize (H3 ltac:(lia)). lia.
Qed.

Lemma chunkWhile_done {A} (arr : list A) (size index : nat) result :
  (length arr <= index)%nat ->
  chunkWhile arr size index result = (result, index).
Proof.
  funelim (chunkWhile arr size index result); intros Hle; try done;
    exfalso; lia.
Qed.

Lemma chunkWhile_uniform {A} (arr : list A) (size index : nat) result :
  index = (size * length result)%nat ->
  (forall i c, result !! i = Some c -> c = take size (drop (size * i) arr)) ->
  forall i c, (chunkWhile arr size index result).1 !! i = Some c ->
    c = take size (drop (size * i) arr).
Proof.
  funelim (chunkWhile arr size index result); intros Hidx Hres; try done.
  clear Heqcall H0. apply H.
  - rewrite length_app. simpl. lia.
  - intros i c Hi. apply lookup_app_Some in Hi as [Hi|[Hge Hi]]; [by apply Hres|].
    apply list_lookup_singleton_Some in Hi as [Hi <-].
    assert (i = length result) as -> by lia.
    by rewrite <- Hc, slice_nat, Hidx.
Qed.

Lemma progressiveChunks_uniform {A} (arr : list A) i c :
  progressiveChunks arr !! i = Some c ->
  c = take 300 (drop (300 * i) arr).
Proof.
  unfold progressiveChunks, progressiveChunksOf, defaultSizes. simpl.
  pose proof (chunkWhile_spec arr 300 0 [] eq_refl) as (_ & _ & H3).
  pose proof (chunkWhile_uniform arr 300 0 [] eq_refl) as Hu.
  destruct (chunkWhile arr 300 0 []) as [r1 i1] eqn:E1. simpl in *.
  specialize (H3 ltac:(lia)).
  rewrite !chunkWhile_done by lia. simpl. 
  apply Hu. intros ? ? Hn. by rewrite lookup_nil in Hn.
Qed.

(** ** Frames of the remaining functions *)

Lemma quiet_getLegacySegmentId env ilsListId :
  Frames quiet (getLegacySegmentId env ilsListId).
Proof. unfold getLegacySegmentId. frames. Qed.

#[local] Hint Resolve quiet_getContactsFromList quiet_getLegacySegmentId
  : frames.

Lemma quiet_createHubSpotList env name :
  Frames quiet (createHubSpotList env name).
Proof. unfold createHubSpotList. frames. Qed.

Lemma quiet_verifyListIsManual env listId :
  Frames quiet (verifyListIsManual env listId).
Proof. unfold verifyListIsManual. frames. Qed.

Lemma quiet_sendChunk env attemptsLeft retries listId chunk :
  Frames quiet (sendChunk env attemptsLeft retries listId chunk).
Proof.
  revert retries. induction attemptsLeft as [|n IH]; intros retries; simpl;
    frames.
Qed.

#[local] Hint Resolve quiet_createHubSpotList quiet_verifyListIsManual
  quiet_sendChunk : frames.

Lemma quiet_sendChunks env listId chunks successCount :
  Frames quiet (sendChunks env listId chunks successCount).
Proof.
  revert successCount. induction chunks as [|chunk rest IH];
    intros successCount; simpl; frames.
Qed.

#[local] Hint Resolve quiet_sendChunks : frames.

Lemma quiet_addContactsToList env listId contacts skipVerification :
  Frames quiet (addContactsToList env listId contacts skipVerification).
Proof. unfold addContactsToList. frames. Qed.

Lemma quiet_updateChunks env chunks epochTime brandValue :
  Frames quiet (updateChunks env chunks epochTime brandValue).
Proof. induction chunks as [|chunk rest IH]; simpl; frames. Qed.

#[local] Hint Resolve quiet_addContactsToList quiet_updateChunks : frames.

Lemma quiet_updateContactProperties env contactIds dateValue brandValue :
  Frames quiet (updateContactProperties env contactIds dateValue brandValue).
Proof. unfold updateContactProperties. frames. Qed.

Lemma quiet_filterUnused contacts : Frames quiet (filterUnused contacts).
Proof. intros w o w' H. inversion H; subst. reflexivity. Qed.

#[local] Hint Resolve quiet_updateContactProperties quiet_filterUnused
  : frames.

Lemma quiet_sourceContacts env fuel config :
  Frames quiet (sourceContacts env fuel config).
Proof. unfold sourceContacts. frames. Qed.

Lemma quiet_populate env config newListId selectedContacts :
  Frames quiet (populate env config newListId selectedContacts).
Proof. unfold populate. frames. Qed.

#[local] Hint Resolve quiet_sourceContacts quiet_populate : frames.

(** ** Values returned and exceptions not thrown *)

Lemma yields_ret {A} (Q : A -> Prop) a : Q a -> Yields Q (ret a).
Proof. intros HQ w a' w' H. by inversion H; subst. Qed.

Lemma yields_bind {A B} (P : A -> Prop) (Q : B -> Prop) (m : Async A) k :
  Yields P m -> (forall a, P a -> Yields Q (k a)) -> Yields Q (bind m k).
Proof.
  intros Hm Hk w b w' H.
  destruct (bind_inv _ _ _ _ _ H) as [(a & w1 & H1 & H2)|(e & _ & ?)];
    [|done].
  eapply Hk; [eapply Hm, H1 | exact H2].
Qed.

Lemma yields_tryCatch {A} (Q : A -> Prop) (body : Async A) handler :
  Yields Q body -> (forall e, Yields Q (handler e)) ->
  Yields Q (tryCatch body handler).
Proof.
  intros Hb Hh w a w' H.
  destruct (tryCatch_inv _ _ _ _ _ H) as [(a' & H1 & Ha)|(e & w1 & H1 & H2)].
  - inversion Ha; subst. eapply Hb, H1.
  - eapply Hh, H2.
Qed.

Lemma yields_true {A} (m : Async A) : Yields (λ _, True) m.
Proof. by intros w a w' _. Qed.

Lemma nothrow_ret {A} (a : A) : NoThrow (ret a).
Proof. intros w e w' H. inversion H. Qed.

Lemma nothrow_bind {A B} (m : Async A) (k : A -> Async B) :
  NoThrow m -> (forall a, NoThrow (k a)) -> NoThrow (bind m k).
Proof.
  intros Hm Hk w e w' H.
  destruct (bind_inv _ _ _ _ _ H) as [(a & w1 & H1 & H2)|(e' & H1 & _)].
  - by eapply Hk.
  - by eapply Hm.
Qed.

Lemma nothrow_tryCatch {A} (body : Async A) handler :
  (forall e, NoThrow (handler e)) -> NoThrow (tryCatch body handler).
Proof.
  intros Hh w e w' H.
  destruct (tryCatch_inv _ _ _ _ _ H) as [(a' & H1 & Ha)|(e' & w1 & H1 & H2)].
  - discriminate.
  - by eapply Hh.
Qed.

Lemma nothrow_sleep env ms : NoThrow (sleep env ms).
Proof. intros w e w' H. inversion H. Qed.

Lemma nothrow_dateNow : NoThrow dateNow.
Proof. intros w e w' H. inversion H. Qed.

Create HintDb nothrow.

#[local] Hint Resolve nothrow_ret nothrow_sleep nothrow_dateNow : nothrow.

Ltac nothrow_step :=
  match goal with
  | |- NoThrow (tryCatch _ _) => apply nothrow_tryCatch; intros ?
  | |- NoThrow (bind _ _) => apply nothrow_bind; [| intros ?]
  | |- NoThrow (match ?x with _ => _ end) => destruct x
  | |- NoThrow _ => solve [eauto with nothrow]
  end.

Ltac nothrow := repeat nothrow_step.

Lemma nothrow_sendChunk env attemptsLeft retries listId chunk :
  NoThrow (sendChunk env attemptsLeft retries listId chunk).
Proof.
  revert retries. induction attemptsLeft as [|n IH]; intros retries; simpl;
    nothrow.
Qed.

#[local] Hint Resolve nothrow_sendChunk : nothrow.

Lemma nothrow_sendChunks env listId chunks successCount :
  NoThrow (sendChunks env listId chunks successCount).
Proof.
  revert successCount. induction chunks as [|chunk rest IH];
    intros successCount; simpl; nothrow.
Qed.

Lemma nothrow_verifyListIsManual env listId :
  NoThrow (verifyListIsManual env listId).
Proof. unfold verifyListIsManual. nothrow. Qed.

#[local] Hint Resolve nothrow_sendChunks nothrow_verifyListIsManual : nothrow.

Lemma nothrow_addContactsToList env listId contacts skipVerification :
  NoThrow (addContactsToList env listId contacts skipVerification).
Proof. unfold addContactsToList. nothrow. Qed.

Lemma nothrow_sourceContacts env fuel config :
  NoThrow (sourceContacts env fuel config).
Proof. unfold sourceContacts. nothrow. Qed.

Lemma yields_sendChunk env attemptsLeft retries listId chunk :
  Yields (λ added, 0 <= added <= len chunk)
    (sendChunk env attemptsLeft retries listId chunk).
Proof.
  revert retries. induction attemptsLeft as [|n IH]; intros retries; simpl.
  - apply yields_ret. unfold len. lia.
  - apply yields_tryCatch.
    + eapply yields_bind; [apply yields_true|]. intros _ _.
      eapply yields_bind; [apply yields_true|]. intros _ _.
      apply yields_ret. unfold len. lia.
    + intros _. eapply yields_bind; [apply yields_true|]. intros _ _.
      apply IH.
Qed.

Lemma yields_sendChunks env listId chunks successCount :
  Yields (λ n, successCount <= n <= successCount + len (concat chunks))
    (sendChunks env listId chunks successCount).
Proof.
  revert successCount. induction chunks as [|chunk rest IH];
    intros successCount; simpl.
  - apply yields_ret. unfold len. simpl. lia.
  - eapply yields_bind; [apply yields_sendChunk|]. intros added Hadded.
    intros w n w' H. apply IH in H. simpl in H.
    unfold len in *. rewrite length_app. lia.
Qed.

Lemma yields_addContactsToList env listId contacts skipVerification :
  Yields (λ n, 0 <= n <= len contacts)
    (addContactsToList env listId (Some contacts) skipVerification).
Proof.
  unfold addContactsToList.
  destruct (len contacts =? 0) eqn:E; [apply yields_ret; lia|].
  eapply yields_bind; [apply yields_true|]. intros notManual _.
  destruct notManual; [apply yields_ret; unfold len; lia|].
  intros w n w' H. apply yields_sendChunks in H. simpl in H.
  rewrite progressiveChunks_concat in H. lia.
Qed.

Lemma yields_populate env config newListId selectedContacts :
  Yields (λ n, 0 <= n <= len selectedContacts)
    (populate env config newListId selectedContacts).
Proof.
  unfold populate.
  eapply yields_bind; [apply yields_true|]. intros _ _.
  eapply yields_bind; [apply yields_addContactsToList|]. intros n Hn.
  apply yields_tryCatch.
  - eapply yields_bind; [apply yields_true|]. intros _ _. by apply yields_ret.
  - intros _. by apply yields_ret.
Qed.

(** ** Fuel *)

Lemma monotone_const {A} (m : Async A) : FuelMonotone (λ _, m).
Proof. by intros fuel fuel' w r _ H. Qed.

Lemma monotone_bind {A B} (f : nat -> Async A) (k : A -> nat -> Async B) :
  FuelMonotone f -> (forall a, FuelMonotone (k a)) ->
  FuelMonotone (λ fuel, bind (f fuel) (λ a, k a fuel)).
Proof.
  intros Hf Hk fuel fuel' w [o w'] Hle H.
  apply bind_inv in H as [(a & w1 & H1 & H2)|(e & H1 & ->)].
  - rewrite (bind_return _ _ _ _ _ (Hf _ _ _ _ Hle H1)).
    by apply (Hk a fuel fuel').
  - by rewrite (bind_throw _ _ _ _ _ (Hf _ _ _ _ Hle H1)).
Qed.

Lemma monotone_tryCatch {A} (f : nat -> Async A)
    (h : JsError -> nat -> Async A) :
  FuelMonotone f -> (forall e, FuelMonotone (h e)) ->
  FuelMonotone (λ fuel, tryCatch (f fuel) (λ e, h e fuel)).
Proof.
  intros Hf Hh fuel fuel' w [o w'] Hle H.
  apply tryCatch_inv in H as [(a & H1 & ->)|(e & w1 & H1 & H2)].
  - by rewrite (tryCatch_return _ _ _ _ _ (Hf _ _ _ _ Hle H1)).
  - rewrite (tryCatch_throw _ _ _ _ _ (Hf _ _ _ _ Hle H1)).
    by apply (Hh e fuel fuel').
Qed.

Lemma monotone_pageLoop env listId maxCount st :
  FuelMonotone (λ fuel, pageLoop env fuel listId maxCount st).
Proof.
  intros fuel. revert st.
  induction fuel as [|fuel IH]; intros st fuel' w r Hle H.
  - simpl in H. destruct fuel'; simpl;
      destruct (hasMore st && ltLimit (len (allContacts st)) maxCount);
      done.
  - destruct fuel' as [|fuel']; [lia|]. simpl in *.
    destruct (hasMore st && ltLimit (len (allContacts st)) maxCount);
      [|done].
    destruct r as [o w'].
    apply bind_inv in H as [(x & w1 & H1 & H2)|(e & H1 & ->)].
    + rewrite (bind_return _ _ _ _ _ H1).
      destruct x as [[|] st']; [apply (IH st' fuel'); [lia|done] | done].
    + by rewrite (bind_throw _ _ _ _ _ H1).
Qed.

Lemma monotone_getContactsFromList env listId maxCount :
  FuelMonotone (λ fuel, getContactsFromList env fuel listId maxCount).
Proof.
  unfold getContactsFromList, readFrom.
  apply (monotone_bind _ (λ st' _, finishRead listId maxCount st')).
  - apply monotone_pageLoop.
  - intros st'. apply monotone_const.
Qed.

Lemma monotone_sourceContacts env config :
  FuelMonotone (λ fuel, sourceContacts env fuel config).
Proof.
  unfold sourceContacts. cbv zeta.
  apply (monotone_tryCatch _ (λ _ _, ret noContacts));
    [|intros _; apply monotone_const].
  apply (monotone_bind _
           (λ fetched fuel,
              let* primary := filterUnused fetched in
              match secondaryListId config with
              | Some secondaryId =>
                  if len primary <? count config then
                    tryCatch
                      (let* fetched2 :=
                         getContactsFromList env fuel secondaryId
                           (Finite (Z.max ((count config - len primary) * 3)
                                      500)) in
                       let* secondary := filterUnused fetched2 in
                       ret {| primaryContacts := primary;
                              secondaryContacts := secondary;
                              primaryBeforeFilter := len fetched;
                              primaryAfterFilter := len primary;
                              secondaryBeforeFilter := len fetched2;
                              secondaryAfterFilter := len secondary |})
                      (λ _, ret {| primaryContacts := primary;
                                   secondaryContacts := [];
                                   primaryBeforeFilter := len fetched;
                                   primaryAfterFilter := len primary;
                                   secondaryBeforeFilter := 0;
                                   secondaryAfterFilter := 0 |})
                  else ret {| primaryContacts := primary;
                              secondaryContacts := [];
                              primaryBeforeFilter := len fetched;
                              primaryAfterFilter := len primary;
                              secondaryBeforeFilter := 0;
                              secondaryAfterFilter := 0 |}
              | None => ret {| primaryContacts := primary;
                               secondaryContacts := [];
                               primaryBeforeFilter := len fetched;
                               primaryAfterFilter := len primary;
                               secondaryBeforeFilter := 0;
                               secondaryAfterFilter := 0 |}
              end)).
  - apply monotone_getContactsFromList.
  - intros fetched.
    apply (monotone_bind (λ _, filterUnused fetched)); [apply monotone_const|].
    intros primary. destruct (secondaryListId config) as [secondaryId|];
      [|apply monotone_const].
    destruct (len primary <? count config); [|apply monotone_const].
    apply (monotone_tryCatch _ (λ _ _, ret _));
      [|intros _; apply monotone_const].
    apply (monotone_bind _ (λ fetched2 _, bind (filterUnused fetched2) _)).
    + apply monotone_getContactsFromList.
    + intros fetched2. apply monotone_const.
Qed.

Lemma monotone_processSingleCampaign env config daysFilter modeFilter :
  FuelMonotone
    (λ fuel, processSingleCampaign env fuel config daysFilter modeFilter).
Proof.
  unfold processSingleCampaign.
  apply (monotone_bind _ (λ src _, bind (markUsed _) _)).
  - apply monotone_sourceContacts.
  - intros src. apply monotone_const.
Qed.

Lemma monotone_runCampaign env daysFilter modeFilter total index config :
  FuelMonotone
    (λ fuel, runCampaign env fuel daysFilter modeFilter total index config).
Proof.
  unfold runCampaign.
  apply (monotone_bind (λ _, dateNow)
           (λ startTime fuel, tryCatch _ _)); [apply monotone_const|].
  intros startTime.
  apply (monotone_tryCatch _ (λ error _, bind dateNow _));
    [|intros error; apply monotone_const].
  apply (monotone_bind _ (λ result _, bind _ _)).
  - apply monotone_processSingleCampaign.
  - intros result. apply monotone_const.
Qed.

Lemma monotone_campaignLoop env daysFilter modeFilter total configs :
  forall index results,
  FuelMonotone
    (λ fuel,
       campaignLoop env fuel daysFilter modeFilter total index configs
         results).
Proof.
  induction configs as [|config rest IH]; intros index results; simpl.
  - apply monotone_const.
  - apply (monotone_bind _
             (λ entry fuel,
                campaignLoop env fuel daysFilter modeFilter total (index + 1)
                  rest (results ++ [entry]))).
    + apply monotone_runCampaign.
    + intros entry. apply IH.
Qed.

(** What a run does and returns does not depend on the fuel, once the fuel
    is enough for its list reads to end. *)
Lemma monotone_processCampaignsWithDelay env listConfigs daysFilter
    modeFilter :
  FuelMonotone
    (λ fuel,
       processCampaignsWithDelay env fuel listConfigs daysFilter modeFilter).
Proof.
  unfold processCampaignsWithDelay.
  apply (monotone_bind (λ _, newUsedContacts)
           (λ _ fuel, campaignLoop env fuel daysFilter modeFilter _ 0 _ []));
    [apply monotone_const|].
  intros _. apply monotone_campaignLoop.
Qed.

(** ** The campaign processor *)

Lemma sourceContacts_spec env fuel config w o w1 :
  sourceContacts env fuel config w = Some (o, w1) ->
  exists src P S,
    o = Return src /\ Fetched env fuel config w P S w1
    /\ primaryContacts src = unused w P
    /\ secondaryContacts src = unused w S
    /\ primaryBeforeFilter src = len P
    /\ secondaryBeforeFilter src = len S
    /\ primaryAfterFilter src = len (unused w P)
    /\ secondaryAfterFilter src = len (unused w S).
Proof.
  unfold sourceContacts, tryCatch at 1, bind at 1. cbv zeta.
  change (Finite (Z.max (count config * 3) 500)) with (fetchCount (count config)).
  destruct (getContactsFromList env fuel (primaryListId config) _ w)
    as [[[P|e] wa]|] eqn:E1; [| |discriminate].
  - pose proof (quiet_getContactsFromList _ _ _ _ _ _ _ E1) as (Hu & _).
    unfold bind at 1, filterUnused at 1.
    assert (filter (λ vid, vid ∉ usedContacts wa) P = unused w P) as ->
      by (unfold unused; by rewrite Hu).
    destruct (secondaryListId config) as [secondaryId|] eqn:Esec.
    + destruct (len (unused w P) <? count config) eqn:Elt.
      * apply Z.ltb_lt in Elt. unfold tryCatch at 1, bind at 1.
        change (Finite (Z.max ((count config - len (unused w P)) * 3) 500))
          with (fetchCount (count config - len (unused w P))).
        destruct (getContactsFromList env fuel secondaryId _ wa)
          as [[[S|e] wb]|] eqn:E2; [| |discriminate].
        -- pose proof (quiet_getContactsFromList _ _ _ _ _ _ _ E2) as (Hu2 & _).
           unfold bind, filterUnused, ret. 
           assert (filter (λ vid, vid ∉ usedContacts wb) S = unused w S) as ->
             by (unfold unused; by rewrite Hu2, Hu).
           intros H; inversion H; subst.
           eexists _, P, S. simpl. repeat split; try done.
           eapply fetched_both; eauto.
        -- unfold ret. intros H; inversion H; subst.
           eexists _, P, []. simpl. repeat split; try done.
           eapply fetched_secondary_failed; eauto.
      * apply Z.ltb_ge in Elt. unfold ret. intros H; inversion H; subst.
        eexists _, P, []. simpl. repeat split; try done.
        eapply fetched_primary; eauto.
    + unfold ret. intros H; inversion H; subst.
      eexists _, P, []. simpl. repeat split; try done.
      eapply fetched_primary; eauto.
  - unfold ret. intros H; inversion H; subst.
    eexists _, [], []. simpl. repeat split; try done.
    eapply fetched_none; eauto.
Qed.

Lemma foldl_add_union (s : gset Z) (l : list Z) :
  foldl (λ used vid, {[vid]} ∪ used) s l = s ∪ list_to_set l.
Proof.
  revert s. induction l as [|x l IH]; intros s; simpl.
  - by rewrite (right_id_L ∅ (∪)).
  - by rewrite IH, (assoc_L (∪)), (comm_L (∪) s {[x]}).
Qed.

Lemma markUsed_eq selectedContacts w :
  markUsed selectedContacts w
  = Some (Return tt,
          withSelection selectedContacts
            (withUsed (usedContacts w ∪ list_to_set selectedContacts) w)).
Proof. unfold markUsed. by rewrite foldl_add_union. Qed.

Lemma createDocument_inv env doc w o w' :
  createDocument env doc w = Some (o, w') ->
  keepsUsed w w' /\ later w w'
  /\ (forall d, o = Return d ->
        d = keptBySchema doc /\ store w' = store w ++ [keptBySchema doc]).
Proof.
  unfold createDocument, bind, await.
  destruct (reply env (calls w)); intros [= <- <-];
    unfold keepsUsed, later; simpl; (split; [done|]); (split; [lia|]);
    intros d [= <-]; done.
Qed.

Lemma createDocument_events env doc w o w' :
  createDocument env doc w = Some (o, w') ->
  events w' = events w ++ [CreatedListCreate doc].
Proof.
  unfold createDocument, bind, await.
  by destruct (reply env (calls w)); intros [= <- <-].
Qed.

Lemma processSingleCampaign_spec env fuel config daysFilter modeFilter w o w' :
  processSingleCampaign env fuel config daysFilter modeFilter w = Some (o, w') ->
  exists src w1,
    sourceContacts env fuel config w = Some (Return src, w1)
    /\ let sel := slice (primaryContacts src ++ secondaryContacts src) 0
                    (count config) in
       selections w' = selections w ++ [sel]
       /\ usedContacts w' = usedContacts w ∪ list_to_set sel
       /\ later w w'
       /\ forall r, o = Return r ->
            0 <= CampaignResult.contactCount r <= len sel
            /\ CampaignResult.requestedCount r = count config
            /\ CampaignResult.availableCount r
               = primaryBeforeFilter src + secondaryBeforeFilter src
            /\ CampaignResult.fulfillmentPercentage r
               = fulfillment (len sel) (count config)
            /\ exists doc,
                 last (events w') = Some (CreatedListCreate doc)
                 /\ CampaignResult.createdList r = keptBySchema doc
                 /\ CreatedListFields.contactCount doc
                    = CampaignResult.contactCount r
                 /\ CreatedListFields.requestedCount doc
                    = CampaignResult.requestedCount r
                 /\ CreatedListFields.availableCount doc
                    = CampaignResult.availableCount r
                 /\ CreatedListFields.fulfillmentPercentage doc
                    = CampaignResult.fulfillmentPercentage r
                 /\ store w' = store w ++ [CampaignResult.createdList r].
Proof.
  unfold processSingleCampaign. intros H.
  apply bind_inv in H as [(src & w1 & Hsrc & H)|(e & Hsrc & _)];
    [|by apply nothrow_sourceContacts in Hsrc].
  exists src, w1. split; [done|]. cbv zeta in *.
  set (sel := slice (primaryContacts src ++ secondaryContacts src) 0
                (count config)) in *.
  pose proof (quiet_sourceContacts _ _ _ _ _ _ Hsrc) as (Hu1 & Hs1 & Hst1 & Hc1).
  unfold bind at 1 in H. rewrite markUsed_eq in H.
  set (w2 := withSelection sel _) in H.
  assert (selections w2 = selections w ++ [sel]) as Hsel2
    by (simpl; by rewrite Hs1).
  assert (usedContacts w2 = usedContacts w ∪ list_to_set sel) as Hused2
    by (simpl; by rewrite Hu1).
  assert (store w2 = store w) as Hst2 by done.
  assert (clock w2 = clock w1) as Hc2 by done.
  clearbody w2.
  apply bind_inv in H as [(newList & w3 & Hnew & H)|(e & Hnew & ->)].
  2: { pose proof (quiet_createHubSpotList _ _ _ _ _ Hnew) as (-> & -> & _ & ?).
       unfold later. repeat split; try done; lia. }
  pose proof (quiet_createHubSpotList _ _ _ _ _ Hnew) as (Hu3 & Hs3 & Hst3 & Hc3).
  apply bind_inv in H as [(actual & w4 & Hact & H)|(e & Hact & ->)].
  2: { exfalso. destruct (0 <? len sel).
       - revert Hact. apply nothrow_tryCatch. intros _. apply nothrow_ret.
       - by apply nothrow_ret in Hact. }
  assert (quiet w3 w4 /\ 0 <= actual <= len sel) as [(Hu4 & Hs4 & Hst4 & Hc4) Hactual].
  { destruct (0 <? len sel) eqn:E.
    - split.
      + revert Hact. apply frames_tryCatch; [typeclasses eauto| |].
        * apply quiet_populate.
        * intros _. apply frames_ret. typeclasses eauto.
      + revert Hact. apply (yields_tryCatch (λ n, 0 <= n <= len sel)).
        * apply yields_populate.
        * intros _. apply yields_ret. unfold len. lia.
    - inversion Hact; subst. split; [reflexivity|]. unfold len. lia. }
  unfold bind at 1, dateNow at 1 in H.
  apply bind_inv in H as [(doc & w5 & Hdoc & H)|(e & Hdoc & ->)].
  2: { apply createDocument_inv in Hdoc as ((-> & ->) & ? & _).
       rewrite Hu4, Hu3, Hs4, Hs3. unfold later in *.
       repeat split; try done; lia. }
  apply createDocument_events in Hdoc as Hev5.
  apply createDocument_inv in Hdoc as ((Hu5 & Hs5) & Hc5 & Hd).
  destruct (Hd doc eq_refl) as [-> Hst5].
  unfold ret in H. injection H as <- <-. unfold later in *.
  split; [by rewrite Hs5, Hs4, Hs3|].
  split; [by rewrite Hu5, Hu4, Hu3|].
  split; [lia|].
  intros res [= <-]. simpl.
  split; [lia|]. do 3 (split; [done|]).
  eexists. rewrite Hev5, last_snoc. split; [reflexivity|].
  rewrite Hst5, Hst4, Hst3, Hst2. repeat split; done.
Qed.

(** ** The paginated list reader *)

Lemma uniqueFrom_elem seen arr x :
  x ∈ uniqueFrom seen arr <-> x ∈ arr /\ x ∉ seen.
Proof.
  revert seen. induction arr as [|y arr IH]; intros seen; simpl.
  - rewrite !elem_of_nil. tauto.
  - destruct (decide (y ∈ seen)) as [Hy|Hy].
    + rewrite IH, elem_of_cons. split; [tauto|].
      intros [[->|Hx] Hn]; [done|tauto].
    + rewrite !elem_of_cons, IH, elem_of_union, elem_of_singleton.
      destruct (decide (x = y)) as [->|Hne]; [tauto|]. tauto.
Qed.

Lemma uniqueFrom_NoDup seen arr : NoDup (uniqueFrom seen arr).
Proof.
  revert seen. induction arr as [|y arr IH]; intros seen; simpl.
  - constructor.
  - destruct (decide (y ∈ seen)); [apply IH|].
    constructor; [|apply IH].
    rewrite uniqueFrom_elem, elem_of_union, elem_of_singleton. tauto.
Qed.

Lemma uniqueFrom_sublist seen arr : uniqueFrom seen arr `sublist_of` arr.
Proof.
  revert seen. induction arr as [|y arr IH]; intros seen; simpl; [done|].
  destruct (decide (y ∈ seen)).
  - by apply sublist_cons.
  - by apply sublist_skip.
Qed.

Lemma await_rejected env ev w status message :
  reply env (calls w) = Rejected status message ->
  await env ev w
  = Some (Throw (RemoteError status message), afterCall env ev w).
Proof. unfold await. by intros ->. Qed.

Lemma await_resolved env ev w body :
  reply env (calls w) = Resolved body ->
  await env ev w = Some (Return body, afterCall env ev w).
Proof. unfold await. by intros ->. Qed.

Lemma fetchPage_rejected env listId maxCount st w status message :
  reply env (calls w) = Rejected status message ->
  fetchPage env listId maxCount st w
  = Some (Throw (RemoteError status message),
          afterCall env (membershipsRequest env listId maxCount st) w).
Proof.
  intros H. unfold fetchPage. eapply bind_throw, await_rejected, H.
Qed.

(** The legacy-list error is not the error of a retrieval that gave up. *)
Lemma legacy_error_is_distinct listId listId' cause :
  PlainError (legacyListMessage listId)
  <> PlainError (retrievalFailedMessage listId' cause).
Proof. intros H. inversion H. Qed.

(** C5: if the first page request of a read is answered with a 404,
    [getContactsFromList] throws the legacy-list error; the world it ends in
    is the starting world after that single request, so the request is not
    retried, no timer is set and nothing is returned. *)
Theorem first_page_404_raises_legacy_error env fuel listId maxCount w message :
  ltLimit 0 maxCount = true ->
  reply env (calls w) = Rejected (Some 404) message ->
  getContactsFromList env (S fuel) listId maxCount w
  = Some (Throw (PlainError (legacyListMessage listId)),
          afterCall env
            (GetMemberships listId (countToFetch env maxCount initialReader)
               None) w).
Proof.
  intros Hmax Hreply.
  unfold getContactsFromList, readFrom. simpl pageLoop.
  change (len []) with 0. rewrite Hmax.
  unfold bind at 1. unfold bind at 1.
  erewrite tryCatch_throw by (apply fetchPage_rejected, Hreply).
  reflexivity.
Qed.

Lemma first_page_404_witness :
  getContactsFromList (scriptedEnv [notFound] 1000) 1 "11" Infinity freshWorld
  = Some (Throw (PlainError (legacyListMessage "11")),
          afterCall (scriptedEnv [notFound] 1000)
            (GetMemberships "11" 1000 None) freshWorld).
Proof.
  apply (first_page_404_raises_legacy_error (scriptedEnv [notFound] 1000) 0
           "11" Infinity freshWorld "Request failed with status code 404");
    reflexivity.
Defined.






(** A read that loses the connection after its first page returns that
    page, de-duplicated, after three attempts at the second one. *)
Example partial_result_after_ceiling :
  exists w',
    getContactsFromList
      (scriptedEnv [pageOf [1; 2; 1] (Some "cursor"); serverError;
                    serverError; serverError] 1000)
      4 "11" Infinity freshWorld
    = Some (Return [1; 2], w')
    /\ events w'
       = [GetMemberships "11" 1000 None; SetTimeout 200;
          GetMemberships "11" 1000 (Some "cursor"); SetTimeout 1000;
          GetMemberships "11" 1000 (Some "cursor"); SetTimeout 2000;
          GetMemberships "11" 1000 (Some "cursor")].
Proof. eexists. split; vm_compute; reflexivity. Qed.

(** ** The membership writer *)

Lemma addCalls_app evs evs' :
  addCalls (evs ++ evs') = (addCalls evs + addCalls evs')%nat.
Proof. unfold addCalls. by rewrite filter_app, length_app. Qed.

Lemma verifyListIsManual_events env listId w o w' :
  verifyListIsManual env listId w = Some (o, w') ->
  events w' = events w ++ [GetList listId].
Proof.
  unfold verifyListIsManual, tryCatch, bind, await, ret.
  destruct (reply env (calls w)); intros [= <- <-]; done.
Qed.

(** C7: [addContactsToList] returns 0 without any effect for a missing and
    for an empty contact array; and when verification is not skipped and
    [verifyListIsManual] returns false, it returns 0 and the event log gains
    no membership-add call. *)
Theorem addContactsToList_writes_nothing env listId :
  (forall skipVerification w,
     addContactsToList env listId None skipVerification w
     = Some (Return 0, w))
  /\ (forall skipVerification w,
        addContactsToList env listId (Some []) skipVerification w
        = Some (Return 0, w))
  /\ (forall contacts w w1,
        verifyListIsManual env listId w = Some (Return false, w1) ->
        exists w',
          addContactsToList env listId (Some contacts) false w
          = Some (Return 0, w')
          /\ addCalls (events w') = addCalls (events w)).
Proof.
  split; [done|]. split; [done|].
  intros contacts w w1 Hverify. unfold addContactsToList.
  destruct (len contacts =? 0); [by exists w|].
  exists w1. split.
  - rewrite (bind_return _ _ w true w1); [done|].
    change (negb false) with true. cbv iota.
    by rewrite (bind_return _ _ _ _ _ Hverify).
  - rewrite (verifyListIsManual_events _ _ _ _ _ Hverify), addCalls_app.
    change (addCalls [GetList listId]) with 0%nat. lia.
Qed.

Lemma addContactsToList_witness :
  exists w',
    addContactsToList (scriptedEnv [dynamicList "42"] 1000) "42"
      (Some [1; 2; 3]) false freshWorld
    = Some (Return 0, w')
    /\ addCalls (events w') = addCalls (events freshWorld).
Proof.
  destruct (addContactsToList_writes_nothing
              (scriptedEnv [dynamicList "42"] 1000) "42") as (_ & _ & H).
  apply (H [1; 2; 3] freshWorld
           (afterCall (scriptedEnv [dynamicList "42"] 1000) (GetList "42")
              freshWorld)).
  reflexivity.
Defined.

(** ** The run sequencer *)

(** The world in which the next campaign starts: the sequencer sleeps
    unless the campaign that ended in [w1] was the last one. *)
Lemma runCampaign_settles env fuel daysFilter modeFilter total index config
    w o w1 :
  processSingleCampaign env fuel config daysFilter modeFilter w = Some (o, w1) ->
  runCampaign env fuel daysFilter modeFilter total index config w
  = Some (Return (settle o),
          if index <? total - 1
          then afterTimer env (interDelay env (clock w1 - clock w)) w1
          else w1).
Proof.
  intros H. unfold runCampaign. unfold bind at 1, dateNow at 1.
  destruct o as [result|error].
  - erewrite tryCatch_return; [reflexivity|].
    rewrite (bind_return _ _ _ _ _ H).
    destruct (index <? total - 1); reflexivity.
  - erewrite tryCatch_throw by (eapply bind_throw, H).
    destruct (index <? total - 1); reflexivity.
Qed.

Lemma runCampaign_stuck env fuel daysFilter modeFilter total index config w :
  processSingleCampaign env fuel config daysFilter modeFilter w = None ->
  runCampaign env fuel daysFilter modeFilter total index config w = None.
Proof.
  intros H. unfold runCampaign, bind, dateNow, tryCatch. by rewrite H.
Qed.

Lemma campaignLoop_step env fuel daysFilter modeFilter total index config
    rest results w o w1 :
  processSingleCampaign env fuel config daysFilter modeFilter w = Some (o, w1) ->
  campaignLoop env fuel daysFilter modeFilter total index (config :: rest)
    results w
  = campaignLoop env fuel daysFilter modeFilter total (index + 1) rest
      (results ++ [settle o])
      (if index <? total - 1
       then afterTimer env (interDelay env (clock w1 - clock w)) w1
       else w1).
Proof.
  intros H. simpl.
  by rewrite (bind_return _ _ _ _ _ (runCampaign_settles _ _ _ _ _ _ _ _ _ _ H)).
Qed.

Lemma campaignLoop_returns env fuel daysFilter modeFilter total configs :
  forall index results w o w',
  campaignLoop env fuel daysFilter modeFilter total index configs results w
  = Some (o, w') ->
  exists entries,
    o = Return (results ++ entries) /\ length entries = length configs.
Proof.
  induction configs as [|config rest IH]; intros index results w o w' H.
  - simpl in H. injection H as <- <-. exists []. by rewrite app_nil_r.
  - destruct (processSingleCampaign env fuel config daysFilter modeFilter w)
      as [[o1 w1]|] eqn:E.
    + rewrite (campaignLoop_step _ _ _ _ _ _ _ _ _ _ _ _ E) in H.
      apply IH in H as (entries & -> & Hlen).
      exists (settle o1 :: entries). rewrite <- app_assoc. simpl.
      split; [done|]. by rewrite Hlen.
    + simpl in H. unfold bind at 1 in H.
      by rewrite (runCampaign_stuck _ _ _ _ _ _ _ _ E) in H.
Qed.

Lemma campaignLoop_campaigns env fuel daysFilter modeFilter total index
    configs w outcomes w' :
  Campaigns env fuel daysFilter modeFilter total index configs w outcomes w' ->
  forall results,
  campaignLoop env fuel daysFilter modeFilter total index configs results w
  = Some (Return (results ++ (settle <$> outcomes)), w').
Proof.
  induction 1 as [index w|index config rest w o w1 outcomes w' Hone _ IH];
    intros results.
  - simpl. by rewrite app_nil_r.
  - rewrite (campaignLoop_step _ _ _ _ _ _ _ _ _ _ _ _ Hone).
    unfold interDelay. rewrite IH. by rewrite <- app_assoc.
Qed.

Lemma campaignLoop_inv env fuel daysFilter modeFilter total configs :
  forall index results w o w',
  campaignLoop env fuel daysFilter modeFilter total index configs results w
  = Some (o, w') ->
  exists outcomes,
    Campaigns env fuel daysFilter modeFilter total index configs w outcomes w'
    /\ o = Return (results ++ (settle <$> outcomes)).
Proof.
  induction configs as [|config rest IH]; intros index results w o w' H.
  - simpl in H. injection H as <- <-. exists []. simpl.
    rewrite app_nil_r. split; [constructor|done].
  - destruct (processSingleCampaign env fuel config daysFilter modeFilter w)
      as [[o1 w1]|] eqn:E.
    + rewrite (campaignLoop_step _ _ _ _ _ _ _ _ _ _ _ _ E) in H.
      apply IH in H as (outcomes & Hrest & ->).
      exists (o1 :: outcomes). split.
      * econstructor; [exact E|exact Hrest].
      * simpl. by rewrite <- app_assoc.
    + simpl in H. unfold bind at 1 in H.
      by rewrite (runCampaign_stuck _ _ _ _ _ _ _ _ E) in H.
Qed.

Lemma Campaigns_length env fuel daysFilter modeFilter total index configs w
    outcomes w' :
  Campaigns env fuel daysFilter modeFilter total index configs w outcomes w' ->
  length outcomes = length configs.
Proof. induction 1; simpl; congruence. Qed.

(** C8: the campaigns of a run are processed one after the other, each in
    the world that the one before it left, and whether it returned or
    threw.  When each of them ends, returning or throwing, the run returns
    its report: it does not throw, the entry of a campaign that threw is
    ['rejected'] with its error, the entry of a campaign that returned is
    ['fulfilled'] with its result, and the campaigns after a failure are
    processed like the others.  After a campaign that threw, the loop goes
    on with the remaining campaigns, having slept the inter-campaign delay
    unless the campaign was the last.  A run of one campaign that throws
    returns one rejected entry.  Conversely, a run that ends has processed
    every campaign and returns their report. *)
Theorem campaign_failure_is_isolated env fuel daysFilter modeFilter :
  (forall listConfigs w outcomes w',
     Campaigns env fuel daysFilter modeFilter (len listConfigs) 0 listConfigs
       (withUsed ∅ w) outcomes w' ->
     processCampaignsWithDelay env fuel listConfigs daysFilter modeFilter w
     = Some (Return (settle <$> outcomes), w')
     /\ length outcomes = length listConfigs
     /\ (forall i error,
           outcomes !! i = Some (Throw error) ->
           (settle <$> outcomes) !! i = Some (rejected error))
     /\ (forall i result,
           outcomes !! i = Some (Return result) ->
           (settle <$> outcomes) !! i = Some (fulfilled result)))
  /\ (forall total index config rest results w error w1,
        processSingleCampaign env fuel config daysFilter modeFilter w
        = Some (Throw error, w1) ->
        campaignLoop env fuel daysFilter modeFilter total index
          (config :: rest) results w
        = campaignLoop env fuel daysFilter modeFilter total (index + 1) rest
            (results ++ [rejected error])
            (if index <? total - 1
             then afterTimer env
                    (Z.max 0 (INTER_LIST_DELAY_MS env - (clock w1 - clock w)))
                    w1
             else w1))
  /\ (forall config w error w1,
        processSingleCampaign env fuel config daysFilter modeFilter
          (withUsed ∅ w)
        = Some (Throw error, w1) ->
        processCampaignsWithDelay env fuel [config] daysFilter modeFilter w
        = Some (Return [rejected error], w1))
  /\ (forall listConfigs w o w',
        processCampaignsWithDelay env fuel listConfigs daysFilter modeFilter w
        = Some (o, w') ->
        exists outcomes,
          Campaigns env fuel daysFilter modeFilter (len listConfigs) 0
            listConfigs (withUsed ∅ w) outcomes w'
          /\ o = Return (settle <$> outcomes)
          /\ length (settle <$> outcomes) = length listConfigs).
Proof.
  split; [|split; [|split]].
  - intros listConfigs w outcomes w' Hrun.
    split; [|split; [|split]].
    + unfold processCampaignsWithDelay, bind at 1, newUsedContacts at 1.
      by rewrite (campaignLoop_campaigns _ _ _ _ _ _ _ _ _ _ Hrun []).
    + eapply Campaigns_length, Hrun.
    + intros i error Hi. by rewrite list_lookup_fmap, Hi.
    + intros i result Hi. by rewrite list_lookup_fmap, Hi.
  - intros total index config rest results w error w1 H.
    apply (campaignLoop_step _ _ _ _ _ _ _ _ _ _ _ _ H).
  - intros config w error w1 H.
    unfold processCampaignsWithDelay, bind at 1, newUsedContacts at 1.
    by rewrite (campaignLoop_step _ _ _ _ _ _ _ _ _ _ _ _ H).
  - intros listConfigs w o w' H. unfold processCampaignsWithDelay in H.
    unfold bind at 1, newUsedContacts at 1 in H.
    apply campaignLoop_inv in H as (outcomes & Hrun & ->).
    exists outcomes. split; [exact Hrun|]. split; [done|].
    rewrite length_fmap. eapply Campaigns_length, Hrun.
Qed.

Lemma campaign_failure_witness :
  exists result w',
    processCampaignsWithDelay
      (scriptedEnv [pageOf [1; 2] None; serverError;
                    pageOf [2; 3] None; listCreated "900"; accepted;
                    accepted; accepted; accepted] 1000)
      4 [campaignOf 1 None; campaignOf 2 None] "today" "BAU" freshWorld
    = Some (Return
              [rejected (RemoteError (Some 500)
                           "Request failed with status code 500");
               fulfilled result], w')
    /\ CampaignResult.contactCount result = 2
    /\ SetTimeout 980 ∈ events w'.
Proof.
  destruct (campaign_failure_is_isolated
              (scriptedEnv [pageOf [1; 2] None; serverError;
                            pageOf [2; 3] None; listCreated "900"; accepted;
                            accepted; accepted; accepted] 1000)
              4 "today" "BAU") as (H & _).
  edestruct (H [campaignOf 1 None; campaignOf 2 None] freshWorld)
    as (Hrun & _).
  { eapply campaigns_next; [vm_compute; reflexivity|].
    eapply campaigns_next; [vm_compute; reflexivity|].
    apply campaigns_done. }
  eexists _, _. split; [exact Hrun|]. split; [reflexivity|].
  simpl. do 2 apply list_elem_of_further. apply list_elem_of_here.
Defined.

(** One campaign whose list creation fails: the run returns one rejected
    entry and no fulfilled one. *)
Example one_failing_campaign :
  exists results w',
    processCampaignsWithDelay
      (scriptedEnv [pageOf [1; 2] None; serverError] 1000) 2
      [campaignOf 2 None] "today" "BAU" freshWorld
    = Some (Return results, w')
    /\ length (failed results) = 1%nat
    /\ length (successful results) = 0%nat.
Proof. eexists _, _. split; [vm_compute; reflexivity|]. by vm_compute. Qed.

Lemma later_processSingleCampaign env fuel config daysFilter modeFilter :
  Frames later (processSingleCampaign env fuel config daysFilter modeFilter).
Proof.
  intros w o w' H.
  apply processSingleCampaign_spec in H as (src & w1 & _ & _ & _ & H & _).
  exact H.
Qed.

(** From the start of a campaign to the start of the next one at least the
    inter-campaign delay passes, so the campaigns after the first add as
    many delays to the clock. *)
Lemma campaignLoop_clock env fuel daysFilter modeFilter total configs :
  forall index results w o w',
  index + len configs = total ->
  configs <> [] ->
  campaignLoop env fuel daysFilter modeFilter total index configs results w
  = Some (o, w') ->
  clock w + (len configs - 1) * INTER_LIST_DELAY_MS env <= clock w'.
Proof.
  induction configs as [|config rest IH];
    intros index results w o w' Htotal Hne H; [done|].
  destruct (processSingleCampaign env fuel config daysFilter modeFilter w)
    as [[o1 w1]|] eqn:E.
  - rewrite (campaignLoop_step _ _ _ _ _ _ _ _ _ _ _ _ E) in H.
    apply later_processSingleCampaign in E. unfold later in E.
    unfold len in *. simpl length in *.
    destruct rest as [|config' rest'].
    + simpl in H. injection H as _ <-.
      destruct (index <? total - 1) eqn:Elt; [apply Z.ltb_lt in Elt|];
        simpl in *; lia.
    + replace (index <? total - 1) with true in H
        by (symmetry; apply Z.ltb_lt; simpl length in *; lia).
      apply IH in H; [| simpl length in *; lia | done].
      simpl in H. unfold interDelay in H. simpl length in *. lia.
  - simpl in H. unfold bind at 1 in H.
    by rewrite (runCampaign_stuck _ _ _ _ _ _ _ _ E) in H.
Qed.

(** C9: in a run of [total] campaigns, after campaign number [index] (from
    0) has settled in world [w1], having started in world [w], the sequencer
    sleeps [max(0, INTER_LIST_DELAY_MS - elapsed)] with [elapsed] the clock
    difference between the two worlds, unless it was the last campaign, after
    which it does not sleep; hence a run of N >= 1 campaigns lasts at least
    N - 1 delays, and a run of 3 campaigns with a delay of 1000 ms lasts at
    least 2000 ms. *)
Theorem inter_campaign_delay env fuel daysFilter modeFilter :
  (forall total index config rest results w o w1,
     index + 1 + len rest = total ->
     processSingleCampaign env fuel config daysFilter modeFilter w
     = Some (o, w1) ->
     campaignLoop env fuel daysFilter modeFilter total index (config :: rest)
       results w
     = campaignLoop env fuel daysFilter modeFilter total (index + 1) rest
         (results ++ [settle o])
         (match rest with
          | [] => w1
          | _ =>
              afterTimer env
                (Z.max 0 (INTER_LIST_DELAY_MS env - (clock w1 - clock w))) w1
          end))
  /\ (forall listConfigs w o w',
        (1 <= length listConfigs)%nat ->
        processCampaignsWithDelay env fuel listConfigs daysFilter modeFilter w
        = Some (o, w') ->
        (len listConfigs - 1) * INTER_LIST_DELAY_MS env <= clock w' - clock w)
  /\ (forall listConfigs w o w',
        length listConfigs = 3%nat ->
        INTER_LIST_DELAY_MS env = 1000 ->
        processCampaignsWithDelay env fuel listConfigs daysFilter modeFilter w
        = Some (o, w') ->
        2000 <= clock w' - clock w).
Proof.
  assert (forall listConfigs w o w',
            (1 <= length listConfigs)%nat ->
            processCampaignsWithDelay env fuel listConfigs daysFilter
              modeFilter w = Some (o, w') ->
            (len listConfigs - 1) * INTER_LIST_DELAY_MS env
            <= clock w' - clock w) as Hrun.
  { intros listConfigs w o w' Hlen H. unfold processCampaignsWithDelay in H.
    unfold bind at 1, newUsedContacts at 1 in H.
    apply campaignLoop_clock in H; [simpl in H; lia | lia |].
    destruct listConfigs; [simpl in Hlen; lia | done]. }
  split; [|split; [exact Hrun|]].
  - intros total index config rest results w o w1 Htotal H.
    rewrite (campaignLoop_step _ _ _ _ _ _ _ _ _ _ _ _ H).
    unfold len in Htotal.
    destruct rest as [|config' rest'].
    + replace (index <? total - 1) with false
        by (symmetry; apply Z.ltb_ge; simpl in Htotal; lia).
      reflexivity.
    + replace (index <? total - 1) with true
        by (symmetry; apply Z.ltb_lt; simpl length in Htotal; lia).
      reflexivity.
  - intros listConfigs w o w' Hlen Hdelay H.
    apply Hrun in H; [|lia]. unfold len in H. rewrite Hlen, Hdelay in H. lia.
Qed.


Lemma inter_campaign_delay_witness :
  exists o w',
    processCampaignsWithDelay
      (scriptedEnv
         [pageOf [1] None; listCreated "71"; accepted; accepted; accepted;
          accepted;
          pageOf [2] None; listCreated "72"; accepted; accepted; accepted;
          accepted;
          pageOf [3] None; listCreated "73"; accepted; accepted; accepted;
          accepted] 1000)
      2 [campaignOf 1 None; campaignOf 1 None; campaignOf 1 None]
      "today" "BAU" freshWorld
    = Some (o, w')
    /\ 2000 <= clock w' - clock freshWorld.
Proof.
  eexists _, _. split; [vm_compute; reflexivity|].
  destruct (inter_campaign_delay (scriptedEnv
         [pageOf [1] None; listCreated "71"; accepted; accepted; accepted;
          accepted;
          pageOf [2] None; listCreated "72"; accepted; accepted; accepted;
          accepted;
          pageOf [3] None; listCreated "73"; accepted; accepted; accepted;
          accepted] 1000) 2 "today" "BAU") as (_ & _ & H).
  eapply (H [campaignOf 1 None; campaignOf 1 None; campaignOf 1 None]
            freshWorld).
  - reflexivity.
  - reflexivity.
  - vm_compute; reflexivity.
Defined.

(** ** Selections and the dedup set *)

Lemma slice_prefix {A} (l : list A) (n : Z) :
  0 <= n -> slice l 0 n = take (Z.to_nat n) l.
Proof.
  intros Hn. unfold slice, relativeIndex.
  change (0 <? 0) with false. cbv iota.
  rewrite (Z.min_l 0) by lia.
  destruct (Z.ltb_spec n 0); [lia|].
  change (Z.to_nat 0) with 0%nat. rewrite drop_0, Z.sub_0_r.
  destruct (Z.min_spec n (Z.of_nat (length l))) as [[? ->]|[? ->]]; [done|].
  rewrite Nat2Z.id, take_ge by lia. symmetry. apply take_ge. lia.
Qed.

Lemma slice_subseteq {A} (l : list A) (a b : Z) : slice l a b ⊆ l.
Proof.
  unfold slice. etrans; [apply subseteq_take | apply subseteq_drop].
Qed.

Lemma slice_length_le {A} (l : list A) (a b : Z) : len (slice l a b) <= len l.
Proof.
  unfold slice, len. rewrite length_take, length_drop. lia.
Qed.

Lemma unused_elem w contacts x : x ∈ unused w contacts -> x ∉ usedContacts w.
Proof. unfold unused. rewrite list_elem_of_filter. tauto. Qed.

Lemma unused_length w contacts : len (unused w contacts) <= len contacts.
Proof.
  unfold unused, len.
  pose proof (length_filter (λ vid, vid ∉ usedContacts w) contacts). lia.
Qed.

(** What a campaign does to the dedup set and to the record of selections,
    however it ends. *)
Lemma processSingleCampaign_selection env fuel config daysFilter modeFilter
    w o w' :
  processSingleCampaign env fuel config daysFilter modeFilter w = Some (o, w') ->
  exists sel,
    selections w' = selections w ++ [sel]
    /\ usedContacts w' = usedContacts w ∪ list_to_set sel
    /\ forall x, x ∈ sel -> x ∉ usedContacts w.
Proof.
  intros H.
  apply processSingleCampaign_spec in H as (src & w1 & Hsrc & Hsel & Hused & _).
  apply sourceContacts_spec in Hsrc
    as (src' & P & S & [= <-] & _ & HP & HS & _).
  eexists. split; [exact Hsel|]. split; [exact Hused|].
  intros x Hx. apply slice_subseteq in Hx. rewrite HP, HS in Hx.
  apply elem_of_app in Hx as [Hx|Hx]; eapply unused_elem, Hx.
Qed.

Lemma campaignLoop_selections env fuel daysFilter modeFilter total configs :
  forall index results w o w',
  campaignLoop env fuel daysFilter modeFilter total index configs results w
  = Some (o, w') ->
  exists sels,
    selections w' = selections w ++ sels
    /\ length sels = length configs
    /\ usedContacts w' = usedContacts w ∪ list_to_set (concat sels)
    /\ (forall i si x, sels !! i = Some si -> x ∈ si -> x ∉ usedContacts w)
    /\ (forall i j si sj x, (i < j)%nat -> sels !! i = Some si ->
          sels !! j = Some sj -> x ∈ si -> x ∉ sj).
Proof.
  induction configs as [|config rest IH]; intros index results w o w' H.
  - simpl in H. injection H as _ <-. exists []. rewrite app_nil_r. simpl.
    split; [done|]. split; [done|].
    split; [by rewrite (right_id_L ∅ (∪))|].
    split; intros *; by rewrite lookup_nil.
  - destruct (processSingleCampaign env fuel config daysFilter modeFilter w)
      as [[o1 w1]|] eqn:E.
    + rewrite (campaignLoop_step _ _ _ _ _ _ _ _ _ _ _ _ E) in H.
      apply processSingleCampaign_selection in E
        as (sel & Hsel & Hused & Hfresh).
      apply IH in H as (sels & Hsels & Hlen & Hused' & Hfresh' & Hdisj).
      assert (forall (w2 : World),
                w2 = (if index <? total - 1
                      then afterTimer env
                             (interDelay env (clock w1 - clock w)) w1
                      else w1) ->
                selections w2 = selections w1
                /\ usedContacts w2 = usedContacts w1) as Hsame
        by (intros w2 ->; by destruct (index <? total - 1)).
      destruct (Hsame _ eq_refl) as [Hs2 Hu2].
      rewrite Hs2, Hsel in Hsels. rewrite Hu2, Hused in Hused'.
      exists (sel :: sels). split; [by rewrite Hsels, <- app_assoc|].
      split; [simpl; by rewrite Hlen|].
      split; [rewrite Hused'; simpl; by rewrite list_to_set_app_L, (assoc_L (∪))|].
      split.
      * intros [|i] si x Hi Hx; simpl in Hi.
        -- injection Hi as <-. by apply Hfresh.
        -- specialize (Hfresh' i si x Hi Hx). rewrite Hu2, Hused in Hfresh'.
           intros Hin. apply Hfresh', elem_of_union. by left.
      * intros [|i] [|j] si sj x Hij Hi Hj Hx; simpl in Hi, Hj; try lia.
        -- injection Hi as <-. intros Hx'.
           specialize (Hfresh' j sj x Hj Hx'). rewrite Hu2, Hused in Hfresh'.
           apply Hfresh', elem_of_union. right. by apply elem_of_list_to_set.
        -- apply (Hdisj i j si sj x); [lia|done..].
    + simpl in H. unfold bind at 1 in H.
      by rewrite (runCampaign_stuck _ _ _ _ _ _ _ _ E) in H.
Qed.

Lemma size_list_to_set_le (l : list Z) :
  (size (list_to_set l : gset Z) <= length l)%nat.
Proof.
  induction l as [|x l IH].
  - by rewrite list_to_set_nil, size_empty.
  - rewrite list_to_set_cons, size_union_alt, size_singleton.
    pose proof (subseteq_size (list_to_set l ∖ {[x]}) (list_to_set l : gset Z)
                  (subseteq_difference_l _ _ _ (reflexivity _))).
    simpl. lia.
Qed.

Lemma length_concat_sum {A} (ls : list (list A)) :
  length (concat ls) = sum_list (length <$> ls).
Proof.
  induction ls as [|l ls IH]; simpl; [done|]. by rewrite length_app, IH.
Qed.

(** C4: in a run over any sequence of campaign configurations, the
    selections of two different campaigns share no contact id, and the dedup
    set at the end of the run has at most as many elements as the selections
    have together. *)
Theorem dedup_across_campaigns env fuel listConfigs daysFilter modeFilter
    w o w' :
  processCampaignsWithDelay env fuel listConfigs daysFilter modeFilter w
  = Some (o, w') ->
  exists sels,
    selections w' = selections w ++ sels
    /\ length sels = length listConfigs
    /\ (forall i j si sj x, i <> j -> sels !! i = Some si ->
          sels !! j = Some sj -> x ∈ si -> x ∉ sj)
    /\ (size (usedContacts w') <= sum_list (length <$> sels))%nat.
Proof.
  intros H. unfold processCampaignsWithDelay in H.
  unfold bind at 1, newUsedContacts at 1 in H.
  apply campaignLoop_selections in H
    as (sels & Hsels & Hlen & Hused & _ & Hdisj).
  exists sels. split; [exact Hsels|]. split; [exact Hlen|]. split.
  - intros i j si sj x Hij Hi Hj Hx Hx'.
    destruct (decide (i < j)%nat).
    + by apply (Hdisj i j si sj x).
    + apply (Hdisj j i sj si x); [lia|done..].
  - rewrite Hused. simpl. rewrite (left_id_L ∅ (∪)), <- length_concat_sum.
    apply size_list_to_set_le.
Qed.

Lemma dedup_across_campaigns_witness :
  exists o w' sels,
    processCampaignsWithDelay
      (scriptedEnv
         [pageOf [1; 2; 3] None; listCreated "71"; accepted; accepted;
          accepted; accepted;
          pageOf [2; 3; 4] None; listCreated "72"; accepted; accepted;
          accepted; accepted] 1000)
      2 [campaignOf 2 None; campaignOf 2 None] "today" "BAU" freshWorld
    = Some (o, w')
    /\ selections w' = [[1; 2]; [3; 4]]
    /\ selections w' = selections freshWorld ++ sels
    /\ (size (usedContacts w') <= sum_list (length <$> sels))%nat.
Proof.
  eexists _, _.
  edestruct (dedup_across_campaigns
               (scriptedEnv
                  [pageOf [1; 2; 3] None; listCreated "71"; accepted; accepted;
                   accepted; accepted;
                   pageOf [2; 3; 4] None; listCreated "72"; accepted; accepted;
                   accepted; accepted] 1000)
               2 [campaignOf 2 None; campaignOf 2 None] "today" "BAU"
               freshWorld) as (sels & Hsels & _ & _ & Hsize);
    [vm_compute; reflexivity|].
  exists sels. split; [vm_compute; reflexivity|]. split; [reflexivity|].
  split; [exact Hsels | exact Hsize].
Defined.

(** ** Counts of a campaign *)

Lemma selection_length_le src config :
  0 <= count config ->
  len (slice (primaryContacts src ++ secondaryContacts src) 0 (count config))
  <= count config.
Proof.
  intros Hcount. rewrite slice_prefix by done. unfold len.
  rewrite length_take. lia.
Qed.

(** C3, as the code has it: for a requested count that is not negative,
    the count added to the list is at most the requested count and at most
    the available count, in the result returned and in the object passed to
    [CreatedList.create], the last request of the campaign, which carries
    the three counts of the result; the requested count is not bounded by
    the available count.  The document saved and returned as [createdList]
    is what the schema keeps of that object. *)
Theorem added_within_requested_and_available env fuel config daysFilter
    modeFilter w r w' :
  0 <= count config ->
  processSingleCampaign env fuel config daysFilter modeFilter w
  = Some (Return r, w') ->
  CampaignResult.contactCount r <= CampaignResult.requestedCount r
  /\ CampaignResult.contactCount r <= CampaignResult.availableCount r
  /\ exists doc,
       last (events w') = Some (CreatedListCreate doc)
       /\ CreatedListFields.contactCount doc = CampaignResult.contactCount r
       /\ CreatedListFields.requestedCount doc
          = CampaignResult.requestedCount r
       /\ CreatedListFields.availableCount doc
          = CampaignResult.availableCount r
       /\ CreatedListFields.contactCount doc
          <= CreatedListFields.requestedCount doc
       /\ CreatedListFields.contactCount doc
          <= CreatedListFields.availableCount doc
       /\ CampaignResult.createdList r = keptBySchema doc
       /\ last (store w') = Some (CampaignResult.createdList r).
Proof.
  intros Hcount H.
  apply processSingleCampaign_spec in H as (src & w1 & Hsrc & _ & _ & _ & Hr).
  destruct (Hr r eq_refl)
    as (Hadded & Hreq & Havail & _ & doc & Hlast & Hkept & Hd1 & Hd2 & Hd3
        & _ & Hstore).
  apply sourceContacts_spec in Hsrc
    as (src' & P & S & [= <-] & _ & HP & HS & HPb & HSb & _).
  pose proof (selection_length_le src config Hcount) as Hsel.
  pose proof (slice_length_le (primaryContacts src ++ secondaryContacts src)
                0 (count config)) as Hall.
  assert (len (primaryContacts src ++ secondaryContacts src)
          <= primaryBeforeFilter src + secondaryBeforeFilter src) as Hbefore.
  { rewrite HP, HS, HPb, HSb. unfold len at 1. rewrite length_app.
    pose proof (unused_length w P). pose proof (unused_length w S).
    unfold len in *. lia. }
  split; [lia|]. split; [lia|]. exists doc.
  rewrite Hd1, Hd2, Hd3, Hstore, last_snoc.
  repeat split; try done; lia.
Qed.

Lemma added_within_bounds_witness :
  exists r w',
    processSingleCampaign
      (scriptedEnv [pageOf [1; 2] None; listCreated "71"; accepted; accepted;
                    accepted; accepted] 1000)
      2 (campaignOf 5 None) "today" "BAU" freshWorld
    = Some (Return r, w')
    /\ CampaignResult.contactCount r <= CampaignResult.requestedCount r
    /\ CampaignResult.contactCount r <= CampaignResult.availableCount r.
Proof.
  eexists _, _. split; [vm_compute; reflexivity|].
  edestruct (added_within_requested_and_available
               (scriptedEnv [pageOf [1; 2] None; listCreated "71"; accepted;
                             accepted; accepted; accepted] 1000)
               2 (campaignOf 5 None) "today" "BAU" freshWorld)
    as (H1 & H2 & _); [vm_compute; discriminate | vm_compute; reflexivity |].
  split; [exact H1 | exact H2].
Defined.

(** C3, as stated, fails: a campaign that requests 5 contacts from a list
    of 2 adds 2, requests 5 and has 2 available. *)
Lemma requested_may_exceed_available :
  exists r w',
    processSingleCampaign
      (scriptedEnv [pageOf [1; 2] None; listCreated "71"; accepted; accepted;
                    accepted; accepted] 1000)
      2 (campaignOf 5 None) "today" "BAU" freshWorld
    = Some (Return r, w')
    /\ CampaignResult.contactCount r = 2
    /\ CampaignResult.requestedCount r = 5
    /\ CampaignResult.availableCount r = 2
    /\ last (store w') = Some (CampaignResult.createdList r)
    /\ ~ (CampaignResult.contactCount r <= CampaignResult.requestedCount r
          <= CampaignResult.availableCount r).
Proof.
  eexists _, _. split; [vm_compute; reflexivity|]. simpl.
  repeat split; try reflexivity. lia.
Qed.

(** C10: the selection of a campaign with a non-negative requested count is
    the first [count] elements of the unused primary contacts followed by
    the unused secondary contacts, as fetched; nothing removes from the
    secondary contacts those that the primary list holds as well: when both
    lists hold contact 1, the selection, the membership-add payload and the
    count added all have it twice. *)
Theorem selection_is_prefix_of_both_lists :
  (forall env fuel config daysFilter modeFilter w o w',
     0 <= count config ->
     processSingleCampaign env fuel config daysFilter modeFilter w
     = Some (o, w') ->
     exists P S w1,
       Fetched env fuel config w P S w1
       /\ selections w'
          = selections w
            ++ [take (Z.to_nat (count config)) (unused w P ++ unused w S)])
  /\ (exists env config P S w1 r w',
        Fetched env 2 config freshWorld P S w1
        /\ 1 ∈ P /\ 1 ∈ S
        /\ processSingleCampaign env 2 config "today" "BAU" freshWorld
           = Some (Return r, w')
        /\ selections w' = [[1; 1; 2]]
        /\ PutMembershipsAdd "71" ["1"; "1"; "2"] ∈ events w'
        /\ CampaignResult.contactCount r = 3).
Proof.
  split.
  - intros env fuel config daysFilter modeFilter w o w' Hcount H.
    apply processSingleCampaign_spec in H as (src & w1 & Hsrc & Hsel & _).
    apply sourceContacts_spec in Hsrc
      as (src' & P & S & [= <-] & Hfetched & HP & HS & _).
    exists P, S, w1. split; [exact Hfetched|].
    by rewrite Hsel, HP, HS, slice_prefix.
  - exists (scriptedEnv [pageOf [1] None; pageOf [1; 2] None; listCreated "71";
                    accepted; accepted; accepted; accepted] 1000),
      (campaignOf 3 (Some "12")), [1], [1; 2].
    eexists _, _, _. split.
    { eapply fetched_both; [vm_compute; reflexivity | reflexivity
                           | by vm_compute | vm_compute; reflexivity]. }
    split; [apply list_elem_of_here|]. split; [apply list_elem_of_here|].
    split; [vm_compute; reflexivity|].
    split; [reflexivity|]. split; [|reflexivity].
    simpl. do 4 apply list_elem_of_further. apply list_elem_of_here.
Qed.

Lemma selection_is_prefix_witness :
  exists P S w1 w',
    Fetched
      (scriptedEnv [pageOf [1] None; pageOf [1; 2] None; listCreated "71";
                    accepted; accepted; accepted; accepted] 1000)
      2 (campaignOf 3 (Some "12")) freshWorld P S w1
    /\ selections w'
       = selections freshWorld
         ++ [take (Z.to_nat 3) (unused freshWorld P ++ unused freshWorld S)]
    /\ selections w' = [[1; 1; 2]].
Proof.
  destruct selection_is_prefix_of_both_lists as [H _].
  edestruct (H (scriptedEnv [pageOf [1] None; pageOf [1; 2] None;
                             listCreated "71"; accepted; accepted; accepted;
                             accepted] 1000)
               2%nat (campaignOf 3 (Some "12")) "today" "BAU" freshWorld)
    as (P & S & w1 & Hfetched & Hsel);
    [vm_compute; discriminate | vm_compute; reflexivity |].
  eexists P, S, w1, _. split; [exact Hfetched|]. split; [exact Hsel|].
  reflexivity.
Defined.

(** ** Fulfilment percentage *)

Lemma fulfillment_zero_requested selectedLength :
  fulfillment selectedLength 0 = 0.
Proof. reflexivity. Qed.

(** The percentage is rounded to the nearest integer, ties upwards, from
    the binary64 product. *)
Example fulfillment_values :
  fulfillment 2 3 = 67 /\ fulfillment 1 200 = 1 /\ fulfillment 1 3 = 33
  /\ fulfillment 3 3 = 100 /\ fulfillment 0 3 = 0.
Proof. repeat split; vm_compute; reflexivity. Qed.

(** The percentage of every result, and of the object passed to
    [CreatedList.create] with it, is computed from the length of the
    selection. *)
Lemma fulfillment_of_selection env fuel config daysFilter modeFilter w r w' :
  processSingleCampaign env fuel config daysFilter modeFilter w
  = Some (Return r, w') ->
  exists sel,
    last (selections w') = Some sel
    /\ CampaignResult.fulfillmentPercentage r
       = fulfillment (len sel) (count config)
    /\ exists doc,
         last (events w') = Some (CreatedListCreate doc)
         /\ CreatedListFields.fulfillmentPercentage doc
            = fulfillment (len sel) (count config).
Proof.
  intros H.
  apply processSingleCampaign_spec in H as (src & w1 & _ & Hsel & _ & _ & Hr).
  destruct (Hr r eq_refl)
    as (_ & _ & _ & Hpct & doc & Hlast & _ & _ & _ & _ & Hd & _).
  eexists. rewrite Hsel, last_snoc. split; [done|]. split; [done|].
  exists doc. split; [done|]. by rewrite Hd, Hpct.
Qed.

(** C1 at an input where the membership writes fail: three contacts are
    requested and selected, the three attempts to add them are rejected, so
    that 0 contacts are added; the result, and the object passed to
    [CreatedList.create] with it, still carry 100, where
    [round(0 / 3 * 100)] is 0. *)
Theorem fulfillment_ignores_failed_writes :
  exists r w',
    processSingleCampaign
      (scriptedEnv [pageOf [1; 2; 3] None; listCreated "71"; accepted;
                    serverError; serverError; serverError; accepted;
                    accepted] 1000)
      2 (campaignOf 3 None) "today" "BAU" freshWorld
    = Some (Return r, w')
    /\ CampaignResult.contactCount r = 0
    /\ CampaignResult.requestedCount r = 3
    /\ CampaignResult.fulfillmentPercentage r = 100
    /\ fulfillment (CampaignResult.contactCount r)
         (CampaignResult.requestedCount r) = 0
    /\ last (store w') = Some (CampaignResult.createdList r)
    /\ exists doc,
         last (events w') = Some (CreatedListCreate doc)
         /\ CampaignResult.createdList r = keptBySchema doc
         /\ CreatedListFields.contactCount doc = 0
         /\ CreatedListFields.requestedCount doc = 3
         /\ CreatedListFields.fulfillmentPercentage doc = 100.
Proof.
  eexists _, _. split; [vm_compute; reflexivity|].
  do 5 (split; [vm_compute; reflexivity|]).
  eexists. split; [vm_compute; reflexivity|].
  repeat split; vm_compute; reflexivity.
Qed.

(** ** Batch sizes of the membership writer *)

(** C2 at 650 contacts: [progressiveChunks] cuts the array into chunks of
    300, 300 and 50, and [addContactsToList] sends these three batches; the
    sizes 100, 50 and 1 of the scheme are never used, since the loop of the
    first size runs to the end of the array. *)
Theorem progressive_chunks_of_650 :
  length <$> progressiveChunks (seqZ 1 650) = [300; 300; 50]%nat
  /\ exists w',
       addContactsToList
         (scriptedEnv [accepted; accepted; accepted] 1000) "71"
         (Some (seqZ 1 650)) true freshWorld
       = Some (Return 650, w')
       /\ batchSizes (events w') = [300; 300; 50]%nat.
Proof.
  split; [vm_compute; reflexivity|].
  eexists. split; vm_compute; reflexivity.
Qed.


(** ** More on the paginated list reader *)

Lemma uniqueFrom_id seen arr :
  NoDup arr -> (forall x, x ∈ arr -> x ∉ seen) -> uniqueFrom seen arr = arr.
Proof.
  revert seen. induction arr as [|y arr IH]; intros seen Hnd Hseen; simpl;
    [done|].
  apply NoDup_cons in Hnd as [Hy Hnd].
  destruct (decide (y ∈ seen)) as [Hin|_].
  - exfalso. apply (Hseen y); [apply list_elem_of_here | done].
  - f_equal. apply IH; [done|]. intros x Hx.
    rewrite elem_of_union, elem_of_singleton. intros [->|Hin]; [done|].
    apply (Hseen x); [by apply list_elem_of_further | done].
Qed.

Lemma unique_length arr : len (unique arr) <= len arr.
Proof.
  unfold len, unique.
  pose proof (sublist_length _ _ (uniqueFrom_sublist ∅ arr)). lia.
Qed.

(** One iteration of the read loop that does not throw: the page was
    received, or the request failed and the contacts are as before. *)
Lemma page_step_inv env listId maxCount st w flow st' w' :
  tryCatch (fetchPage env listId maxCount (attempted st))
    (onPageError env listId (attempted st)) w
  = Some (Return (flow, st'), w') ->
  calls w' = S (calls w)
  /\ ((exists body,
         reply env (calls w) = Resolved body
         /\ allContacts st'
            = match maxCount with
              | Finite m =>
                  if negb (len (allContacts st ++ results body) <? m)
                  then slice (allContacts st ++ results body) 0 m
                  else allContacts st ++ results body
              | Infinity => allContacts st ++ results body
              end)
      \/ (exists status message,
            reply env (calls w) = Rejected status message
            /\ allContacts st' = allContacts st)).
Proof.
  unfold tryCatch, fetchPage, bind at 1, await.
  destruct (reply env (calls w)) as [body|status message] eqn:Hreply.
  - intros H. assert (calls w' = S (calls w)
                      /\ allContacts st'
                         = match maxCount with
                           | Finite m =>
                               if negb (len (allContacts st ++ results body)
                                        <? m)
                               then slice (allContacts st ++ results body) 0 m
                               else allContacts st ++ results body
                           | Infinity => allContacts st ++ results body
                           end) as [Hc Ha]; [|split; [done|left; eauto]].
    change (allContacts (attempted st)) with (allContacts st) in H.
    destruct maxCount as [m|].
    + destruct (negb (len (allContacts st ++ results body) <? m)).
      * unfold ret in H. by injection H as <- <- <-.
      * destruct (bool_decide (is_Some (nextAfter body)) && _);
          unfold bind, sleep, ret in H; by injection H as <- <- <-.
    + destruct (bool_decide (is_Some (nextAfter body)) && _);
        unfold bind, sleep, ret in H; by injection H as <- <- <-.
  - unfold onPageError.
    destruct (bool_decide _ && _);
      [|destruct ((0 <? len (allContacts (attempted st))) && _);
        [|destruct ((len (allContacts (attempted st)) =? 0) && _)]];
      unfold bind, sleep, ret, throw; intros H; try discriminate;
      injection H as <- <- <-; (split; [done|right; eauto]).
Qed.

Lemma pageLoop_invariant env listId maxCount (I : Reader -> World -> Prop) :
  (forall st w flow st' w',
     I st w ->
     hasMore st && ltLimit (len (allContacts st)) maxCount = true ->
     tryCatch (fetchPage env listId maxCount (attempted st))
       (onPageError env listId (attempted st)) w
     = Some (Return (flow, st'), w') ->
     I st' w') ->
  forall fuel st w st' w',
    I st w ->
    pageLoop env fuel listId maxCount st w = Some (Return st', w') ->
    I st' w'.
Proof.
  intros Hstep. induction fuel as [|fuel IH]; intros st w st' w' HI H;
    simpl in H;
    destruct (hasMore st && ltLimit (len (allContacts st)) maxCount) eqn:Hc;
    try discriminate; try (injection H as <- <-; exact HI).
  apply bind_inv in H as [([flow st1] & w1 & H1 & H2)|(e & _ & ?)]; [|done].
  specialize (Hstep _ _ _ _ _ HI Hc H1).
  destruct flow; [by apply (IH st1 w1)|]. by injection H2 as <- <-.
Qed.

(** What the reader returns is the de-duplicated array of contacts that the
    loop ended with. *)
Lemma readFrom_returns env fuel listId maxCount st w l w' :
  readFrom env fuel listId maxCount st w = Some (Return l, w') ->
  exists st', pageLoop env fuel listId maxCount st w = Some (Return st', w')
              /\ l = unique (allContacts st').
Proof.
  unfold readFrom. intros H.
  apply bind_inv in H as [(st' & w1 & H1 & H2)|(e & _ & ?)]; [|done].
  exists st'. unfold finishRead, getContactsFromLegacyList in H2.
  destruct (v3Success st' && (len (allContacts st') =? 0)
            && negb (isLegacyList st'));
    [|destruct (isLegacyList st')];
    unfold bind, tryCatch, throw, ret in H2; try discriminate;
    injection H2 as <- <-; done.
Qed.

(** X1: the array that [getContactsFromList] returns has no duplicates and,
    for a finite [maxCount], at most [max(0, maxCount)] elements; each of
    its elements is a record id of a page that one of the calls of this read
    resolved with. *)
Theorem reader_result_unique_capped_received env fuel listId maxCount w l w' :
  getContactsFromList env fuel listId maxCount w = Some (Return l, w') ->
  NoDup l
  /\ (forall m, maxCount = Finite m -> len l <= Z.max 0 m)
  /\ (forall x, x ∈ l ->
        exists i body,
          (calls w <= i < calls w')%nat
          /\ reply env i = Resolved body /\ x ∈ results body).
Proof.
  unfold getContactsFromList. intros H.
  apply readFrom_returns in H as (st' & Hloop & ->).
  split; [apply uniqueFrom_NoDup|].
  assert ((forall m, maxCount = Finite m -> len (allContacts st') <= Z.max 0 m)
          /\ (calls w <= calls w')%nat
          /\ forall x, x ∈ allContacts st' ->
               exists i body,
                 (calls w <= i < calls w')%nat
                 /\ reply env i = Resolved body /\ x ∈ results body)
    as (Hcap & _ & Hfrom).
  { revert Hloop.
    apply (pageLoop_invariant env listId maxCount
             (λ st w1,
                (forall m, maxCount = Finite m ->
                           len (allContacts st) <= Z.max 0 m)
                /\ (calls w <= calls w1)%nat
                /\ forall x, x ∈ allContacts st ->
                     exists i body,
                       (calls w <= i < calls w1)%nat
                       /\ reply env i = Resolved body /\ x ∈ results body)).
    - intros st w1 flow st1 w2 (Hcap & Hle & Hfrom) Hcond Hstep.
      apply page_step_inv in Hstep
        as [Hcalls [(body & Hr & Hall)|(s & msg & Hr & Hall)]].
      + assert (forall x, x ∈ allContacts st ++ results body ->
                  exists i body0,
                    (calls w <= i < calls w2)%nat
                    /\ reply env i = Resolved body0 /\ x ∈ results body0)
          as Hfrom'.
        { intros x Hx. apply elem_of_app in Hx as [Hx|Hx].
          - destruct (Hfrom x Hx) as (i & b & ? & ? & ?).
            exists i, b. split; [lia|done].
          - exists (calls w1), body. split; [lia|done]. }
        split; [|split; [lia|]].
        * intros m ->. rewrite Hall.
          apply andb_true_iff in Hcond as [_ Hlt]. simpl in Hlt.
          apply Z.ltb_lt in Hlt. unfold len in Hlt.
          destruct (Z.ltb_spec (len (allContacts st ++ results body)) m);
            simpl.
          -- lia.
          -- rewrite slice_prefix by lia. unfold len.
             rewrite length_take. lia.
        * intros x Hx. apply Hfrom'. rewrite Hall in Hx.
          destruct maxCount as [m|]; [|done].
          destruct (negb _); [by apply slice_subseteq in Hx | done].
      + split; [|split; [lia|]].
        * intros m Hm. rewrite Hall. by apply Hcap.
        * intros x Hx. rewrite Hall in Hx.
          destruct (Hfrom x Hx) as (i & b & ? & ? & ?).
          exists i, b. split; [lia|done].
    - split; [|split; [lia|]].
      + intros m _. change (len (allContacts initialReader)) with 0. lia.
      + intros x Hx. by apply elem_of_nil in Hx. }
  split.
  - intros m Hm. pose proof (unique_length (allContacts st')).
    specialize (Hcap m Hm). lia.
  - intros x Hx. apply Hfrom.
    by apply uniqueFrom_elem in Hx as [Hx _].
Qed.

Lemma reader_result_witness :
  exists l w',
    getContactsFromList
      (scriptedEnv [pageOf [1; 2; 1] (Some "c"); pageOf [2; 3] None] 1000)
      3 "11" (Finite 3) freshWorld
    = Some (Return l, w')
    /\ l = [1; 2] /\ NoDup l /\ len l <= Z.max 0 3.
Proof.
  eexists _, _. split; [vm_compute; reflexivity|]. split; [reflexivity|].
  edestruct (reader_result_unique_capped_received
               (scriptedEnv [pageOf [1; 2; 1] (Some "c"); pageOf [2; 3] None]
                  1000)
               3 "11" (Finite 3) freshWorld) as (Hnd & Hcap & _);
    [vm_compute; reflexivity|].
  split; [exact Hnd | exact (Hcap 3 eq_refl)].
Defined.

Lemma ltLimit_mono n n' maxCount :
  n <= n' -> ltLimit n' maxCount = true -> ltLimit n maxCount = true.
Proof.
  destruct maxCount as [m|]; simpl; [|done].
  rewrite !Z.ltb_lt. lia.
Qed.

Lemma fetchPage_resolved env listId maxCount st w body :
  reply env (calls w) = Resolved body ->
  ltLimit (len (allContacts st ++ results body)) maxCount = true ->
  fetchPage env listId maxCount st w
  = Some (Return
            (Continue,
             {| allContacts := allContacts st ++ results body;
                hasMore := bool_decide (is_Some (nextAfter body));
                after := nextAfter body; consecutiveErrors := 0;
                totalAttempts := totalAttempts st;
                isLegacyList := isLegacyList st; v3Success := true |}),
          if bool_decide (is_Some (nextAfter body))
          then afterTimer env 200
                 (afterCall env (membershipsRequest env listId maxCount st) w)
          else afterCall env (membershipsRequest env listId maxCount st) w).
Proof.
  intros Hreply Hroom. unfold fetchPage.
  rewrite (bind_return _ _ _ _ _ (await_resolved _ _ _ _ Hreply)).
  rewrite Hroom, andb_true_r.
  destruct maxCount as [m|].
  - simpl in Hroom. rewrite Hroom. simpl negb. cbv iota.
    by destruct (bool_decide (is_Some (nextAfter body))).
  - by destruct (bool_decide (is_Some (nextAfter body))).
Qed.

Lemma readFrom_pages env listId maxCount pages lastIds :
  forall st w fuel,
  hasMore st = true ->
  isLegacyList st = false ->
  (forall i ids next, pages !! i = Some (ids, next) ->
     exists body,
       reply env (calls w + i) = Resolved body
       /\ results body = ids /\ nextAfter body = Some next) ->
  (exists body,
     reply env (calls w + length pages) = Resolved body
     /\ results body = lastIds /\ nextAfter body = None) ->
  ltLimit (len (allContacts st ++ concat pages.*1 ++ lastIds)) maxCount
  = true ->
  (length pages < fuel)%nat ->
  exists w',
    readFrom env fuel listId maxCount st w
    = Some (Return (unique (allContacts st ++ concat pages.*1 ++ lastIds)),
            w')
    /\ events w'
       = events w
         ++ pageTrace env listId maxCount (allContacts st) (after st) pages
    /\ calls w' = (calls w + S (length pages))%nat.
Proof.
  induction pages as [|[ids next] pages IH];
    intros st w fuel Hmore Hleg Hpages Hlast Hroom Hfuel.
  - destruct Hlast as (body & Hreply & Hids & Hnext).
    simpl in Hreply. rewrite Nat.add_0_r in Hreply.
    simpl concat in *. simpl in Hroom.
    destruct fuel as [|fuel]; [simpl in Hfuel; lia|].
    assert (ltLimit (len (allContacts st)) maxCount = true) as Hcond
      by (eapply ltLimit_mono; [|exact Hroom];
          unfold len; rewrite !length_app; lia).
    eexists. split; [|split].
    + unfold readFrom. simpl pageLoop. rewrite Hmore, Hcond.
      simpl andb. cbv iota. unfold bind at 1. unfold bind at 1.
      erewrite tryCatch_return
        by (apply fetchPage_resolved; [exact Hreply | by rewrite Hids]).
      rewrite Hnext, Hids. simpl bool_decide. cbv iota beta.
      destruct fuel; simpl pageLoop; cbv iota;
        unfold ret at 1; cbv iota beta;
        unfold finishRead, getContactsFromLegacyList; simpl;
        destruct (len (allContacts st ++ lastIds) =? 0) eqn:E;
        rewrite ?Hleg; simpl; try reflexivity;
        apply Z.eqb_eq in E; unfold len in E;
        by destruct (allContacts st ++ lastIds).
    + simpl. reflexivity.
    + simpl. lia.
  - destruct (Hpages 0%nat ids next eq_refl) as (body & Hreply & Hids & Hnext).
    rewrite Nat.add_0_r in Hreply.
    simpl concat in *. simpl fmap in *.
    destruct fuel as [|fuel]; [simpl in Hfuel; lia|].
    set (st1 := {| allContacts := allContacts st ++ ids;
                   hasMore := true; after := Some next;
                   consecutiveErrors := 0;
                   totalAttempts := totalAttempts st + 1;
                   isLegacyList := isLegacyList st; v3Success := true |}).
    set (w1 := afterTimer env 200
                 (afterCall env (membershipsRequest env listId maxCount st) w)).
    destruct (IH st1 w1 fuel) as (w' & Hrun & Hev & Hcalls);
      [reflexivity | exact Hleg | | | | simpl in Hfuel; lia |].
    { intros i ids' next' Hi.
      destruct (Hpages (S i) ids' next' Hi) as (b & Hb & ? & ?).
      exists b. split; [|done]. simpl. by rewrite <- Nat.add_succ_r. }
    { destruct Hlast as (b & Hb & ? & ?). exists b. split; [|done].
      simpl. simpl in Hb. by rewrite <- Nat.add_succ_r. }
    { simpl. rewrite <- !app_assoc. by rewrite <- !app_assoc in Hroom. }
    assert (ltLimit (len (allContacts st)) maxCount = true) as Hcond
      by (eapply ltLimit_mono; [|exact Hroom];
          unfold len; rewrite !length_app; lia).
    exists w'. split; [|split].
    + simpl allContacts in Hrun. rewrite <- !app_assoc in Hrun.
      rewrite <- !app_assoc. etrans; [|exact Hrun].
      unfold readFrom. simpl pageLoop.
      rewrite Hmore, Hcond.
      simpl andb. cbv iota. unfold bind at 1. unfold bind at 1.
      erewrite tryCatch_return.
      2: { apply fetchPage_resolved; [exact Hreply|]. rewrite Hids.
           simpl allContacts. eapply ltLimit_mono; [|exact Hroom].
           unfold len. rewrite !length_app. lia. }
      rewrite Hnext, Hids. simpl bool_decide. cbv iota beta. reflexivity.
    + rewrite Hev. simpl. rewrite <- !app_assoc. reflexivity.
    + rewrite Hcalls. simpl. lia.
Qed.

(** X2: when every page request of a read resolves, the pages before the
    last carrying a cursor and the last none, and the record ids received
    stay below [maxCount], [getContactsFromList] returns the ids of all
    pages in the order received, each id once (an empty array when the pages
    hold no id: the legacy fallback is tried and its error is swallowed); it
    makes one request per page, each with the cursor of the page before it,
    and waits 200 ms after every page but the last. *)
Theorem paginated_read_returns_all_pages env listId maxCount pages lastIds
    w fuel :
  (forall i ids next, pages !! i = Some (ids, next) ->
     exists body,
       reply env (calls w + i) = Resolved body
       /\ results body = ids /\ nextAfter body = Some next) ->
  (exists body,
     reply env (calls w + length pages) = Resolved body
     /\ results body = lastIds /\ nextAfter body = None) ->
  ltLimit (len (concat pages.*1 ++ lastIds)) maxCount = true ->
  (length pages < fuel)%nat ->
  exists w',
    getContactsFromList env fuel listId maxCount w
    = Some (Return (unique (concat pages.*1 ++ lastIds)), w')
    /\ events w' = events w ++ pageTrace env listId maxCount [] None pages
    /\ calls w' = (calls w + S (length pages))%nat.
Proof.
  intros Hpages Hlast Hroom Hfuel.
  apply (readFrom_pages env listId maxCount pages lastIds initialReader w
           fuel); done.
Qed.

Lemma paginated_read_witness :
  exists w',
    getContactsFromList
      (scriptedEnv [pageOf [1; 2] (Some "a"); pageOf [2; 3] (Some "b");
                    pageOf [4] None] 1000)
      3 "11" Infinity freshWorld
    = Some (Return (unique (concat [([1; 2], "a"); ([2; 3], "b")].*1 ++ [4])),
            w')
    /\ events w'
       = events freshWorld
         ++ pageTrace
              (scriptedEnv [pageOf [1; 2] (Some "a"); pageOf [2; 3] (Some "b");
                            pageOf [4] None] 1000)
              "11" Infinity [] None [([1; 2], "a"); ([2; 3], "b")]
    /\ calls w' = (calls freshWorld + 3)%nat.
Proof.
  apply (paginated_read_returns_all_pages
           (scriptedEnv [pageOf [1; 2] (Some "a"); pageOf [2; 3] (Some "b");
                         pageOf [4] None] 1000)
           "11" Infinity [([1; 2], "a"); ([2; 3], "b")] [4] freshWorld 3).
  - intros [|[|i]] ids next [= <- <-]; eexists; repeat split; reflexivity.
  - eexists. repeat split; reflexivity.
  - reflexivity.
  - simpl. lia.
Defined.

(** The read of the example returns 1, 2, 3 and 4. *)
Example paginated_read_value :
  unique (concat [([1; 2], "a"); ([2; 3], "b")].*1 ++ [4]) = [1; 2; 3; 4].
Proof. reflexivity. Qed.

(** ** Kinds of events *)

#[local] Instance emits_preorder P : PreOrder (emits P).
Proof.
  split.
  - intros w. exists []. by rewrite app_nil_r.
  - intros a b c (evs1 & H1 & HP1) (evs2 & H2 & HP2).
    exists (evs1 ++ evs2). rewrite H2, H1, app_assoc. split; [done|].
    by apply Forall_app.
Qed.

Lemma emits_await env P ev : P ev -> Frames (emits P) (await env ev).
Proof.
  intros HP w o w'. unfold await.
  destruct (reply env (calls w)); intros [= <- <-]; exists [ev];
    (split; [done|by constructor]).
Qed.

Lemma emits_sleep env P ms :
  P (SetTimeout ms) -> Frames (emits P) (sleep env ms).
Proof.
  intros HP w o w' [= <- <-]. exists [SetTimeout ms].
  split; [done|by constructor].
Qed.

Lemma emits_silent P {A} (m : Async A) :
  (forall w o w', m w = Some (o, w') -> events w' = events w) ->
  Frames (emits P) m.
Proof.
  intros Hm w o w' H. exists []. rewrite app_nil_r.
  split; [by apply (Hm w o w')|constructor].
Qed.

Lemma emits_weaken (P Q : Event -> Prop) {A} (m : Async A) :
  (forall ev, P ev -> Q ev) -> Frames (emits P) m -> Frames (emits Q) m.
Proof.
  intros HPQ Hm w o w' H. destruct (Hm w o w' H) as (evs & Hev & HP).
  exists evs. split; [done|]. eapply Forall_impl; [exact HP|exact HPQ].
Qed.

(** Decompose an [emits] goal along the code; the kind of each event is
    decided by computation. *)
Ltac emits_step :=
  match goal with
  | |- Frames (emits _) (await _ _) =>
      apply emits_await; solve [simpl; auto]
  | |- Frames (emits _) (sleep _ _) =>
      apply emits_sleep; solve [simpl; auto]
  | |- Frames (emits _) dateNow => apply emits_silent; by intros ??? [= _ <-]
  | |- Frames (emits _) (filterUnused _) =>
      apply emits_silent; by intros ??? [= _ <-]
  | |- Frames _ _ => frames_step
  end.

Ltac emits := repeat emits_step.

Lemma readsOnly_pageLoop env fuel listId maxCount st :
  Frames (emits (readsOnly listId)) (pageLoop env fuel listId maxCount st).
Proof.
  revert st. induction fuel as [|fuel IH]; intros st; simpl.
  - emits.
  - destruct (_ && _); [|emits].
    apply frames_bind; [typeclasses eauto| |].
    + apply frames_tryCatch; [typeclasses eauto| |].
      * unfold fetchPage, membershipsRequest. emits.
      * intros e. unfold onPageError. emits.
    + intros [[|] st']; [apply IH|emits].
Qed.

Lemma readsOnly_getContactsFromList env fuel listId maxCount :
  Frames (emits (readsOnly listId))
    (getContactsFromList env fuel listId maxCount).
Proof.
  unfold getContactsFromList, readFrom.
  apply frames_bind; [typeclasses eauto|apply readsOnly_pageLoop|].
  intros st. unfold finishRead, getContactsFromLegacyList. emits.
Qed.

(** X3: whatever the remote replies are and however the read ends, a read
    of list [listId] makes no request but page requests for that list (and
    sets timers): it writes nothing and reads no other list. *)
Theorem reader_only_reads_its_list env fuel listId maxCount w o w' :
  getContactsFromList env fuel listId maxCount w = Some (o, w') ->
  exists evs,
    events w' = events w ++ evs /\ Forall (readsOnly listId) evs.
Proof. apply readsOnly_getContactsFromList. Qed.

Lemma reader_only_reads_witness :
  exists o w' evs,
    getContactsFromList
      (scriptedEnv [pageOf [1; 2; 1] (Some "cursor"); serverError;
                    serverError; serverError] 1000)
      4 "11" Infinity freshWorld
    = Some (o, w')
    /\ events w' = events freshWorld ++ evs
    /\ Forall (readsOnly "11") evs.
Proof.
  eexists _, _.
  edestruct (reader_only_reads_its_list
               (scriptedEnv [pageOf [1; 2; 1] (Some "cursor"); serverError;
                             serverError; serverError] 1000)
               4 "11" Infinity freshWorld) as (evs & Hev & Hall);
    [vm_compute; reflexivity|].
  exists evs. split; [vm_compute; reflexivity|]. split; [exact Hev|exact Hall].
Defined.

(** ** The remote list manager *)

(** X4: [createHubSpotList] makes the create call once.  A rejected call is
    rethrown as it is; a response without [listId] throws without any
    further call; with a [listId] the list is returned whatever becomes of
    the search for its legacy id, which is [null] when that search is
    rejected or yields none. *)
Theorem createHubSpotList_outcomes env name w :
  (forall status message,
     reply env (calls w) = Rejected status message ->
     createHubSpotList env name w
     = Some (Throw (RemoteError status message),
             afterCall env (PostList name) w))
  /\ (forall body,
        reply env (calls w) = Resolved body ->
        bodyListId body = None ->
        createHubSpotList env name w
        = Some (Throw
                  (PlainError
                     "List created but listId not returned from HubSpot API"),
                afterCall env (PostList name) w))
  /\ (forall body listId,
        reply env (calls w) = Resolved body ->
        bodyListId body = Some listId ->
        createHubSpotList env name w
        = Some (Return
                  {| RemoteList.listId := listId;
                     RemoteList.legacyListId :=
                       match reply env (S (calls w)) with
                       | Resolved found => classicListId found
                       | Rejected _ _ => None
                       end;
                     RemoteList.deleted := bodyDeleted body |},
                afterCall env (PostListSearch listId)
                  (afterCall env (PostList name) w))).
Proof.
  unfold createHubSpotList. split; [|split].
  - intros status message H.
    by erewrite tryCatch_throw by (eapply bind_throw, await_rejected, H).
  - intros body H Hid.
    erewrite tryCatch_throw; [reflexivity|].
    rewrite (bind_return _ _ _ _ _ (await_resolved _ _ _ _ H)).
    by rewrite Hid.
  - intros body listId H Hid.
    erewrite tryCatch_return; [reflexivity|].
    rewrite (bind_return _ _ _ _ _ (await_resolved _ _ _ _ H)), Hid.
    unfold bind, getLegacySegmentId, tryCatch, bind, await, ret.
    simpl calls. by destruct (reply env (S (calls w))).
Qed.

Lemma createHubSpotList_witness :
  createHubSpotList (scriptedEnv [listCreated "71"; serverError] 1000)
    "Acme - Autumn" freshWorld
  = Some (Return
            {| RemoteList.listId := "71"; RemoteList.legacyListId := None;
               RemoteList.deleted := None |},
          afterCall (scriptedEnv [listCreated "71"; serverError] 1000)
            (PostListSearch "71")
            (afterCall (scriptedEnv [listCreated "71"; serverError] 1000)
               (PostList "Acme - Autumn") freshWorld)).
Proof.
  destruct (createHubSpotList_outcomes
              (scriptedEnv [listCreated "71"; serverError] 1000)
              "Acme - Autumn" freshWorld) as (_ & _ & H).
  apply (H {| results := []; nextAfter := None; bodyListId := Some "71";
              bodyDeleted := None; processingType := Some "MANUAL";
              classicListId := None |} "71"); reflexivity.
Defined.

(** ** More on the membership writer *)

Lemma put_rejected env listId chunk w status message :
  reply env (calls w) = Rejected status message ->
  (await env (PutMembershipsAdd listId (stringIds chunk)) ;;
   sleep env 500 ;; ret (len chunk)) w
  = Some (Throw (RemoteError status message),
          afterCall env (PutMembershipsAdd listId (stringIds chunk)) w).
Proof. intros H. by rewrite (bind_throw _ _ _ _ _ (await_rejected _ _ _ _ _ H)). Qed.

Lemma put_resolved env listId chunk w body :
  reply env (calls w) = Resolved body ->
  (await env (PutMembershipsAdd listId (stringIds chunk)) ;;
   sleep env 500 ;; ret (len chunk)) w
  = Some (Return (len chunk),
          afterTimer env 500
            (afterCall env (PutMembershipsAdd listId (stringIds chunk)) w)).
Proof. intros H. by rewrite (bind_return _ _ _ _ _ (await_resolved _ _ _ _ H)). Qed.

Lemma sendChunk_retries env listId chunk (j : nat) :
  forall attemptsLeft retries w,
  attemptsLeft = Z.to_nat (MAX_RETRIES env - retries) ->
  (j < attemptsLeft)%nat ->
  (forall i, (i < j)%nat ->
     exists status message, reply env (calls w + i) = Rejected status message) ->
  (exists body, reply env (calls w + j) = Resolved body) ->
  exists w',
    sendChunk env attemptsLeft retries listId chunk w
    = Some (Return (len chunk), w')
    /\ events w'
       = events w
         ++ putRetryTrace (PutMembershipsAdd listId (stringIds chunk))
              retries j
         ++ [PutMembershipsAdd listId (stringIds chunk); SetTimeout 500]
    /\ calls w' = (calls w + S j)%nat.
Proof.
  induction j as [|j IH]; intros attemptsLeft retries w Hleft Hj Hfail Hok.
  - destruct Hok as (body & Hbody). rewrite Nat.add_0_r in Hbody.
    destruct attemptsLeft as [|n]; [lia|]. simpl sendChunk.
    eexists. split; [|split].
    + erewrite tryCatch_return by (eapply put_resolved, Hbody). reflexivity.
    + simpl. by rewrite <- app_assoc.
    + simpl. lia.
  - destruct (Hfail 0%nat ltac:(lia)) as (status & message & Hrej).
    rewrite Nat.add_0_r in Hrej.
    destruct attemptsLeft as [|n]; [lia|]. simpl sendChunk.
    set (w1 := afterTimer env (chunkBackoff (retries + 1))
                 (afterCall env
                    (PutMembershipsAdd listId (stringIds chunk)) w)).
    destruct (IH n (retries + 1) w1) as (w' & Hrun & Hev & Hcalls);
      [lia | lia | | |].
    { intros i Hi. destruct (Hfail (S i) ltac:(lia)) as (s & m & Hr).
      exists s, m. simpl. by rewrite <- Nat.add_succ_r. }
    { destruct Hok as (body & Hbody). exists body. simpl.
      by rewrite <- Nat.add_succ_r. }
    exists w'. split; [|split].
    + erewrite tryCatch_throw by (eapply put_rejected, Hrej).
      replace (retries + 1 <? MAX_RETRIES env) with true
        by (symmetry; apply Z.ltb_lt; lia).
      rewrite <- Hrun. reflexivity.
    + rewrite Hev. simpl. by rewrite <- !app_assoc.
    + rewrite Hcalls. simpl. lia.
Qed.

Lemma sendChunk_gives_up env listId chunk (k : nat) :
  forall retries w,
  S k = Z.to_nat (MAX_RETRIES env - retries) ->
  (forall i, (i <= k)%nat ->
     exists status message, reply env (calls w + i) = Rejected status message) ->
  exists w',
    sendChunk env (S k) retries listId chunk w = Some (Return 0, w')
    /\ events w'
       = events w
         ++ putRetryTrace (PutMembershipsAdd listId (stringIds chunk))
              retries k
         ++ [PutMembershipsAdd listId (stringIds chunk)]
    /\ calls w' = (calls w + S k)%nat.
Proof.
  induction k as [|k IH]; intros retries w Hleft Hfail;
    destruct (Hfail 0%nat ltac:(lia)) as (status & message & Hrej);
    rewrite Nat.add_0_r in Hrej.
  - eexists. split; [|split].
    + simpl sendChunk.
      erewrite tryCatch_throw by (eapply put_rejected, Hrej).
      replace (retries + 1 <? MAX_RETRIES env) with false
        by (symmetry; apply Z.ltb_ge; lia).
      reflexivity.
    + reflexivity.
    + simpl. lia.
  - set (w1 := afterTimer env (chunkBackoff (retries + 1))
                 (afterCall env
                    (PutMembershipsAdd listId (stringIds chunk)) w)).
    destruct (IH (retries + 1) w1) as (w' & Hrun & Hev & Hcalls); [lia| |].
    { intros i Hi. destruct (Hfail (S i) ltac:(lia)) as (s & m & Hr).
      exists s, m. simpl. by rewrite <- Nat.add_succ_r. }
    exists w'. split; [|split].
    + rewrite <- Hrun. change (sendChunk env (S (S k)) retries listId chunk w)
        with (tryCatch
                (await env (PutMembershipsAdd listId (stringIds chunk)) ;;
                 sleep env 500 ;; ret (len chunk))
                (fun _ =>
                   (if retries + 1 <? MAX_RETRIES env
                    then sleep env (chunkBackoff (retries + 1))
                    else ret tt) ;;
                   sendChunk env (S k) (retries + 1) listId chunk) w).
      erewrite tryCatch_throw by (eapply put_rejected, Hrej).
      replace (retries + 1 <? MAX_RETRIES env) with true
        by (symmetry; apply Z.ltb_lt; lia).
      reflexivity.
    + rewrite Hev. simpl. by rewrite <- !app_assoc.
    + rewrite Hcalls. simpl. lia.
Qed.

(** ** More on the chunking functions *)

Lemma chunkWhile_Forall {A} (P : list A -> Prop) (arr : list A)
    (size index : nat) result :
  (forall c, c <> [] -> (length c <= size)%nat -> P c) ->
  Forall P result -> Forall P (chunkWhile arr size index result).1.
Proof.
  funelim (chunkWhile arr size index result); intros HP Hres; try done.
  clear Heqcall H0. apply H; [done|].
  apply Forall_app. split; [done|]. constructor; [|constructor].
  apply HP; [done|]. rewrite <- Hc, slice_nat, length_take. lia.
Qed.

Lemma chunkWhile_zero {A} (arr : list A) (index : nat) result :
  chunkWhile arr 0 index result = (result, index).
Proof.
  funelim (chunkWhile arr 0 index result); try done.
  exfalso. clear Heqcall H H0. rewrite slice_nat in Hc. done.
Qed.

Lemma progressive_fold_spec {A} (arr : list A) (sizes : list nat) :
  forall st,
  concat st.1 = take st.2 arr ->
  let st' :=
    foldl (fun '(result, index) size => chunkWhile arr size index result)
      st sizes in
  concat st'.1 = take st'.2 arr
  /\ (st.2 <= st'.2)%nat
  /\ (Exists (λ size, 0 < size)%nat sizes -> (length arr <= st'.2)%nat).
Proof.
  induction sizes as [|size sizes IH]; intros [result index] Hst; simpl.
  - split; [done|]. split; [lia|]. intros H. by apply Exists_nil in H.
  - destruct (chunkWhile_spec arr size index result Hst) as (H1 & H2 & H3).
    destruct (IH (chunkWhile arr size index result) H1) as (H4 & H5 & H6).
    split; [done|]. simpl in *. split; [lia|].
    intros Hex. apply Exists_cons in Hex as [Hpos|Hex]; [|by apply H6].
    specialize (H3 Hpos). lia.
Qed.

Lemma progressive_fold_Forall {A} (P : list A -> Prop) (arr : list A)
    (sizes : list nat) :
  (forall c size, size ∈ sizes -> c <> [] -> (length c <= size)%nat -> P c) ->
  forall st,
  Forall P st.1 ->
  Forall P
    (foldl (fun '(result, index) size => chunkWhile arr size index result)
       st sizes).1.
Proof.
  induction sizes as [|size sizes IH]; intros HP [result index] Hst; simpl;
    [done|].
  apply IH.
  - intros c s Hs. apply HP. by apply list_elem_of_further.
  - apply chunkWhile_Forall; [|done].
    intros c. apply HP. apply list_elem_of_here.
Qed.

(** X5: [progressiveChunks(arr, sizes)] never returns an empty chunk, and
    each chunk is no longer than one of the sizes; when a size is positive,
    the chunks concatenated are [arr] again (no element is lost, repeated or
    moved); when every size is 0, nothing is returned, whatever [arr]
    holds. *)
Theorem progressiveChunks_partition {A} (arr : list A) (sizes : list nat) :
  Forall (λ c, c <> [] /\ exists size, size ∈ sizes /\ (length c <= size)%nat)
    (progressiveChunksOf arr sizes)
  /\ (Exists (λ size, 0 < size)%nat sizes ->
      concat (progressiveChunksOf arr sizes) = arr)
  /\ (Forall (λ size, size = 0%nat) sizes -> progressiveChunksOf arr sizes = []).
Proof.
  unfold progressiveChunksOf. split; [|split].
  - apply progressive_fold_Forall; [|constructor].
    intros c size Hsize Hc Hlen. split; [done|]. eauto.
  - intros Hex.
    destruct (progressive_fold_spec arr sizes ([], 0%nat) eq_refl)
      as (H1 & _ & H3).
    rewrite H1. apply take_ge. by apply H3.
  - intros Hzero.
    assert (forall st,
              foldl (fun '(result, index) size =>
                       chunkWhile arr size index result) st sizes = st)
      as Hfold.
    { induction Hzero as [|size sizes -> _ IH]; intros [result index]; simpl;
        [done|].
      by rewrite chunkWhile_zero, IH. }
    by rewrite Hfold.
Qed.

Lemma progressiveChunks_partition_witness :
  concat (progressiveChunksOf [1; 2; 3; 4; 5] [2; 0; 1]%nat) = [1; 2; 3; 4; 5]
  /\ progressiveChunksOf [1; 2; 3; 4; 5] [0; 0]%nat = [].
Proof.
  split.
  - apply (progressiveChunks_partition [1; 2; 3; 4; 5] [2; 0; 1]%nat).
    apply Exists_cons_hd. lia.
  - apply (progressiveChunks_partition [1; 2; 3; 4; 5] [0; 0]%nat).
    repeat constructor.
Defined.

Lemma chunkArrayFrom_spec {A} (arr : list A) (size : positive) (i : nat)
    chunks :
  i = (Pos.to_nat size * length chunks)%nat ->
  concat chunks = take i arr ->
  Forall (λ c, 1 <= length c <= Pos.to_nat size)%nat chunks ->
  (chunks <> [] -> i < length arr + Pos.to_nat size)%nat ->
  let out := chunkArrayFrom arr size i chunks in
  concat out = arr
  /\ Forall (λ c, 1 <= length c <= Pos.to_nat size)%nat out
  /\ (length arr <= Pos.to_nat size * length out)%nat
  /\ (out <> [] ->
      Pos.to_nat size * length out < length arr + Pos.to_nat size)%nat.
Proof.
  funelim (chunkArrayFrom arr size i chunks);
    intros Hi Hcat Hall Hlast; simpl.
  - clear Heqcall. pose proof (Pos2Nat.is_pos size).
    apply H.
    + rewrite length_app. simpl. lia.
    + rewrite concat_app, Hcat. simpl. rewrite app_nil_r, slice_nat.
      apply take_take_drop.
    + apply Forall_app. split; [done|]. constructor; [|constructor].
      rewrite slice_nat, length_take, length_drop. lia.
    + intros _. lia.
  - split; [rewrite Hcat; apply take_ge; lia|].
    split; [done|]. split; [lia|]. intros Hne. specialize (Hlast Hne). lia.
Qed.

Lemma chunkArray_concat {A} (arr : list A) (size : positive) :
  concat (chunkArray arr size) = arr.
Proof.
  unfold chunkArray.
  by destruct (chunkArrayFrom_spec arr size 0 []) as (H1 & _);
    [simpl; lia | done | constructor | done |].
Qed.

Lemma chunkArray_length {A} (arr : list A) (size : positive) :
  length (chunkArray arr size)
  = ((length arr + Pos.to_nat size - 1) / Pos.to_nat size)%nat.
Proof.
  unfold chunkArray.
  destruct (chunkArrayFrom_spec arr size 0 []) as (_ & _ & H3 & H4);
    [simpl; lia | done | constructor | done |].
  pose proof (Pos2Nat.is_pos size).
  remember (chunkArrayFrom arr size 0 []) as out eqn:Hout. clear Hout.
  set (s := Pos.to_nat size) in *.
  destruct out as [|c out].
  - simpl in *. assert (length arr = 0%nat) as -> by lia.
    symmetry. apply Nat.div_small. lia.
  - specialize (H4 ltac:(done)). set (k := length (c :: out)) in *.
    apply (Nat.div_unique _ _ _ (length arr + s - 1 - s * k)); lia.
Qed.

(** X6: [chunkArray(arr, size)] cuts [arr] into consecutive chunks: the
    chunks concatenated are [arr], every chunk has between 1 and [size]
    elements, and there are [ceil(arr.length / size)] of them. *)
Theorem chunkArray_partition {A} (arr : list A) (size : positive) :
  concat (chunkArray arr size) = arr
  /\ Forall (λ c, 1 <= length c <= Pos.to_nat size)%nat (chunkArray arr size)
  /\ length (chunkArray arr size)
     = ((length arr + Pos.to_nat size - 1) / Pos.to_nat size)%nat.
Proof.
  split; [apply chunkArray_concat|]. split; [|apply chunkArray_length].
  unfold chunkArray.
  by destruct (chunkArrayFrom_spec arr size 0 []) as (_ & H2 & _);
    [simpl; lia | done | constructor | done |].
Qed.

Lemma progressiveChunks_single (contacts : list Z) :
  (0 < length contacts <= 300)%nat -> progressiveChunks contacts = [contacts].
Proof.
  intros Hlen.
  pose proof (progressiveChunks_concat contacts) as Hcat.
  assert (Forall (λ c, c <> [])
            (progressiveChunksOf contacts defaultSizes)) as Hall.
  { apply progressive_fold_Forall; [|constructor]. by intros c _ _ Hc _. }
  pose proof (progressiveChunks_uniform contacts 0) as Hfirst.
  unfold progressiveChunks in *.
  destruct (progressiveChunksOf contacts defaultSizes) as [|c rest].
  - simpl in Hcat. subst contacts. simpl in Hlen. lia.
  - specialize (Hfirst c eq_refl).
    rewrite Nat.mul_0_r, drop_0, take_ge in Hfirst by lia. subst c. f_equal.
    simpl in Hcat. rewrite <- (app_nil_r contacts) in Hcat at 2.
    apply app_inv_head in Hcat.
    apply Forall_cons in Hall as [_ Hall].
    destruct rest as [|c2 rest]; [done|].
    apply Forall_cons in Hall as [Hne _].
    simpl in Hcat. by destruct c2.
Qed.

(** X7: the retry policy of a batch, for an array of 1 to 300 contacts
    (one batch) written without verification.  If the first [j] attempts are
    rejected and the next one is accepted, with [j] below [MAX_RETRIES], all
    the contacts count as added; attempt number [n] that fails is followed
    by a delay of [min(1000 * 2^(n - 1), 5000)] ms and the accepted one by
    500 ms.  If [MAX_RETRIES] attempts in a row are rejected, the batch is
    given up without a delay after the last attempt and 0 is returned: the
    failure is not thrown. *)
Theorem batch_retry_policy env listId contacts w :
  (0 < length contacts <= 300)%nat ->
  (forall j,
     Z.of_nat j < MAX_RETRIES env ->
     (forall i, (i < j)%nat ->
        exists status message,
          reply env (calls w + i) = Rejected status message) ->
     (exists body, reply env (calls w + j) = Resolved body) ->
     exists w',
       addContactsToList env listId (Some contacts) true w
       = Some (Return (len contacts), w')
       /\ events w'
          = events w
            ++ putRetryTrace (PutMembershipsAdd listId (stringIds contacts))
                 0 j
            ++ [PutMembershipsAdd listId (stringIds contacts);
                SetTimeout 500])
  /\ (forall k,
        Z.of_nat (S k) = MAX_RETRIES env ->
        (forall i, (i <= k)%nat ->
           exists status message,
             reply env (calls w + i) = Rejected status message) ->
        exists w',
          addContactsToList env listId (Some contacts) true w
          = Some (Return 0, w')
          /\ events w'
             = events w
               ++ putRetryTrace
                    (PutMembershipsAdd listId (stringIds contacts)) 0 k
               ++ [PutMembershipsAdd listId (stringIds contacts)]).
Proof.
  intros Hlen.
  assert (addContactsToList env listId (Some contacts) true w
          = (let* added :=
               sendChunk env (Z.to_nat (MAX_RETRIES env)) 0 listId contacts in
             ret (0 + added)) w) as Hadd.
  { unfold addContactsToList.
    replace (len contacts =? 0) with false
      by (symmetry; apply Z.eqb_neq; unfold len; lia).
    rewrite (bind_return _ _ w false w) by done.
    by rewrite progressiveChunks_single. }
  rewrite Hadd. split.
  - intros j Hj Hfail Hok.
    destruct (sendChunk_retries env listId contacts j
                (Z.to_nat (MAX_RETRIES env)) 0 w)
      as (w' & Hrun & Hev & _); [f_equal; lia | lia | done | done |].
    exists w'. by rewrite (bind_return _ _ _ _ _ Hrun).
  - intros k Hk Hfail.
    destruct (sendChunk_gives_up env listId contacts k 0 w)
      as (w' & Hrun & Hev & _); [lia | done |].
    exists w'. replace (Z.to_nat (MAX_RETRIES env)) with (S k) by lia.
    by rewrite (bind_return _ _ _ _ _ Hrun).
Qed.

Lemma batch_retry_witness :
  exists w',
    addContactsToList
      (scriptedEnv [serverError; serverError; accepted] 1000) "71"
      (Some [1; 2]) true freshWorld
    = Some (Return 2, w')
    /\ events w'
       = [PutMembershipsAdd "71" ["1"; "2"]; SetTimeout 1000;
          PutMembershipsAdd "71" ["1"; "2"]; SetTimeout 2000;
          PutMembershipsAdd "71" ["1"; "2"]; SetTimeout 500].
Proof.
  destruct (batch_retry_policy
              (scriptedEnv [serverError; serverError; accepted] 1000) "71"
              [1; 2] freshWorld) as [H _]; [simpl; lia|].
  apply (H 2%nat).
  - simpl. lia.
  - intros [|[|i]] Hi; [eexists _, _; reflexivity..|lia].
  - eexists. reflexivity.
Defined.

(** The delays of the example are 1000 and 2000 ms. *)
Example batch_retry_delays :
  putRetryTrace (PutMembershipsAdd "71" ["1"; "2"]) 0 2
  = [PutMembershipsAdd "71" ["1"; "2"]; SetTimeout 1000;
     PutMembershipsAdd "71" ["1"; "2"]; SetTimeout 2000].
Proof. reflexivity. Qed.

Lemma sendChunks_accepted env listId chunks :
  forall successCount w,
  1 <= MAX_RETRIES env ->
  (forall i, (i < length chunks)%nat ->
     exists body, reply env (calls w + i) = Resolved body) ->
  exists w',
    sendChunks env listId chunks successCount w
    = Some (Return (successCount + len (concat chunks)), w')
    /\ events w' = events w ++ acceptedTrace listId chunks.
Proof.
  induction chunks as [|chunk rest IH]; intros successCount w Hmax Hok.
  - exists w. simpl. unfold ret, len, acceptedTrace. simpl.
    by rewrite Z.add_0_r, app_nil_r.
  - destruct (sendChunk_retries env listId chunk 0
                (Z.to_nat (MAX_RETRIES env)) 0 w)
      as (w1 & Hrun & Hev & Hcalls);
      [f_equal; lia | lia | intros i Hi; lia | |].
    { apply (Hok 0%nat). simpl. lia. }
    destruct (IH (successCount + len chunk) w1 Hmax) as (w' & Hrest & Hev').
    { intros i Hi. rewrite Hcalls.
      destruct (Hok (S i) ltac:(simpl; lia)) as (body & Hbody).
      exists body. rewrite <- Hbody. f_equal. lia. }
    exists w'. split.
    + simpl sendChunks. rewrite (bind_return _ _ _ _ _ Hrun), Hrest.
      do 3 f_equal. unfold len. simpl. rewrite length_app. lia.
    + rewrite Hev', Hev. unfold acceptedTrace. simpl.
      by rewrite <- !app_assoc.
Qed.

(** X8: when [MAX_RETRIES] is at least 1 and every add call is accepted,
    [addContactsToList] without verification returns the number of contacts;
    it sends one call per batch, each followed by 500 ms, and the batches
    are the contacts in their order, each contact in one batch. *)
Theorem all_batches_accepted env listId contacts w :
  contacts <> [] ->
  1 <= MAX_RETRIES env ->
  (forall i, (i < length (progressiveChunks contacts))%nat ->
     exists body, reply env (calls w + i) = Resolved body) ->
  exists w',
    addContactsToList env listId (Some contacts) true w
    = Some (Return (len contacts), w')
    /\ events w'
       = events w ++ acceptedTrace listId (progressiveChunks contacts)
    /\ concat (progressiveChunks contacts) = contacts.
Proof.
  intros Hne Hmax Hok.
  destruct (sendChunks_accepted env listId (progressiveChunks contacts) 0 w
              Hmax Hok) as (w' & Hrun & Hev).
  exists w'. rewrite progressiveChunks_concat in *.
  split; [|done]. unfold addContactsToList.
  replace (len contacts =? 0) with false
    by (symmetry; apply Z.eqb_neq; unfold len; destruct contacts; simpl; [done|lia]).
  by rewrite (bind_return _ _ w false w).
Qed.

Lemma all_batches_accepted_witness :
  exists w',
    addContactsToList (scriptedEnv [accepted; accepted; accepted] 1000) "71"
      (Some (seqZ 1 650)) true freshWorld
    = Some (Return (len (seqZ 1 650)), w')
    /\ events w'
       = events freshWorld
         ++ acceptedTrace "71" (progressiveChunks (seqZ 1 650))
    /\ concat (progressiveChunks (seqZ 1 650)) = seqZ 1 650.
Proof.
  apply (all_batches_accepted
           (scriptedEnv [accepted; accepted; accepted] 1000) "71"
           (seqZ 1 650) freshWorld).
  - by vm_compute.
  - by vm_compute.
  - intros i Hi.
    replace (length (progressiveChunks (seqZ 1 650))) with 3%nat in Hi
      by (vm_compute; reflexivity).
    destruct i as [|[|[|i]]]; [eexists; reflexivity..|lia].
Defined.

(** X9: [addContactsToList] does not throw, whatever the remote replies
    are: it returns a count between 0 and the number of contacts, and it
    leaves the set of used contacts and the stored documents as they
    are. *)
Theorem writer_returns_bounded_count env listId contacts skipVerification
    w o w' :
  addContactsToList env listId (Some contacts) skipVerification w
  = Some (o, w') ->
  (exists n, o = Return n /\ 0 <= n <= len contacts)
  /\ usedContacts w' = usedContacts w /\ store w' = store w.
Proof.
  intros H.
  destruct (quiet_addContactsToList _ _ _ _ _ _ _ H) as (Hu & _ & Hs & _).
  split; [|done]. destruct o as [n|e].
  - exists n. split; [done|]. by apply yields_addContactsToList in H.
  - by apply nothrow_addContactsToList in H.
Qed.

Lemma writer_bounded_witness :
  exists o w',
    addContactsToList
      (scriptedEnv [serverError; serverError; serverError; accepted] 1000)
      "71" (Some (seqZ 1 301)) true freshWorld
    = Some (o, w')
    /\ o = Return 1
    /\ exists n, o = Return n /\ 0 <= n <= len (seqZ 1 301).
Proof.
  eexists _, _. split; [vm_compute; reflexivity|]. split; [reflexivity|].
  edestruct (writer_returns_bounded_count
               (scriptedEnv [serverError; serverError; serverError; accepted]
                  1000)
               "71" (seqZ 1 301) true freshWorld) as [H _];
    [vm_compute; reflexivity|].
  exact H.
Defined.

Lemma sendChunks_without_attempts env listId chunks :
  forall successCount w,
  MAX_RETRIES env <= 0 ->
  sendChunks env listId chunks successCount w = Some (Return successCount, w).
Proof.
  induction chunks as [|chunk rest IH]; intros successCount w Hmax; simpl;
    [done|].
  replace (Z.to_nat (MAX_RETRIES env)) with 0%nat by lia. simpl.
  unfold bind, ret. rewrite IH by done. by rewrite Z.add_0_r.
Qed.

(** X10: with a retry ceiling [MAX_RETRIES] of 0 or less (the environment
    variable can hold a negative number), the attempt loop of a batch is
    never entered: [addContactsToList] without verification returns 0 and
    makes no call at all. *)
Theorem writer_sends_nothing_without_retries env listId contacts w :
  MAX_RETRIES env <= 0 ->
  addContactsToList env listId contacts true w = Some (Return 0, w).
Proof.
  intros Hmax. destruct contacts as [contacts|]; [|done].
  unfold addContactsToList. destruct (len contacts =? 0); [done|].
  rewrite (bind_return _ _ w false w) by done.
  by apply sendChunks_without_attempts.
Qed.

Lemma writer_sends_nothing_witness :
  addContactsToList
    {| RETRIEVAL_BATCH_SIZE := 1000; MAX_RETRIES := -1;
       INTER_LIST_DELAY_MS := 1000; reply := scripted [accepted];
       latency := λ _, 10%N; overshoot := λ _, 0%N;
       getDate := λ _, 3; getMonth := λ _, 10%nat;
       getFullYear := λ _, 2026 |}
    "71" (Some [1; 2; 3]) true freshWorld
  = Some (Return 0, freshWorld).
Proof.
  apply (writer_sends_nothing_without_retries
           {| RETRIEVAL_BATCH_SIZE := 1000; MAX_RETRIES := -1;
              INTER_LIST_DELAY_MS := 1000; reply := scripted [accepted];
              latency := λ _, 10%N; overshoot := λ _, 0%N;
              getDate := λ _, 3; getMonth := λ _, 10%nat;
              getFullYear := λ _, 2026 |}
           "71" (Some [1; 2; 3]) freshWorld).
  simpl. lia.
Defined.

(** ** The contact property updater *)

Lemma updateChunks_trace env chunks epochTime brandValue :
  forall w,
  exists w',
    updateChunks env chunks epochTime brandValue w = Some (Return tt, w')
    /\ events w' = events w ++ updateTrace chunks epochTime brandValue
    /\ calls w' = (calls w + length chunks)%nat.
Proof.
  induction chunks as [|chunk rest IH]; intros w.
  - exists w. unfold updateTrace. simpl. rewrite app_nil_r. split; [done|].
    split; [done|lia].
  - set (w1 := afterTimer env 300
                 (afterCall env
                    (PostContactsBatchUpdate (stringIds chunk) epochTime
                       brandValue) w)).
    destruct (IH w1) as (w' & Hrun & Hev & Hcalls).
    exists w'. split; [|split].
    + simpl updateChunks. rewrite <- Hrun.
      unfold bind at 1, tryCatch, bind at 1, await.
      by destruct (reply env (calls w)).
    + rewrite Hev. unfold updateTrace. simpl. by rewrite <- !app_assoc.
    + rewrite Hcalls. simpl. lia.
Qed.

(** X11: [updateContactProperties] returns without throwing whatever the
    remote replies are, rejected calls included: it makes one batch-update
    call per chunk of 100 contact ids, [ceil(n / 100)] calls in all, each
    followed by 300 ms, and the chunks are the ids in their order.  The
    date that every call carries is the start of the UTC day of the date
    given: a multiple of 86 400 000 ms that is at most 86 399 999 ms before
    it. *)
Theorem updateContactProperties_trace env contactIds dateValue brandValue w :
  exists w',
    updateContactProperties env contactIds dateValue brandValue w
    = Some (Return tt, w')
    /\ events w'
       = events w
         ++ updateTrace (chunkArray contactIds 100)
              (pretty (startOfUtcDay dateValue)) brandValue
    /\ calls w'
       = (calls w + (length contactIds + 99) / 100)%nat
    /\ concat (chunkArray contactIds 100) = contactIds
    /\ startOfUtcDay dateValue `mod` 86400000 = 0
    /\ startOfUtcDay dateValue <= dateValue < startOfUtcDay dateValue + 86400000.
Proof.
  destruct (updateChunks_trace env (chunkArray contactIds 100)
              (pretty (startOfUtcDay dateValue)) brandValue w)
    as (w' & Hrun & Hev & Hcalls).
  pose proof (chunkArray_concat contactIds 100) as Hcat.
  pose proof (chunkArray_length contactIds 100) as Hlen.
  exists w'. split; [exact Hrun|]. split; [exact Hev|].
  split; [rewrite Hcalls, Hlen; change (Pos.to_nat 100) with 100%nat; do 2 f_equal; lia|].
  split; [exact Hcat|]. unfold startOfUtcDay.
  pose proof (Z.mod_pos_bound dateValue 86400000 ltac:(lia)).
  split; [|lia].
  rewrite Zminus_mod, Zmod_mod, Z.sub_diag. reflexivity.
Qed.

(** ** The campaign processor, step by step *)

(** The run of [processSingleCampaign] cut at its awaits: the sourcing
    block, the marking of the selection, the creation of the list, the
    writes and the creation of the document. *)
Lemma processSingleCampaign_run env fuel config daysFilter modeFilter w o w' :
  processSingleCampaign env fuel config daysFilter modeFilter w = Some (o, w') ->
  exists src w1,
    sourceContacts env fuel config w = Some (Return src, w1)
    /\ let sel := slice (primaryContacts src ++ secondaryContacts src) 0
                    (count config) in
       let w2 :=
         withSelection sel
           (withUsed (usedContacts w1 ∪ list_to_set sel) w1) in
       (exists e,
          createHubSpotList env (listNameOf env config) w2 = Some (Throw e, w')
          /\ o = Throw e)
       \/ (exists newList w3 actual w4 od,
             createHubSpotList env (listNameOf env config) w2
             = Some (Return newList, w3)
             /\ (if 0 <? len sel
                 then tryCatch
                        (populate env config (RemoteList.listId newList) sel)
                        (fun _ => ret 0)
                 else ret 0) w3 = Some (Return actual, w4)
             /\ createDocument env
                  (documentOf env config daysFilter modeFilter src newList
                     actual (clock w4)) w4
                = Some (od, w')
             /\ o = match od with
                    | Return doc =>
                        Return (resultOf env config src newList actual doc)
                    | Throw e => Throw e
                    end).
Proof.
  unfold processSingleCampaign. intros H.
  apply bind_inv in H as [(src & w1 & Hsrc & H)|(e & Hsrc & _)];
    [|by apply nothrow_sourceContacts in Hsrc].
  exists src, w1. split; [done|]. cbv zeta in *.
  set (sel := slice (primaryContacts src ++ secondaryContacts src) 0
                (count config)) in *.
  unfold bind at 1 in H. rewrite markUsed_eq in H.
  fold (listNameOf env config) in H.
  apply bind_inv in H as [(newList & w3 & Hnew & H)|(e & Hnew & ->)];
    [right|left; eauto].
  apply bind_inv in H as [(actual & w4 & Hact & H)|(e & Hact & ->)].
  2: { exfalso. destruct (0 <? len sel).
       - revert Hact. apply nothrow_tryCatch. intros _. apply nothrow_ret.
       - by apply nothrow_ret in Hact. }
  unfold bind at 1, dateNow at 1 in H.
  exists newList, w3, actual, w4.
  apply bind_inv in H as [(doc & w5 & Hdoc & H)|(e & Hdoc & ->)].
  - unfold ret in H. injection H as <- <-. exists (Return doc).
    split; [done|]. split; [done|]. split; [exact Hdoc|]. reflexivity.
  - exists (Throw e). split; [done|]. split; [done|]. split; [exact Hdoc|].
    reflexivity.
Qed.

Lemma concat_subseteq {A} (chunks : list (list A)) :
  Forall (λ c, c ⊆ concat chunks) chunks.
Proof.
  induction chunks as [|c rest IH]; constructor.
  - intros x Hx. simpl. apply elem_of_app. by left.
  - eapply Forall_impl; [exact IH|]. intros c' Hc' x Hx. simpl.
    apply elem_of_app. right. by apply Hc'.
Qed.

Lemma stringIds_chunk (chunk sel : list Z) :
  chunk <> [] -> chunk ⊆ sel ->
  stringIds chunk <> [] /\ stringIds chunk ⊆ stringIds sel.
Proof.
  intros Hne Hsub. split; [by destruct chunk|].
  unfold stringIds. intros s Hs.
  apply list_elem_of_fmap in Hs as (x & -> & Hx).
  apply list_elem_of_fmap. exists x. split; [done|]. by apply Hsub.
Qed.

Lemma progressiveChunks_pieces (contacts : list Z) :
  Forall (λ c, c <> [] /\ c ⊆ contacts) (progressiveChunks contacts).
Proof.
  apply Forall_and. split.
  - apply progressive_fold_Forall; [|constructor]. by intros c _ _ Hc _.
  - pose proof (concat_subseteq (progressiveChunks contacts)) as H.
    by rewrite progressiveChunks_concat in H.
Qed.

Lemma chunkArray_pieces (contacts : list Z) (size : positive) :
  Forall (λ c, c <> [] /\ c ⊆ contacts) (chunkArray contacts size).
Proof.
  apply Forall_and. split.
  - unfold chunkArray.
    destruct (chunkArrayFrom_spec contacts size 0 []) as (_ & H2 & _);
      [simpl; lia | done | constructor | done |].
    eapply Forall_impl; [exact H2|]. intros [|x c] Hc; [simpl in Hc; lia|done].
  - pose proof (concat_subseteq (chunkArray contacts size)) as H.
    by rewrite chunkArray_concat in H.
Qed.

Lemma populating_sendChunk env config newId sel listId chunk attemptsLeft :
  listId = newId \/ sendContactListId config = Some listId ->
  chunk <> [] -> chunk ⊆ sel ->
  forall retries,
  Frames (emits (populating config newId sel))
    (sendChunk env attemptsLeft retries listId chunk).
Proof.
  intros Hid Hne Hsub.
  induction attemptsLeft as [|n IH]; intros retries; simpl; [emits|].
  apply frames_tryCatch; [typeclasses eauto| |].
  - apply frames_bind; [typeclasses eauto| |intros _; emits].
    apply emits_await. simpl. split; [done|]. by apply stringIds_chunk.
  - intros _. apply frames_bind; [typeclasses eauto| |intros _; apply IH].
    emits.
Qed.

Lemma populating_sendChunks env config newId sel listId chunks :
  listId = newId \/ sendContactListId config = Some listId ->
  Forall (λ c, c <> [] /\ c ⊆ sel) chunks ->
  forall successCount,
  Frames (emits (populating config newId sel))
    (sendChunks env listId chunks successCount).
Proof.
  intros Hid Hall. induction Hall as [|chunk rest [Hne Hsub] _ IH];
    intros successCount; simpl; [emits|].
  apply frames_bind; [typeclasses eauto| |intros added; apply IH].
  by apply populating_sendChunk.
Qed.

Lemma populating_addContactsToList env config newId sel listId :
  listId = newId \/ sendContactListId config = Some listId ->
  Frames (emits (populating config newId sel))
    (addContactsToList env listId (Some sel) true).
Proof.
  intros Hid. unfold addContactsToList. destruct (len sel =? 0); [emits|].
  apply frames_bind; [typeclasses eauto|simpl; emits|].
  intros [|]; [emits|].
  apply populating_sendChunks; [done|apply progressiveChunks_pieces].
Qed.

Lemma populating_updateChunks env config newId sel chunks :
  Forall (λ c, c <> [] /\ c ⊆ sel) chunks ->
  Frames (emits (populating config newId sel))
    (updateChunks env chunks (pretty (startOfUtcDay (date config)))
       (lastMarketingEmailSentBrand config)).
Proof.
  intros Hall. induction Hall as [|chunk rest [Hne Hsub] _ IH]; simpl; [emits|].
  apply frames_bind; [typeclasses eauto| |intros _].
  - apply frames_tryCatch; [typeclasses eauto| |intros _; emits].
    apply frames_bind; [typeclasses eauto| |intros _; emits].
    apply emits_await. simpl.
    destruct (stringIds_chunk chunk sel Hne Hsub). done.
  - apply frames_bind; [typeclasses eauto|emits|intros _; apply IH].
Qed.

Lemma populating_populate env config newList sel :
  Frames (emits (populating config (RemoteList.listId newList) sel))
    (populate env config (RemoteList.listId newList) sel).
Proof.
  unfold populate.
  apply frames_bind; [typeclasses eauto| |intros _].
  - destruct (sendContactListId config) as [sendId|] eqn:Esend; [|emits].
    apply frames_bind; [typeclasses eauto| |intros _; emits].
    apply populating_addContactsToList. by right.
  - apply frames_bind; [typeclasses eauto| |intros actual].
    + apply populating_addContactsToList. by left.
    + apply frames_tryCatch; [typeclasses eauto| |intros _; emits].
      apply frames_bind; [typeclasses eauto| |intros _; emits].
      unfold updateContactProperties.
      apply populating_updateChunks, chunkArray_pieces.
Qed.

Lemma sourcing_sourceContacts env fuel config :
  Frames (emits (sourcing config)) (sourceContacts env fuel config).
Proof.
  unfold sourceContacts.
  apply frames_tryCatch; [typeclasses eauto| |intros _; emits].
  cbv zeta. apply frames_bind; [typeclasses eauto| |intros fetched].
  - eapply emits_weaken; [|apply readsOnly_getContactsFromList].
    intros [] Hev; simpl in *; auto.
  - apply frames_bind; [typeclasses eauto|emits|intros primary].
    destruct (secondaryListId config) as [secondaryId|] eqn:Esec; [|emits].
    destruct (_ <? _); [|emits].
    apply frames_tryCatch; [typeclasses eauto| |intros _; emits].
    apply frames_bind; [typeclasses eauto| |intros fetched2; emits].
    eapply emits_weaken; [|apply readsOnly_getContactsFromList].
    intros [] Hev; simpl in *; subst; auto.
Qed.

Lemma createHubSpotList_events env name w o w' :
  createHubSpotList env name w = Some (o, w') ->
  match o with
  | Throw _ => events w' = events w ++ [PostList name]
  | Return newList =>
      events w'
      = events w ++ [PostList name; PostListSearch (RemoteList.listId newList)]
  end.
Proof.
  unfold createHubSpotList, tryCatch, bind at 1, await.
  destruct (reply env (calls w)) as [body|status message];
    [|by intros [= <- <-]].
  destruct (bodyListId body) as [listId|]; [|by intros [= <- <-]].
  unfold bind, getLegacySegmentId, tryCatch, bind, await, ret. simpl.
  destruct (reply env (S (calls w))); intros [= <- <-]; simpl;
    by rewrite <- app_assoc.
Qed.

(** X12: the requests of one campaign come in phases, whatever the
    remote replies are.  First the reads, which are page requests for the
    primary or the secondary list only; then one list creation under the
    campaign's list name.  If the creation fails the campaign throws and
    requests nothing more.  Otherwise the lookup of the legacy id of the new
    list follows, then the writes, then one document creation, which is
    always attempted.  Every write adds contacts of the selection, and
    contacts of the selection only, to the new list or to the send list, or
    updates the properties of contacts of the selection with the campaign's
    brand and the start of the UTC day of its date; an empty selection is
    followed by no write.  No campaign asks whether a list is manual. *)
Theorem campaign_requests_in_phases env fuel config daysFilter modeFilter
    w o w' :
  processSingleCampaign env fuel config daysFilter modeFilter w = Some (o, w') ->
  exists sel reads rest,
    selections w' = selections w ++ [sel]
    /\ events w'
       = events w ++ reads ++ PostList (listNameOf env config) :: rest
    /\ Forall (sourcing config) reads
    /\ ((rest = [] /\ exists e, o = Throw e)
        \/ exists newId writes doc,
             rest = PostListSearch newId :: writes ++ [CreatedListCreate doc]
             /\ Forall (populating config newId sel) writes
             /\ (sel = [] -> writes = [])
             /\ CreatedListFields.listId doc = newId
             /\ forall r, o = Return r ->
                  CampaignResult.createdList r = keptBySchema doc
                  /\ CampaignResult.listId r = newId).
Proof.
  intros H.
  apply processSingleCampaign_run in H as (src & w1 & Hsrc & H).
  cbv zeta in H.
  set (sel := slice (primaryContacts src ++ secondaryContacts src) 0
                (count config)) in *.
  destruct (sourcing_sourceContacts _ _ _ _ _ _ Hsrc) as (reads & Hev1 & Hreads).
  pose proof (quiet_sourceContacts _ _ _ _ _ _ Hsrc) as (_ & Hs1 & _).
  exists sel, reads.
  destruct H as [(e & Hnew & ->)|
                 (newList & w3 & actual & w4 & od & Hnew & Hact & Hdoc & ->)].
  - exists []. apply createHubSpotList_events in Hnew as Hev.
    pose proof (quiet_createHubSpotList _ _ _ _ _ Hnew) as (_ & Hs & _).
    split; [by rewrite Hs; simpl; rewrite Hs1|].
    split; [rewrite Hev; simpl; rewrite Hev1, <- app_assoc; done|].
    split; [done|]. left. eauto.
  - apply createHubSpotList_events in Hnew as Hev3.
    pose proof (quiet_createHubSpotList _ _ _ _ _ Hnew) as (_ & Hs3 & _).
    assert (exists writes,
              events w4 = events w3 ++ writes
              /\ Forall (populating config (RemoteList.listId newList) sel)
                   writes
              /\ (sel = [] -> writes = [])
              /\ selections w4 = selections w3)
      as (writes & Hev4 & Hwrites & Hnone & Hs4).
    { destruct (0 <? len sel) eqn:Epos.
      - assert (Frames (emits (populating config (RemoteList.listId newList)
                                 sel))
                  (tryCatch
                     (populate env config (RemoteList.listId newList) sel)
                     (λ _, ret 0))) as Hfr.
        { apply frames_tryCatch; [typeclasses eauto| |intros _; emits].
          apply populating_populate. }
        destruct (Hfr _ _ _ Hact) as (writes & Hev & Hall).
        exists writes. split; [done|]. split; [done|]. split.
        + intros Hsel. rewrite Hsel in Epos. done.
        + revert Hact. 
          assert (Frames quiet
                    (tryCatch
                       (populate env config (RemoteList.listId newList) sel)
                       (λ _, ret 0))) as Hq.
          { apply frames_tryCatch; [typeclasses eauto| |].
            - apply quiet_populate.
            - intros _. apply frames_ret. typeclasses eauto. }
          intros Hact. by destruct (Hq _ _ _ Hact) as (_ & ? & _).
      - injection Hact as _ <-. exists []. by rewrite app_nil_r. }
    apply createDocument_events in Hdoc as Hev5.
    apply createDocument_inv in Hdoc as ((_ & Hs5) & _ & Hd).
    exists (PostListSearch (RemoteList.listId newList)
            :: writes
               ++ [CreatedListCreate
                     (documentOf env config daysFilter modeFilter src newList
                        actual (clock w4))]).
    split; [by rewrite Hs5, Hs4, Hs3; simpl; rewrite Hs1|].
    split.
    { rewrite Hev5, Hev4, Hev3. simpl. rewrite Hev1.
      rewrite <- !app_assoc. simpl. reflexivity. }
    split; [done|]. right.
    exists (RemoteList.listId newList), writes,
      (documentOf env config daysFilter modeFilter src newList actual
         (clock w4)).
    split; [done|]. split; [done|]. split; [done|]. split; [done|].
    intros r Hr. destruct od as [doc|e]; [|done].
    injection Hr as <-. by destruct (Hd doc eq_refl) as [-> _].
Qed.

Lemma campaign_phases_witness :
  exists o w' sel reads rest,
    processSingleCampaign
      (scriptedEnv [pageOf [1; 2; 3] None; listCreated "900"; accepted;
                    accepted; accepted; accepted] 1000)
      4 (campaignOf 2 None) "today" "BAU" freshWorld
    = Some (o, w')
    /\ selections w' = selections freshWorld ++ [sel]
    /\ events w'
       = events freshWorld ++ reads
         ++ PostList "Acme - Autumn - acme.example - 3 Nov 2026" :: rest
    /\ Forall (sourcing (campaignOf 2 None)) reads.
Proof.
  eexists _, _.
  edestruct (campaign_requests_in_phases
               (scriptedEnv [pageOf [1; 2; 3] None; listCreated "900";
                             accepted; accepted; accepted; accepted] 1000)
               4 (campaignOf 2 None) "today" "BAU" freshWorld)
    as (sel & reads & rest & H1 & H2 & H3 & _); [vm_compute; reflexivity|].
  exists sel, reads, rest. split; [vm_compute; reflexivity|].
  split; [exact H1|]. split; [exact H2|exact H3].
Defined.

Example campaign_phases_trace :
  (λ r, take 7 (events r.2))
  <$> processSingleCampaign
        (scriptedEnv [pageOf [1; 2; 3] None; listCreated "900"; accepted;
                      accepted; accepted; accepted] 1000)
        4 (campaignOf 2 None) "today" "BAU" freshWorld
  = Some [GetMemberships "11" 500 None;
          PostList "Acme - Autumn - acme.example - 3 Nov 2026";
          PostListSearch "900";
          PutMembershipsAdd "900" ["1"; "2"]; SetTimeout 500;
          PostContactsBatchUpdate ["1"; "2"] "1762128000000" "Acme";
          SetTimeout 300].
Proof. vm_compute. reflexivity. Qed.

Lemma processSingleCampaign_outcome env fuel config daysFilter modeFilter
    w o w' :
  processSingleCampaign env fuel config daysFilter modeFilter w = Some (o, w') ->
  match o with
  | Return r =>
      store w' = store w ++ [CampaignResult.createdList r]
      /\ CampaignResult.success r = true
      /\ CampaignResult.listName r = listNameOf env config
      /\ CreatedList.name (CampaignResult.createdList r)
         = listNameOf env config
      /\ CreatedList.listId (CampaignResult.createdList r)
         = CampaignResult.listId r
      /\ CreatedList.legacyListId (CampaignResult.createdList r)
         = CampaignResult.legacyListId r
  | Throw _ => store w' = store w
  end.
Proof.
  intros H.
  apply processSingleCampaign_run in H as (src & w1 & Hsrc & H).
  cbv zeta in H.
  set (sel := slice (primaryContacts src ++ secondaryContacts src) 0
                (count config)) in *.
  pose proof (quiet_sourceContacts _ _ _ _ _ _ Hsrc) as (_ & _ & Hst1 & _).
  destruct H as [(e & Hnew & ->)|
                 (newList & w3 & actual & w4 & od & Hnew & Hact & Hdoc & ->)].
  - pose proof (quiet_createHubSpotList _ _ _ _ _ Hnew) as (_ & _ & Hst & _).
    by rewrite Hst.
  - pose proof (quiet_createHubSpotList _ _ _ _ _ Hnew) as (_ & _ & Hst3 & _).
    assert (quiet w3 w4) as (_ & _ & Hst4 & _).
    { destruct (0 <? len sel).
      - revert Hact. apply frames_tryCatch; [typeclasses eauto| |].
        + apply quiet_populate.
        + intros _. apply frames_ret. typeclasses eauto.
      - injection Hact as _ <-. reflexivity. }
    apply createDocument_inv in Hdoc as Hinv.
    destruct Hinv as (_ & _ & Hd).
    destruct od as [doc|e].
    + destruct (Hd doc eq_refl) as [-> Hst5]. simpl.
      rewrite Hst5, Hst4, Hst3. simpl. by rewrite Hst1.
    + transitivity (store w4); [|rewrite Hst4, Hst3; simpl; exact Hst1].
      revert Hdoc. unfold createDocument, bind, await.
      destruct (reply env (calls w4)); [done|]. by intros [= _ <-].
Qed.

(** X13: what a campaign leaves behind.  However it ends, its selection is
    recorded in the set of used contacts.  If it returns, exactly one
    document was stored, the one it returns as [createdList], under the
    campaign's list name and the id of the new list, and [success] is
    [true].  If it throws, no document was stored: the contacts it selected
    stay marked as used although no record of the campaign exists. *)
Theorem campaign_outcome_and_store env fuel config daysFilter modeFilter
    w o w' :
  processSingleCampaign env fuel config daysFilter modeFilter w = Some (o, w') ->
  exists sel,
    selections w' = selections w ++ [sel]
    /\ usedContacts w' = usedContacts w ∪ list_to_set sel
    /\ match o with
       | Return r =>
           store w' = store w ++ [CampaignResult.createdList r]
           /\ CampaignResult.success r = true
           /\ CampaignResult.listName r = listNameOf env config
           /\ CreatedList.name (CampaignResult.createdList r)
              = listNameOf env config
           /\ CreatedList.listId (CampaignResult.createdList r)
              = CampaignResult.listId r
           /\ CreatedList.legacyListId (CampaignResult.createdList r)
              = CampaignResult.legacyListId r
       | Throw _ => store w' = store w
       end.
Proof.
  intros H.
  apply processSingleCampaign_spec in H as Hspec.
  destruct Hspec as (src & w1 & _ & Hsel & Hused & _).
  eexists. split; [exact Hsel|]. split; [exact Hused|].
  by apply processSingleCampaign_outcome in H.
Qed.

Lemma campaign_outcome_witness :
  exists w',
    processSingleCampaign
      (scriptedEnv [pageOf [1; 2; 3] None; serverError] 1000)
      4 (campaignOf 2 None) "today" "BAU" freshWorld
    = Some (Throw (RemoteError (Some 500)
                     "Request failed with status code 500"), w')
    /\ usedContacts w' = {[1; 2]}
    /\ store w' = []
    /\ exists sel,
         selections w' = selections freshWorld ++ [sel]
         /\ usedContacts w' = usedContacts freshWorld ∪ list_to_set sel.
Proof.
  eexists. split; [vm_compute; reflexivity|].
  split; [vm_compute; reflexivity|]. split; [reflexivity|].
  edestruct (campaign_outcome_and_store
               (scriptedEnv [pageOf [1; 2; 3] None; serverError] 1000)
               4 (campaignOf 2 None) "today" "BAU" freshWorld)
    as (sel & H1 & H2 & _); [vm_compute; reflexivity|].
  exists sel. split; [exact H1|exact H2].
Defined.

Lemma unused_all w contacts :
  usedContacts w = ∅ -> unused w contacts = contacts.
Proof.
  intros Hempty. unfold unused. rewrite Hempty.
  induction contacts as [|x l IH]; [done|].
  rewrite filter_cons_True by apply not_elem_of_empty. by rewrite IH.
Qed.

(** X14: the counts of a campaign that returns.  [filteredCount], the
    number of fetched contacts that an earlier campaign of the run had
    used, lies between 0 and [availableCount], and it is 0 when no contact
    has been used yet (the first campaign of a run).  The selection, and so
    [contactCount], is no larger than what remains,
    [availableCount - filteredCount].  The object passed to
    [CreatedList.create], the last request of the campaign, carries the same
    [filteredCount]. *)
Theorem campaign_counts env fuel config daysFilter modeFilter w r w' :
  processSingleCampaign env fuel config daysFilter modeFilter w
  = Some (Return r, w') ->
  exists sel,
    selections w' = selections w ++ [sel]
    /\ 0 <= CampaignResult.filteredCount r <= CampaignResult.availableCount r
    /\ len sel
       <= CampaignResult.availableCount r - CampaignResult.filteredCount r
    /\ 0 <= CampaignResult.contactCount r
       <= CampaignResult.availableCount r - CampaignResult.filteredCount r
    /\ (usedContacts w = ∅ -> CampaignResult.filteredCount r = 0)
    /\ exists doc,
         last (events w') = Some (CreatedListCreate doc)
         /\ CreatedListFields.filteredCount doc
            = CampaignResult.filteredCount r.
Proof.
  intros H.
  apply processSingleCampaign_spec in H as Hspec.
  destruct Hspec as (src0 & w0 & Hsrc0 & Hsel & _ & _ & Hr).
  destruct (Hr r eq_refl) as (Hcount & _).
  apply processSingleCampaign_run in H as (src & w1 & Hsrc & H).
  rewrite Hsrc in Hsrc0. injection Hsrc0 as <- <-.
  cbv zeta in *.
  set (sel := slice (primaryContacts src ++ secondaryContacts src) 0
                (count config)) in *.
  destruct H as [(e & _ & [=])|
                 (newList & w3 & actual & w4 & od & _ & _ & Hdoc & Ho)].
  destruct od as [doc|e]; [|done]. injection Ho as ->.
  apply createDocument_events in Hdoc as Hlast.
  apply (f_equal last) in Hlast. rewrite last_snoc in Hlast.
  apply createDocument_inv in Hdoc as (_ & _ & Hd).
  destruct (Hd doc eq_refl) as [-> _].
  apply sourceContacts_spec in Hsrc
    as (src' & P & S & [= <-] & _ & HP & HS & HbP & HbS & HaP & HaS).
  pose proof (unused_length w P). pose proof (unused_length w S).
  pose proof (slice_length_le (primaryContacts src ++ secondaryContacts src)
                0 (count config)) as Hle.
  fold sel in Hle. unfold len in Hle at 2.
  rewrite length_app, HP, HS in Hle.
  assert (0 <= len (unused w P) /\ 0 <= len (unused w S)) as [??]
    by (unfold len; lia).
  assert (exists doc,
            last (events w') = Some (CreatedListCreate doc)
            /\ CreatedListFields.filteredCount doc
               = CampaignResult.filteredCount
                   (resultOf env config src newList actual
                      (keptBySchema
                         (documentOf env config daysFilter modeFilter src
                            newList actual (clock w4))))) as Hpassed
    by (eexists; split; [exact Hlast|reflexivity]).
  exists sel. split; [done|].
  split; [|split; [|split; [|split; [|exact Hpassed]]]];
    clear Hpassed; simpl in *; rewrite HbP, HbS, HaP, HaS; unfold len in *;
    try lia.
  intros Hempty. rewrite !unused_all by done. lia.
Qed.

Lemma campaign_counts_witness :
  exists r w' sel,
    processSingleCampaign
      (scriptedEnv [pageOf [1; 2; 3] None; listCreated "900"; accepted;
                    serverError; serverError; serverError; accepted;
                    accepted] 1000)
      4 (campaignOf 2 None) "today" "BAU"
      (withUsed {[2]} freshWorld)
    = Some (Return r, w')
    /\ CampaignResult.availableCount r = 3
    /\ CampaignResult.filteredCount r = 1
    /\ CampaignResult.contactCount r = 0
    /\ selections w' = selections (withUsed {[2]} freshWorld) ++ [sel]
    /\ len sel
       <= CampaignResult.availableCount r - CampaignResult.filteredCount r.
Proof.
  eexists _, _.
  edestruct (campaign_counts
               (scriptedEnv [pageOf [1; 2; 3] None; listCreated "900";
                             accepted; serverError; serverError; serverError;
                             accepted; accepted] 1000)
               4 (campaignOf 2 None) "today" "BAU"
               (withUsed {[2]} freshWorld))
    as (sel & H1 & _ & H3 & _); [vm_compute; reflexivity|].
  exists sel. split; [vm_compute; reflexivity|].
  split; [reflexivity|]. split; [reflexivity|]. split; [reflexivity|].
  split; [exact H1|exact H3].
Defined.

(** ** The run and its report *)

Lemma values_settle o :
  values [settle o]
  = match o with Return r => [r] | Throw _ => [] end.
Proof. by destruct o. Qed.

Lemma values_app (l1 l2 : list Settled) :
  values (l1 ++ l2) = values l1 ++ values l2.
Proof. apply omap_app. Qed.

Lemma successful_length (results : list Settled) :
  length (successful results) = length (values results).
Proof.
  unfold successful, values.
  induction results as [|[r|e] rest IH]; [done| |].
  - rewrite filter_cons_True by done. simpl. by rewrite IH.
  - rewrite filter_cons_False by done. simpl. by rewrite IH.
Qed.

Lemma successful_failed_length (results : list Settled) :
  (length (successful results) + length (failed results)
   = length results)%nat.
Proof.
  unfold successful, failed.
  induction results as [|[r|e] rest IH]; [done| |].
  - rewrite filter_cons_True, filter_cons_False by done. simpl. lia.
  - rewrite filter_cons_False, filter_cons_True by done. simpl. lia.
Qed.

Lemma processSingleCampaign_entry env fuel config daysFilter modeFilter
    w o w' :
  processSingleCampaign env fuel config daysFilter modeFilter w = Some (o, w') ->
  entryFor env config (settle o).
Proof.
  intros H. destruct o as [r|e]; [|done]. simpl.
  apply processSingleCampaign_outcome in H as Hout.
  destruct Hout as (_ & _ & Hname & _).
  apply processSingleCampaign_spec in H as (src & w1 & _ & _ & _ & _ & Hr).
  destruct (Hr r eq_refl) as (Hcount & Hreq & _).
  split; [done|]. split; [done|]. split; [lia|]. intros Hpos.
  pose proof (selection_length_le src config Hpos). lia.
Qed.

Lemma campaignLoop_entries env fuel daysFilter modeFilter total configs :
  forall index results w o w',
  campaignLoop env fuel daysFilter modeFilter total index configs results w
  = Some (o, w') ->
  exists entries,
    o = Return (results ++ entries)
    /\ Forall2 (entryFor env) configs entries
    /\ store w' = store w ++ (CampaignResult.createdList <$> values entries).
Proof.
  induction configs as [|config rest IH]; intros index results w o w' H.
  - simpl in H. injection H as <- <-. exists []. simpl.
    rewrite !app_nil_r. split; [done|]. split; [constructor|done].
  - destruct (processSingleCampaign env fuel config daysFilter modeFilter w)
      as [[o1 w1]|] eqn:E.
    + rewrite (campaignLoop_step _ _ _ _ _ _ _ _ _ _ _ _ E) in H.
      apply IH in H as (entries & -> & Hall & Hstore).
      exists (settle o1 :: entries). rewrite <- app_assoc.
      split; [done|]. split.
      * constructor; [|done]. eapply processSingleCampaign_entry, E.
      * rewrite Hstore.
        assert (store (if index <? total - 1
                       then afterTimer env
                              (interDelay env (clock w1 - clock w)) w1
                       else w1) = store w1) as ->
          by by destruct (index <? total - 1).
        apply processSingleCampaign_outcome in E.
        change (settle o1 :: entries) with ([settle o1] ++ entries).
        rewrite values_app, values_settle, fmap_app, app_assoc.
        f_equal. destruct o1 as [r|e]; simpl.
        -- by destruct E as [-> _].
        -- by rewrite E, app_nil_r.
    + simpl in H. unfold bind at 1 in H.
      by rewrite (runCampaign_stuck _ _ _ _ _ _ _ _ E) in H.
Qed.

(** X15: a run that ends returns one entry for each configuration, in the
    order of the configurations: a fulfilled entry carries the requested
    count and the list name of its own configuration.  The entries are
    split between [successful] and [failed], and the documents stored
    during the run are the [createdList] of the fulfilled entries, in
    order: one document for each success and none for a failure. *)
Theorem run_entries_follow_configs env fuel listConfigs daysFilter modeFilter
    w o w' :
  processCampaignsWithDelay env fuel listConfigs daysFilter modeFilter w
  = Some (o, w') ->
  exists results,
    o = Return results
    /\ Forall2 (λ config entry,
                  forall r, entry = fulfilled r ->
                    CampaignResult.requestedCount r = count config
                    /\ CampaignResult.listName r = listNameOf env config)
         listConfigs results
    /\ (length (successful results) + length (failed results)
        = length listConfigs)%nat
    /\ store w' = store w ++ (CampaignResult.createdList <$> values results)
    /\ length (store w')
       = (length (store w) + length (successful results))%nat.
Proof.
  unfold processCampaignsWithDelay, bind at 1, newUsedContacts. intros H.
  apply campaignLoop_entries in H as (results & -> & Hall & Hstore).
  simpl in *. exists results. split; [done|]. split; [|split; [|split]].
  - eapply Forall2_impl; [exact Hall|].
    intros config entry Hentry r ->. simpl in Hentry. tauto.
  - rewrite successful_failed_length. symmetry.
    eapply Forall2_length, Hall.
  - done.
  - by rewrite Hstore, length_app, length_fmap, successful_length.
Qed.

Lemma run_entries_witness :
  exists o w' results,
    processCampaignsWithDelay
      (scriptedEnv [pageOf [1; 2] None; serverError;
                    pageOf [2; 3] None; listCreated "900"; accepted;
                    accepted; accepted; accepted] 1000)
      4 [campaignOf 1 None; campaignOf 2 None] "today" "BAU" freshWorld
    = Some (o, w')
    /\ o = Return results
    /\ isFulfilled <$> results = [false; true]
    /\ length (store w')
       = (length (store freshWorld) + length (successful results))%nat.
Proof.
  eexists _, _.
  edestruct (run_entries_follow_configs
               (scriptedEnv [pageOf [1; 2] None; serverError;
                             pageOf [2; 3] None; listCreated "900"; accepted;
                             accepted; accepted; accepted] 1000)
               4 [campaignOf 1 None; campaignOf 2 None] "today" "BAU"
               freshWorld)
    as (results & Ho & _ & _ & _ & Hlen); [vm_compute; reflexivity|].
  exists results. split; [vm_compute; reflexivity|]. split; [exact Ho|].
  split; [|exact Hlen].
  injection Ho as <-. reflexivity.
Defined.

Lemma foldl_sum {A} (f : A -> Z) (l : list A) (a : Z) :
  foldl (λ sum x, sum + f x) a l = a + foldl (λ sum x, sum + f x) 0 l.
Proof.
  revert a. induction l as [|x l IH]; intros a; simpl; [lia|].
  rewrite (IH (a + f x)), (IH (0 + f x)). lia.
Qed.

Lemma totalRequested_cons config (configs : list CampaignConfig) :
  totalRequested (config :: configs) = count config + totalRequested configs.
Proof. unfold totalRequested. simpl. by rewrite (foldl_sum count). Qed.

Lemma totalFulfilled_cons entry (entries : list Settled) :
  totalFulfilled (entry :: entries)
  = match entry with
    | fulfilled r => CampaignResult.contactCount r
    | rejected _ => 0
    end + totalFulfilled entries.
Proof.
  unfold totalFulfilled. destruct entry as [r|e]; simpl; [|done].
  by rewrite (foldl_sum CampaignResult.contactCount).
Qed.

Lemma totals_of_entries env (configs : list CampaignConfig)
    (entries : list Settled) :
  Forall (λ c, 0 <= count c) configs ->
  Forall2 (entryFor env) configs entries ->
  0 <= totalFulfilled entries <= totalRequested configs.
Proof.
  intros Hpos Hall.
  induction Hall as [|config entry configs entries Hentry _ IH];
    [by unfold totalFulfilled, totalRequested|].
  apply Forall_cons in Hpos as [Hc Hpos]. specialize (IH Hpos).
  rewrite totalRequested_cons, totalFulfilled_cons.
  destruct entry as [r|e]; [|lia].
  destruct Hentry as (_ & _ & H0 & Hle). specialize (Hle Hc). lia.
Qed.

(** X16: the totals that a run logs.  When no configuration requests a
    negative count, the total fulfilled, the sum of [contactCount] over the
    successful entries, lies between 0 and the total requested, the sum of
    [count] over all the configurations. *)
Theorem run_total_fulfilled_within_requested env fuel listConfigs daysFilter
    modeFilter w results w' :
  Forall (λ c, 0 <= count c) listConfigs ->
  processCampaignsWithDelay env fuel listConfigs daysFilter modeFilter w
  = Some (Return results, w') ->
  0 <= totalFulfilled results <= totalRequested listConfigs.
Proof.
  unfold processCampaignsWithDelay, bind at 1, newUsedContacts.
  intros Hpos H.
  apply campaignLoop_entries in H as (entries & [= ->] & Hall & _).
  simpl. by eapply totals_of_entries.
Qed.

Lemma run_totals_witness :
  exists results w',
    processCampaignsWithDelay
      (scriptedEnv [pageOf [1; 2] None; serverError;
                    pageOf [2; 3] None; listCreated "900"; accepted;
                    accepted; accepted; accepted] 1000)
      4 [campaignOf 1 None; campaignOf 2 None] "today" "BAU" freshWorld
    = Some (Return results, w')
    /\ totalFulfilled results = 2
    /\ totalRequested [campaignOf 1 None; campaignOf 2 None] = 3
    /\ 0 <= totalFulfilled results
       <= totalRequested [campaignOf 1 None; campaignOf 2 None].
Proof.
  eexists _, _. split; [vm_compute; reflexivity|].
  split; [reflexivity|]. split; [reflexivity|].
  eapply (run_total_fulfilled_within_requested
           (scriptedEnv [pageOf [1; 2] None; serverError;
                         pageOf [2; 3] None; listCreated "900"; accepted;
                         accepted; accepted; accepted] 1000)
           4 [campaignOf 1 None; campaignOf 2 None] "today" "BAU"
           freshWorld).
  - repeat constructor; vm_compute; discriminate.
  - vm_compute. reflexivity.
Defined.

(** ** Edge cases of the reader *)

(** X17: a read with a limit of 0 or less never enters its loop: it
    returns the empty array without any request, timer or other change. *)
Theorem reader_without_budget_requests_nothing env fuel listId (m : Z) w :
  m <= 0 ->
  getContactsFromList env fuel listId (Finite m) w = Some (Return [], w).
Proof.
  intros Hm. unfold getContactsFromList, readFrom.
  assert (pageLoop env fuel listId (Finite m) initialReader w
          = Some (Return initialReader, w)) as Hloop.
  { assert ((0 <? m) = false) as Hlt by (apply Z.ltb_ge; lia).
    destruct fuel; simpl; change (len []) with 0; by rewrite Hlt. }
  by rewrite (bind_return _ _ _ _ _ Hloop).
Qed.

Lemma reader_without_budget_witness :
  getContactsFromList (scriptedEnv [pageOf [1; 2] None] 1000) 0 "11"
    (Finite 0) freshWorld
  = Some (Return [], freshWorld).
Proof.
  apply (reader_without_budget_requests_nothing
           (scriptedEnv [pageOf [1; 2] None] 1000) 0 "11" 0 freshWorld).
  lia.
Defined.

Lemma pageLoop_spins env listId maxCount :
  ltLimit 0 maxCount = true ->
  forall fuel st w,
  hasMore st = true ->
  allContacts st = [] ->
  (forall i, (calls w <= i)%nat ->
     exists body,
       reply env i = Resolved body
       /\ results body = [] /\ is_Some (nextAfter body)) ->
  pageLoop env fuel listId maxCount st w = None.
Proof.
  intros Hlimit. induction fuel as [|fuel IH]; intros st w Hmore Hnone Hreply;
    simpl pageLoop; rewrite Hmore, Hnone; change (len []) with 0;
    rewrite Hlimit; change (true && true) with true; cbv iota; [done|].
  destruct (Hreply (calls w) ltac:(lia)) as (body & Hbody & Hres & Hnext).
  unfold bind at 1.
  erewrite tryCatch_return.
  2: { apply fetchPage_resolved; [exact Hbody|].
       simpl allContacts. by rewrite Hnone, Hres. }
  rewrite bool_decide_eq_true_2 by done. cbv iota beta.
  apply IH; [done|simpl; by rewrite Hnone, Hres|].
  intros i Hi. apply Hreply. simpl in Hi. lia.
Qed.

(** X18: the loop of the reader has no bound of its own.  Against a remote
    that answers every page request with an empty page and a cursor to a
    next page, a read with a positive limit never ends: it keeps requesting
    pages, 200 ms apart, and no number of iterations suffices. *)
Theorem reader_spins_on_empty_pages env listId maxCount w :
  ltLimit 0 maxCount = true ->
  (forall i, (calls w <= i)%nat ->
     exists body,
       reply env i = Resolved body
       /\ results body = [] /\ is_Some (nextAfter body)) ->
  forall fuel, getContactsFromList env fuel listId maxCount w = None.
Proof.
  intros Hlimit Hreply fuel. unfold getContactsFromList, readFrom, bind.
  by rewrite (pageLoop_spins env listId maxCount Hlimit fuel initialReader w
                eq_refl eq_refl Hreply).
Qed.

Lemma reader_spins_witness :
  getContactsFromList
    {| RETRIEVAL_BATCH_SIZE := 1000; MAX_RETRIES := 3;
       INTER_LIST_DELAY_MS := 1000;
       reply := λ _, pageOf [] (Some "next");
       latency := λ _, 10%N; overshoot := λ _, 0%N;
       getDate := λ _, 3; getMonth := λ _, 10%nat;
       getFullYear := λ _, 2026 |}
    1000 "11" (Finite 500) freshWorld
  = None.
Proof.
  apply (reader_spins_on_empty_pages
           {| RETRIEVAL_BATCH_SIZE := 1000; MAX_RETRIES := 3;
              INTER_LIST_DELAY_MS := 1000;
              reply := λ _, pageOf [] (Some "next");
              latency := λ _, 10%N; overshoot := λ _, 0%N;
              getDate := λ _, 3; getMonth := λ _, 10%nat;
              getFullYear := λ _, 2026 |}
           "11" (Finite 500) freshWorld).
  - reflexivity.
  - intros i _. eexists. split; [reflexivity|]. split; [reflexivity|].
    simpl. by eexists.
Defined.

(** ** The check that a list is manual *)

(** X19: [verifyListIsManual] makes one request for the list and never
    throws: it returns [true] exactly when the request is answered with the
    processing type MANUAL, and [false] when the request is rejected.  A
    write with verification to a list found manual is the write without
    verification, made after that one request. *)
Theorem verification_outcomes env listId w :
  verifyListIsManual env listId w
  = Some (Return
            match reply env (calls w) with
            | Resolved body =>
                bool_decide (processingType body = Some "MANUAL")
            | Rejected _ _ => false
            end,
          afterCall env (GetList listId) w)
  /\ (forall contacts body,
        contacts <> [] ->
        reply env (calls w) = Resolved body ->
        processingType body = Some "MANUAL" ->
        addContactsToList env listId (Some contacts) false w
        = addContactsToList env listId (Some contacts) true
            (afterCall env (GetList listId) w)).
Proof.
  assert (verifyListIsManual env listId w
          = Some (Return
                    match reply env (calls w) with
                    | Resolved body =>
                        bool_decide (processingType body = Some "MANUAL")
                    | Rejected _ _ => false
                    end,
                  afterCall env (GetList listId) w)) as Hverify.
  { unfold verifyListIsManual, tryCatch, bind, await.
    by destruct (reply env (calls w)). }
  split; [exact Hverify|].
  intros contacts body Hne Hbody Hmanual. unfold addContactsToList.
  assert ((len contacts =? 0) = false) as ->.
  { destruct contacts; [done|]. unfold len. simpl. lia. }
  simpl. unfold bind at 1, bind at 1. rewrite Hverify, Hbody.
  rewrite bool_decide_eq_true_2 by done. reflexivity.
Qed.

Lemma verification_witness :
  addContactsToList
    (scriptedEnv [listCreated "71"; accepted] 1000) "71" (Some [1; 2]) false
    freshWorld
  = addContactsToList
      (scriptedEnv [listCreated "71"; accepted] 1000) "71" (Some [1; 2]) true
      (afterCall (scriptedEnv [listCreated "71"; accepted] 1000)
         (GetList "71") freshWorld).
Proof.
  destruct (verification_outcomes
              (scriptedEnv [listCreated "71"; accepted] 1000) "71" freshWorld)
    as [_ H].
  apply (H [1; 2]
           {| results := []; nextAfter := None; bodyListId := Some "71";
              bodyDeleted := None; processingType := Some "MANUAL";
              classicListId := None |});
    [discriminate|reflexivity|reflexivity].
Defined.

(** ** The two chunking functions compared *)

Lemma chunkWhile_chunkArrayFrom {A} (arr : list A) (size : positive)
    (index : nat) result :
  (chunkWhile arr (Pos.to_nat size) index result).1
  = chunkArrayFrom arr size index result.
Proof.
  remember (Pos.to_nat size) as s eqn:Hs. revert size Hs.
  funelim (chunkWhile arr s index result); intros sz Hs; subst size.
  - clear Heqcall. rewrite (chunkArrayFrom_equation_1 _ arr sz index result).
    by destruct (decide (index < length arr)%nat); [lia|].
  - exfalso. clear Heqcall H. rewrite slice_nat in e.
    pose proof (Pos2Nat.is_pos sz).
    assert (length (take (Pos.to_nat sz) (drop index arr)) = 0%nat) as Hlen
      by by rewrite e.
    rewrite length_take, length_drop in Hlen. lia.
  - clear Heqcall H0. rewrite (H sz eq_refl).
    rewrite (chunkArrayFrom_equation_1 _ arr sz index result).
    destruct (decide (index < length arr)%nat); [|lia]. simpl.
    by rewrite Hc.
Qed.

Lemma progressive_fold_done {A} (arr : list A) (sizes : list nat) result
    (index : nat) :
  (length arr <= index)%nat ->
  foldl (fun '(result, index) size => chunkWhile arr size index result)
    (result, index) sizes
  = (result, index).
Proof.
  intros Hle. induction sizes as [|size sizes IH]; simpl; [done|].
  by rewrite chunkWhile_done.
Qed.

Lemma progressiveChunksOf_first {A} (arr : list A) (size : positive)
    (later : list nat) :
  progressiveChunksOf arr (Pos.to_nat size :: later) = chunkArray arr size.
Proof.
  unfold progressiveChunksOf, chunkArray. simpl.
  pose proof (chunkWhile_spec arr (Pos.to_nat size) 0 [] eq_refl)
    as (_ & _ & Hend).
  pose proof (chunkWhile_chunkArrayFrom arr size 0 []) as Hsame.
  destruct (chunkWhile arr (Pos.to_nat size) 0 []) as [result index].
  simpl in *. specialize (Hend (Pos2Nat.is_pos size)).
  by rewrite progressive_fold_done.
Qed.

Lemma progressiveChunks_length {A} (arr : list A) :
  length (progressiveChunks arr) = ((length arr + 299) / 300)%nat.
Proof.
  change (progressiveChunks arr)
    with (progressiveChunksOf arr (Pos.to_nat 300 :: [100; 50; 1]%nat)).
  rewrite progressiveChunksOf_first, chunkArray_length.
  change (Pos.to_nat 300) with 300%nat. f_equal. lia.
Qed.

(** X20: only the first size of [progressiveChunks] is ever used.  When it
    is positive, the loop for it consumes the whole array, so the loops for
    the later sizes add nothing: [progressiveChunks(arr, [s, ...])] is
    [chunkArray(arr, s)], and with the default sizes [progressiveChunks(arr)]
    is [chunkArray(arr, 300)], with [ceil(arr.length / 300)] chunks. *)
Theorem progressiveChunks_first_size_only {A} (arr : list A) :
  (forall (size : positive) (later : list nat),
     progressiveChunksOf arr (Pos.to_nat size :: later) = chunkArray arr size)
  /\ progressiveChunks arr = chunkArray arr 300
  /\ length (progressiveChunks arr) = ((length arr + 299) / 300)%nat.
Proof.
  split; [apply progressiveChunksOf_first|].
  split; [apply (progressiveChunksOf_first arr 300 [100; 50; 1]%nat)|].
  apply progressiveChunks_length.
Qed.

(** ** The number of calls of the writer *)

Lemma sendChunk_calls env listId chunk attemptsLeft :
  forall retries w o w',
  sendChunk env attemptsLeft retries listId chunk w = Some (o, w') ->
  (Nat.min 1 attemptsLeft + calls w <= calls w' <= calls w + attemptsLeft)%nat.
Proof.
  induction attemptsLeft as [|n IH]; intros retries w o w' H; simpl in H.
  - injection H as _ <-. simpl. lia.
  - apply tryCatch_inv in H as [(a & H & _)|(e & w1 & H & Hhandler)].
    + unfold bind, await, sleep, ret in H.
      destruct (reply env (calls w)); [|done].
      injection H as _ <-. simpl. lia.
    + assert (calls w1 = S (calls w)) as Hw1.
      { unfold bind, await, sleep, ret in H.
        destruct (reply env (calls w)); [done|]. by injection H as _ <-. }
      apply bind_inv in Hhandler as [(u & w2 & Hsleep & Hrest)|(e' & Hsleep & _)].
      * assert (calls w2 = calls w1) as Hw2
          by (destruct (_ <? _); by injection Hsleep as _ <-).
        apply IH in Hrest. simpl. lia.
      * by destruct (_ <? _).
Qed.

Lemma sendChunks_calls env listId chunks attempts :
  attempts = Z.to_nat (MAX_RETRIES env) ->
  forall successCount w o w',
  sendChunks env listId chunks successCount w = Some (o, w') ->
  (Nat.min 1 attempts * length chunks + calls w <= calls w'
   <= calls w + attempts * length chunks)%nat.
Proof.
  intros ->. induction chunks as [|chunk rest IH];
    intros successCount w o w' H; simpl in H.
  - injection H as _ <-. simpl. lia.
  - apply bind_inv in H as [(added & w1 & Hone & Hrest)|(e & Hone & _)];
      [|by apply nothrow_sendChunk in Hone].
    apply sendChunk_calls in Hone. apply IH in Hrest. simpl length. nia.
Qed.

(** X21: the number of requests of a write without verification.  For
    [n] contacts it is at most [MAX_RETRIES] times the number of batches,
    [ceil(n / 300)]; and with a retry ceiling of at least 1 it is at least
    the number of batches: every batch is attempted, also after an earlier
    batch was given up. *)
Theorem writer_call_budget env listId contacts w o w' :
  addContactsToList env listId (Some contacts) true w = Some (o, w') ->
  (calls w'
   <= calls w
      + Z.to_nat (MAX_RETRIES env) * ((length contacts + 299) / 300))%nat
  /\ (1 <= MAX_RETRIES env ->
      (calls w + (length contacts + 299) / 300 <= calls w')%nat).
Proof.
  unfold addContactsToList. intros H.
  destruct (len contacts =? 0) eqn:Hempty.
  - injection H as _ <-. apply Z.eqb_eq in Hempty.
    assert (length contacts = 0%nat) as -> by (unfold len in Hempty; lia).
    simpl. split; lia.
  - simpl in H. rewrite (bind_return _ _ w false w) in H by done.
    apply (sendChunks_calls _ _ _ _ eq_refl) in H.
    rewrite progressiveChunks_length in H. split; [lia|].
    intros Hmax. 
    replace (Nat.min 1 (Z.to_nat (MAX_RETRIES env))) with 1%nat in H by lia.
    lia.
Qed.

Lemma writer_call_budget_witness :
  exists o w',
    addContactsToList
      (scriptedEnv [serverError; serverError; serverError; accepted] 1000)
      "71" (Some (seqZ 1 301)) true freshWorld
    = Some (o, w')
    /\ calls w' = 4%nat
    /\ (calls freshWorld + (length (seqZ 1 301) + 299) / 300 <= calls w')%nat.
Proof.
  eexists _, _. split; [vm_compute; reflexivity|]. split; [reflexivity|].
  edestruct (writer_call_budget
               (scriptedEnv [serverError; serverError; serverError; accepted]
                  1000)
               "71" (seqZ 1 301) freshWorld) as [_ H];
    [vm_compute; reflexivity|].
  apply H. simpl. lia.
Defined.

(** ** The displayed date *)

Lemma displayMinutes_table :
  Forall (λ m, String.length (displayMinutes m) = 2%nat) (seqZ 0 60).
Proof. apply (bool_decide_unpack _). vm_compute. exact I. Qed.

Lemma displayHours_table :
  Forall (λ h, 1 <= displayHours h <= 12
               /\ hourOfDay (displayHours h) (meridiem h) = h)
    (seqZ 0 24).
Proof. apply (bool_decide_unpack _). vm_compute. exact I. Qed.

(** X22: the 12-hour clock of [formatDateForDisplay].  For a valid date
    (hours from 0 to 23, minutes from 0 to 59) the hour shown lies between 1
    and 12, midnight and noon both reading 12; the hour shown and the AM/PM
    mark determine the hour of the day, so no two hours are displayed
    alike; and the minutes always take two characters. *)
Theorem formatDateForDisplay_clock (d : LocalFields) :
  0 <= fieldHours d <= 23 ->
  0 <= fieldMinutes d <= 59 ->
  formatDateForDisplay d
  = pretty (fieldDay d) +:+ " " +:+ fieldMonthShort d +:+ " "
    +:+ pretty (fieldYear d) +:+ " "
    +:+ pretty (displayHours (fieldHours d)) +:+ ":"
    +:+ displayMinutes (fieldMinutes d) +:+ meridiem (fieldHours d)
  /\ 1 <= displayHours (fieldHours d) <= 12
  /\ hourOfDay (displayHours (fieldHours d)) (meridiem (fieldHours d))
     = fieldHours d
  /\ (meridiem (fieldHours d) = "AM" <-> fieldHours d < 12)
  /\ String.length (displayMinutes (fieldMinutes d)) = 2%nat.
Proof.
  intros Hh Hm. split; [reflexivity|].
  pose proof displayHours_table as Hhours.
  pose proof displayMinutes_table as Hminutes.
  rewrite Forall_forall in Hhours, Hminutes.
  destruct (Hhours (fieldHours d)) as [Hshown Hback];
    [apply elem_of_seqZ; lia|].
  split; [exact Hshown|]. split; [exact Hback|]. split.
  - unfold meridiem. destruct (Z.leb_spec 12 (fieldHours d)); split;
      try done; lia.
  - apply Hminutes, elem_of_seqZ. lia.
Qed.

Lemma formatDateForDisplay_witness :
  formatDateForDisplay
    {| fieldDay := 3; fieldMonthShort := "Nov"; fieldYear := 2026;
       fieldHours := 0; fieldMinutes := 5 |}
  = "3 Nov 2026 12:05AM"
  /\ hourOfDay 12 "AM" = 0.
Proof.
  destruct (formatDateForDisplay_clock
              {| fieldDay := 3; fieldMonthShort := "Nov"; fieldYear := 2026;
                 fieldHours := 0; fieldMinutes := 5 |})
    as (Htext & _ & Hback & _); [simpl; lia|simpl; lia|].
  split; [rewrite Htext; vm_compute; reflexivity|exact Hback].
Defined.

